(** * Incremental XML walker ([converter/table_to_csv.py])

    A shallow embedding of the [XMLParser] class and of the [convert_to_csv]
    handler, together with the part of the Python runtime, of the operating
    system and of the lxml library that the class talks to.

    - [Py]: exceptions, outcomes, Python values and the heap of dictionary
      objects (dictionaries are shared by reference).
    - [OS]: a file system and standard output.
    - [etree]: the lxml element tree as a store of nodes linked by parent
      and children references, the element API used by the source, and the
      incremental parser behind [etree.iterparse].
    - [XMLParser]: the class itself, method by method.
    - [convert_to_csv]: the handler shipped with the module. *)

From Stdlib Require Import String Ascii List ZArith Lia.
From stdpp Require Import gmap strings list fin_maps pretty relations.

(** ** Python runtime *)

Module Py.

(** The exceptions that the modelled code can raise.  [Diverged] is not a
    Python exception: it marks a loop of the model that ran out of fuel. *)
Inductive exn :=
| TypeError (msg : string)
| IndexError (msg : string)
| RuntimeError (msg : string)
| OSError (errno : nat) (strerror filename : string)
| XMLSyntaxError (msg : string)
| XPathEvalError (msg : string)
| Diverged.

(** A computation on a state either completes, or raises and leaves the
    state as it was at the raise. *)
Inductive outcome (S : Type) :=
| Done (s : S)
| Raised (e : exn) (s : S).
Arguments Done {S} s.
Arguments Raised {S} e s.

Definition state_of {S} (o : outcome S) : S :=
  match o with Done s => s | Raised _ s => s end.

Definition raised {S} (o : outcome S) : option exn :=
  match o with Done _ => None | Raised e _ => Some e end.

Definition obind {S} (o : outcome S) (k : S -> outcome S) : outcome S :=
  match o with Done s => k s | Raised e s => Raised e s end.

(** Values stored in dictionaries and passed as arguments.  A dictionary is
    never stored inline: [VRef l] is a reference to the dictionary object at
    location [l] of the heap. *)
Inductive value :=
| VNone
| VStr (s : string)
| VRef (l : nat).

Abbreviation dict := (gmap string value).
Abbreviation heap := (list dict).

(** [{}]: a new, empty dictionary object. *)
Definition alloc (h : heap) : heap * nat := (h ++ [∅], length h).

Definition deref (h : heap) (l : nat) : dict := default ∅ (h !! l).

(** Truth value of a dictionary: empty is false. *)
Definition dict_truthy (d : dict) : bool := negb (bool_decide (d = ∅)).

(** Truth value of a string: empty is false. *)
Definition str_truthy (s : string) : bool :=
  match s with EmptyString => false | _ => true end.

(** [d.get(k)] *)
Definition get (d : dict) (k : string) : value := default VNone (d !! k).

End Py.
Export Py.

(** ** Operating system *)

Module OS.

(** What libxml2's tokenizer makes of a file's bytes: the SAX tokens in
    document order.  [TError] is the point where the tokenizer (or the DTD or
    schema validator running with it) rejects the input. *)
Inductive token :=
| TStart (tag : string) (nsdecl : list (string * string))
         (attrib : list (string * string))
| TEnd
| TText (s : string)
| TComment (s : string)
| TPI (target data : string)
| TError (msg : string).

(** A regular file.  [f_data] are its bytes.  [f_sax] stands for the token
    stream that the XML tokenizer yields on these bytes; the tokenizer is an
    external collaborator and is not modelled, so the stream is recorded
    with the file.  [f_protected] files can neither be removed nor opened
    for writing. *)
Record file := mkFile {
  f_data : string;
  f_sax : list token;
  f_protected : bool }.

Inductive fnode :=
| Dir
| File (f : file).

Record os_state := mkOS {
  fs : gmap string fnode;
  stdout : list string }.

Definition ENOENT : nat := 2.
Definition EACCES : nat := 13.
Definition EISDIR : nat := 21.

(** [print(line)] *)
Definition print (line : string) (w : os_state) : os_state :=
  mkOS (fs w) (stdout w ++ [line]).

(** [os.path.isfile(path)] *)
Definition isfile (w : os_state) (path : string) : bool :=
  match fs w !! path with Some (File _) => true | _ => false end.

(** [os.path.getsize(path)], for a path that [isfile] accepted. *)
Definition getsize (w : os_state) (path : string) : nat :=
  match fs w !! path with Some (File f) => String.length (f_data f) | _ => 0 end.

(** [os.remove(path)] *)
Definition remove (path : string) (w : os_state) : outcome os_state :=
  match fs w !! path with
  | None => Raised (OSError ENOENT "No such file or directory" path) w
  | Some Dir => Raised (OSError EISDIR "Is a directory" path) w
  | Some (File f) =>
      if f_protected f
      then Raised (OSError EACCES "Permission denied" path) w
      else Done (mkOS (delete path (fs w)) (stdout w))
  end.

(** [str(os_error)] *)
Definition str_oserror (errno : nat) (strerror filename : string) : string :=
  "[Errno " +:+ pretty errno +:+ "] " +:+ strerror +:+ ": '" +:+ filename +:+ "'".

(** [with open(path, mode='a') as file: file.write(text)]: the file is
    created when it is missing. *)
Definition append_text (path text : string) (w : os_state) : outcome os_state :=
  match fs w !! path with
  | None => Done (mkOS (<[path := File (mkFile text [TError "not XML"] false)]> (fs w)) (stdout w))
  | Some Dir => Raised (OSError EISDIR "Is a directory" path) w
  | Some (File f) =>
      if f_protected f
      then Raised (OSError EACCES "Permission denied" path) w
      else Done (mkOS (<[path := File (mkFile (f_data f +:+ text) [TError "not XML"] false)]> (fs w))
                      (stdout w))
  end.

End OS.
Export OS.

(** ** The lxml element tree *)

Module etree.

(** libxml2 keeps a document as nodes linked by parent, children and sibling
    pointers; an lxml [_Element] is a reference to such a node.  The store
    holds the nodes, a reference is an index into it, and node [0] is the
    document node.  Text is kept the lxml way, as the [text] and [tail] of
    element-like nodes, so [n_children] holds elements, comments and
    processing instructions only. *)
Inductive node_kind := KDocument | KElement | KComment | KPI.

Record node := mkNode {
  n_kind : node_kind;
  n_tag : string;
  n_text : option string;
  n_tail : option string;
  n_attrib : list (string * string);
  n_parent : option nat;
  n_children : list nat }.

Abbreviation store := (list node).

Definition set_parent (p : option nat) (n : node) : node :=
  mkNode (n_kind n) (n_tag n) (n_text n) (n_tail n) (n_attrib n) p (n_children n).
Definition set_children (cs : list nat) (n : node) : node :=
  mkNode (n_kind n) (n_tag n) (n_text n) (n_tail n) (n_attrib n) (n_parent n) cs.
Definition set_text (t : option string) (n : node) : node :=
  mkNode (n_kind n) (n_tag n) t (n_tail n) (n_attrib n) (n_parent n) (n_children n).
Definition set_tail (t : option string) (n : node) : node :=
  mkNode (n_kind n) (n_tag n) (n_text n) t (n_attrib n) (n_parent n) (n_children n).
Definition reset (n : node) : node :=
  mkNode (n_kind n) (n_tag n) None None [] (n_parent n) [].

Definition children (s : store) (e : nat) : list nat :=
  match s !! e with Some n => n_children n | None => [] end.
Definition parent (s : store) (e : nat) : option nat :=
  match s !! e with Some n => n_parent n | None => None end.
Definition text (s : store) (e : nat) : option string :=
  match s !! e with Some n => n_text n | None => None end.
Definition tail (s : store) (e : nat) : option string :=
  match s !! e with Some n => n_tail n | None => None end.
Definition tag_of (s : store) (e : nat) : string :=
  match s !! e with Some n => n_tag n | None => EmptyString end.
Definition is_document (s : store) (e : nat) : bool :=
  match s !! e with
  | Some n => match n_kind n with KDocument => true | _ => false end
  | None => false
  end.
Definition is_element (s : store) (e : nat) : bool :=
  match s !! e with
  | Some n => match n_kind n with KElement => true | _ => false end
  | None => false
  end.

(** [e.getparent()]: the parent element; [None] for a detached node and
    for a child of the document node, the root element among them. *)
Definition getparent (s : store) (e : nat) : option nat :=
  match parent s e with
  | Some p => if is_document s p then None else Some p
  | None => None
  end.

(** The entry just before [e] in a list of siblings. *)
Fixpoint prev_in (e : nat) (l : list nat) : option nat :=
  match l with
  | [] => None
  | x :: tl =>
      if x =? e then None
      else match tl with
           | [] => None
           | y :: _ => if y =? e then Some x else prev_in e tl
           end
  end.

(** [e.getprevious()]: the preceding sibling, whether an element, a comment
    or a processing instruction.  The siblings of the root element are the
    comments and processing instructions at the top level of the document. *)
Definition getprevious (s : store) (e : nat) : option nat :=
  match parent s e with
  | Some p => prev_in e (children s p)
  | None => None
  end.

(** Unlink [c] from its parent. *)
Definition detach (c : nat) (s : store) : store := alter (set_parent None) c s.

(** [del p[0]] *)
Definition delitem0 (s : store) (p : nat) : outcome store :=
  match children s p with
  | [] => Raised (IndexError "list index out of range") s
  | c :: cs => Done (detach c (alter (set_children cs) p s))
  end.

(** [e.clear()]: drops the children, the attributes, the text and the tail
    of [e]; the tag stays. *)
Definition clear (s : store) (e : nat) : store :=
  alter reset e (foldr detach s (children s e)).

(** [e.xpath('ancestor-or-self::*')]: the elements on the way from the
    root element down to [e], in document order. *)
Fixpoint ancestors_up (fuel : nat) (s : store) (e : nat) : list nat :=
  match fuel with
  | 0 => []
  | S f =>
      match s !! e with
      | None => []
      | Some n =>
          let up := match n_parent n with
                    | Some p => ancestors_up f s p
                    | None => []
                    end in
          match n_kind n with
          | KDocument => []
          | KElement => e :: up
          | _ => up
          end
      end
  end.

Definition xpath_ancestor_or_self (s : store) (e : nat) : list nat :=
  rev (ancestors_up (length s) s e).

(** *** The incremental parser behind [etree.iterparse]

    The parser is modelled as delivering each event before it reads further
    input.  (lxml reads the file in blocks and may have built more of the
    tree than the event at hand shows; nothing below depends on what lies to
    the right of the open elements.)  Whitespace-only text is assumed to
    have been dropped by the tokenizer ([remove_blank_text=True]). *)

Inductive event :=
| StartNs (prefix uri : string)
| End (element : nat).

(** The [tag] argument of [iterparse]: an exact name in Clark notation, or
    absent.  lxml's wildcards are not modelled. *)
Definition tag_matches (tag : option string) (t : string) : bool :=
  match tag with
  | None => true
  | Some f => String.eqb f t
  end.

Definition document_node : node := mkNode KDocument EmptyString None None [] None [].
Definition empty_tree : store := [document_node].

(** A new node becomes the last child of [p]. *)
Definition append_child (s : store) (p : nat) (k : node_kind) (tg : string)
    (txt : option string) (attrib : list (string * string)) : store :=
  alter (fun pn => set_children (n_children pn ++ [length s]) pn) p s
    ++ [mkNode k tg txt None attrib (Some p) []].

Definition has_root (s : store) : bool := existsb (is_element s) (children s 0).

Inductive sax_result :=
| SaxOk (s : store) (open : list nat) (evs : list event)
| SaxError (msg : string).

(** One token.  [open] lists the open elements, innermost first, above the
    document node.  With [events=('start-ns', 'end')] a start tag yields one
    [start-ns] event for each namespace it declares, whatever the tag filter
    says, and an end tag yields an [end] event when the element passes the
    filter. *)
Definition sax_step (tag : option string) (s : store) (open : list nat)
    (t : token) : sax_result :=
  match open with
  | [] => SaxError "no document"
  | top :: rest =>
      match t with
      | TStart tg nsdecl attrib =>
          if match rest with [] => has_root s | _ => false end
          then SaxError "Extra content at the end of the document"
          else SaxOk (append_child s top KElement tg None attrib)
                 (length s :: open) (map (fun '(p, u) => StartNs p u) nsdecl)
      | TEnd =>
          match rest with
          | [] => SaxError "Extra content at the end of the document"
          | _ => SaxOk s rest (if tag_matches tag (tag_of s top) then [End top] else [])
          end
      | TText x =>
          match rest with
          | [] => SaxError "Start tag expected, '<' not found"
          | _ => match last (children s top) with
                 | None => SaxOk (alter (set_text (Some x)) top s) open []
                 | Some c => SaxOk (alter (set_tail (Some x)) c s) open []
                 end
          end
      | TComment x => SaxOk (append_child s top KComment EmptyString (Some x) []) open []
      | TPI target data => SaxOk (append_child s top KPI target (Some data) []) open []
      | TError msg => SaxError msg
      end
  end.

(** End of input: every element closed and a root element seen. *)
Definition sax_close (s : store) (open : list nat) : bool :=
  match open with
  | [_] => has_root s
  | _ => false
  end.

End etree.
Export etree.

(** ** The class [XMLParser] *)

Module XMLParser.

(** One invocation of [python_callable], as the loop made it: the element,
    the positional and the keyword arguments, and the tree and the heap as
    they stood during the call. *)
Record call := mkCall {
  c_element : nat;
  c_args : list value;
  c_kwargs : dict;
  c_tree : store;
  c_heap : heap }.

(** A handler reads the tree and the heap and acts on the world outside
    (files, standard output); it may raise.  Handlers that change the tree
    or the dictionaries they are handed lie outside the model. *)
Definition handler : Type :=
  store -> heap -> nat -> list value -> dict -> os_state -> outcome os_state.

(** What the loop has done so far, oldest first: a [start-ns] event taken
    from the parser, or a call of the handler. *)
Inductive log_entry :=
| LNs (prefix uri : string)
| LCall (c : call).

(** The attributes set by [__init__].  [callable_kwargs] is a reference to
    a dictionary on the heap.  [dtd_validation] and [schema] only configure
    the tokenizer, whose verdict is part of the token stream. *)
Record self := mkSelf {
  xml_file : string;
  python_callable : handler;
  callable_args : list value;
  callable_kwargs : nat;
  tag : option string;
  dtd_validation : bool }.

(** The state that a run threads: the tree under construction with the
    parser's open elements, the heap, the world outside, and two records
    kept for the specification only: the log, and the nodes that pruning
    has unlinked. *)
Record state := mkState {
  st_tree : store;
  st_open : list nat;
  st_heap : heap;
  st_os : os_state;
  st_log : list log_entry;
  st_pruned : list nat }.

Definition calls (st : state) : list call :=
  omap (fun l => match l with LCall c => Some c | LNs _ _ => None end) (st_log st).

(** [is_non_empty_file] *)
Definition is_non_empty_file (w : os_state) (file : string) : bool :=
  isfile w file && (0 <? getsize w file).

(** [delete_file] *)
Definition delete_file (file : string) (w : os_state) : outcome os_state :=
  match OS.remove file w with
  | Done w' => Done (print ("File deleted: " +:+ file +:+ ".") w')
  | Raised (OSError errno strerror filename) w' =>
      if negb (errno =? ENOENT)
      then Done (print (str_oserror errno strerror filename +:+ ".") w')
      else Done w'
  | Raised e w' => Raised e w'
  end.

(** What [del None[0]] raises. *)
Definition NoneType_error : exn :=
  TypeError "'NoneType' object doesn't support item deletion".

(** [while ancestor.getprevious() is not None: del ancestor.getparent()[0]]
    on the tree [t.1]; [t.2] collects the nodes unlinked.  [del None[0]]
    is a [TypeError]. *)
Fixpoint while_previous (fuel : nat) (ancestor : nat) (t : store * list nat)
    : outcome (store * list nat) :=
  match getprevious t.1 ancestor with
  | None => Done t
  | Some _ =>
      match fuel with
      | 0 => Raised Diverged t
      | S fuel' =>
          match getparent t.1 ancestor with
          | None => Raised NoneType_error t
          | Some p =>
              match delitem0 t.1 p with
              | Done s' => while_previous fuel' ancestor (s', t.2 ++ take 1 (children t.1 p))
              | Raised e _ => Raised e t
              end
          end
      end
  end.

(** Every turn of the [while] loop unlinks one sibling of [ancestor], so
    their number bounds the turns. *)
Definition sibling_count (s : store) (a : nat) : nat :=
  match parent s a with
  | Some p => length (children s p)
  | None => 0
  end.

(** [for ancestor in ...: while ...] *)
Fixpoint for_ancestors (ancestors : list nat) (t : store * list nat)
    : outcome (store * list nat) :=
  match ancestors with
  | [] => Done t
  | ancestor :: rest =>
      obind (while_previous (sibling_count t.1 ancestor) ancestor t) (for_ancestors rest)
  end.

(** Lines 79 to 83: [element.clear()] and the two loops. *)
Definition prune (element : nat) (t : store * list nat) : outcome (store * list nat) :=
  let s := clear t.1 element in
  for_ancestors (xpath_ancestor_or_self s element) (s, t.2 ++ children t.1 element).

(** Lines 72 to 74: a falsy prefix becomes ['ns'], and the binding is
    stored in the dictionary [namespaces]. *)
Definition observe (prefix url : string) (namespaces : dict) : dict :=
  let prefix' := if negb (str_truthy prefix) then "ns" else prefix in
  <[prefix' := VStr url]> namespaces.

(** The body of the [for event, element in xml_tree] loop; [namespaces] is
    the location of the dictionary created on line 67. *)
Definition body (sf : self) (namespaces : nat) (ev : event) (st : state) : outcome state :=
  match ev with
  | StartNs prefix url =>
      Done (mkState (st_tree st) (st_open st)
              (alter (observe prefix url) namespaces (st_heap st))
              (st_os st) (st_log st ++ [LNs prefix url]) (st_pruned st))
  | End element =>
      let h := if dict_truthy (deref (st_heap st) namespaces)
               then alter (insert "namespaces" (VRef namespaces))
                      (callable_kwargs sf) (st_heap st)
               else st_heap st in
      let kwargs := deref h (callable_kwargs sf) in
      let log := st_log st ++ [LCall (mkCall element (callable_args sf) kwargs (st_tree st) h)] in
      match python_callable sf (st_tree st) h element (callable_args sf) kwargs (st_os st) with
      | Raised e w => Raised e (mkState (st_tree st) (st_open st) h w log (st_pruned st))
      | Done w =>
          match prune element (st_tree st, st_pruned st) with
          | Done t => Done (mkState t.1 (st_open st) h w log t.2)
          | Raised e t => Raised e (mkState t.1 (st_open st) h w log t.2)
          end
      end
  end.

Fixpoint run_events (sf : self) (namespaces : nat) (evs : list event) (st : state)
    : outcome state :=
  match evs with
  | [] => Done st
  | ev :: rest => obind (body sf namespaces ev st) (run_events sf namespaces rest)
  end.

(** The loop, token by token: the parser advances by one token and the body
    runs on each event that the token gives rise to. *)
Fixpoint run_tokens (sf : self) (namespaces : nat) (toks : list token) (st : state)
    : outcome state :=
  match toks with
  | [] => Done st
  | t :: rest =>
      match sax_step (tag sf) (st_tree st) (st_open st) t with
      | SaxError msg => Raised (XMLSyntaxError msg) st
      | SaxOk s' open' evs =>
          obind (run_events sf namespaces evs
                   (mkState s' open' (st_heap st) (st_os st) (st_log st) (st_pruned st)))
                (run_tokens sf namespaces rest)
      end
  end.

(** [fast_iteration]; [xml_tree] is the stream of tokens still to come. *)
Definition fast_iteration (sf : self) (xml_tree : list token) (st : state) : outcome state :=
  let '(h, namespaces) := alloc (st_heap st) in
  obind (run_tokens sf namespaces xml_tree
           (mkState (st_tree st) (st_open st) h (st_os st) (st_log st) (st_pruned st)))
        (fun st' => if sax_close (st_tree st') (st_open st') then Done st'
                    else Raised (XMLSyntaxError "Premature end of data") st').

(** The [schema] argument: the bytes, and whether lxml accepts them as an
    XML Schema document (the schema compiler is not modelled). *)
Record schema_source := mkSchema {
  sch_data : string;
  sch_accepted : bool }.

Definition initial_state (h : heap) (w : os_state) : state :=
  mkState empty_tree [0] h w [] [].

(** [__init__].  [python_callable] is callable by its type, so the check of
    line 35 passes.  [or] keeps its left operand when that is true and
    makes a new object otherwise. *)
Definition init (xml_file : string) (python_callable : handler)
    (callable_args : option (list value)) (callable_kwargs : option nat)
    (tag : option string) (dtd_validation : bool) (schema : option schema_source)
    (h : heap) (w : os_state) : outcome state :=
  let args := match callable_args with
              | Some (_ :: _ as l) => l
              | _ => []
              end in
  let '(h1, kwargs) := match callable_kwargs with
                       | Some l => if dict_truthy (deref h l) then (h, l) else alloc h
                       | None => alloc h
                       end in
  let sf := mkSelf xml_file python_callable args kwargs tag dtd_validation in
  let schema_ok := match schema with
                   | Some sch => if str_truthy (sch_data sch) then sch_accepted sch else true
                   | None => true
                   end in
  if negb schema_ok
  then Raised (XMLSyntaxError "invalid XML Schema") (initial_state h1 w)
  else if is_non_empty_file w xml_file
  then match fs w !! xml_file with
       | Some (File f) => fast_iteration sf (f_sax f) (initial_state h1 w)
       | _ => Raised (OSError ENOENT "No such file or directory" xml_file) (initial_state h1 w)
       end
  else Raised (RuntimeError (xml_file +:+ " is empty or non-existing.")) (initial_state h1 w).

End XMLParser.
Export XMLParser.

(** ** The handler [convert_to_csv] *)

Module Csv.

Definition QUOTE : ascii := ascii_of_nat 34.
Definition CR : ascii := ascii_of_nat 13.
Definition LF : ascii := ascii_of_nat 10.
Definition DELIMITER : ascii := ascii_of_nat 59.

Definition chars (s : string) : list ascii := list_ascii_of_string s.

(** With [QUOTE_MINIMAL] a field is quoted when it holds the delimiter, the
    quote character or a character of the line terminator. *)
Definition special (c : ascii) : bool :=
  Ascii.eqb c DELIMITER || Ascii.eqb c QUOTE || Ascii.eqb c CR || Ascii.eqb c LF.

Definition double_quotes (s : string) : string :=
  string_of_list_ascii
    (flat_map (fun c => if Ascii.eqb c QUOTE then [QUOTE; QUOTE] else [c]) (chars s)).

(** One field; [None] is written as the empty field. *)
Definition field (v : option string) : string :=
  match v with
  | None => EmptyString
  | Some s =>
      if existsb special (chars s)
      then String QUOTE (double_quotes s +:+ String QUOTE EmptyString)
      else s
  end.

Fixpoint join (sep : string) (l : list string) : string :=
  match l with
  | [] => EmptyString
  | [x] => x
  | x :: rest => x +:+ sep +:+ join sep rest
  end.

(** [writer.writerow(row)] with [delimiter=';'] and the default line
    terminator; a row of one empty field is written as a quoted empty
    field. *)
Definition writerow (row : list (option string)) : string :=
  let line := join (String DELIMITER EmptyString) (map field row) in
  let line' := match row, line with
               | [_], EmptyString => String QUOTE (String QUOTE EmptyString)
               | _, _ => line
               end in
  line' +:+ String CR (String LF EmptyString).

End Csv.

(** [element.xpath("ns:c1/text()", namespaces=namespaces)]: the text nodes
    of the children of [element] named [c1] in the namespace bound to the
    prefix [ns].  A prefix that [namespaces] does not bind makes lxml raise
    [XPathEvalError]. *)
Definition text_nodes (s : store) (c : nat) : list string :=
  option_list (text s c) ++ flat_map (fun k => option_list (tail s k)) (children s c).

Definition xpath_ns_c1_text (s : store) (h : heap) (element : nat) (namespaces : value)
    : exn + list string :=
  match namespaces with
  | VStr _ => inl (TypeError "namespaces must be a dict")
  | VNone => inl (XPathEvalError "Undefined namespace prefix")
  | VRef l =>
      match deref h l !! "ns" with
      | Some (VStr uri) =>
          let name := "{" +:+ uri +:+ "}c1" in
          inr (flat_map (text_nodes s)
                 (filter (fun c => is_element s c && String.eqb (tag_of s c) name)
                    (children s element)))
      | Some _ => inl (TypeError "namespace URI must be a string")
      | None => inl (XPathEvalError "Undefined namespace prefix")
      end
  end.

(** [repr] of a list of strings, without the escapes. *)
Definition repr_list (l : list string) : string :=
  "[" +:+ Csv.join ", " (map (fun x => "'" +:+ x +:+ "'") l) +:+ "]".

(** [convert_to_csv(element, **kwargs)] *)
Definition convert_to_csv : handler :=
  fun s h element args kwargs w =>
    match args with
    | _ :: _ => Raised (TypeError "convert_to_csv() takes 1 positional argument") w
    | [] =>
        let csv_file := get kwargs "csv_file" in
        let namespaces := get kwargs "namespaces" in
        match xpath_ns_c1_text s h element namespaces with
        | inl e => Raised e w
        | inr c1 =>
            let w1 := print ("c1: " +:+ repr_list c1) w in
            match csv_file with
            | VStr path =>
                let row := map (text s) (children s element) in
                append_text path (Csv.writerow row) w1
            | _ => Raised (TypeError "expected str, bytes or os.PathLike object") w1
            end
        end
    end.

(** ** Documents *)

(** A well-formed document, as a tree: the tokens of [tokens_of_document]
    are what the tokenizer yields on its serialisation. *)
#[warnings="-register-all"]
Inductive content :=
| CElem (tag : string) (nsdecl attrib : list (string * string)) (body : list content)
| CText (s : string)
| CComment (s : string)
| CPI (target data : string).

Inductive misc :=
| MComment (s : string)
| MPI (target data : string).

Record document := mkDocument {
  d_prolog : list misc;
  d_tag : string;
  d_nsdecl : list (string * string);
  d_attrib : list (string * string);
  d_body : list content;
  d_epilog : list misc }.

Fixpoint tokens_of (c : content) : list token :=
  match c with
  | CElem tg nsdecl attrib body => TStart tg nsdecl attrib :: flat_map tokens_of body ++ [TEnd]
  | CText x => [TText x]
  | CComment x => [TComment x]
  | CPI target data => [TPI target data]
  end.

Definition tokens_of_misc (m : misc) : token :=
  match m with
  | MComment x => TComment x
  | MPI target data => TPI target data
  end.

Definition d_root (d : document) : content :=
  CElem (d_tag d) (d_nsdecl d) (d_attrib d) (d_body d).

Definition tokens_of_document (d : document) : list token :=
  map tokens_of_misc (d_prolog d) ++ tokens_of (d_root d) ++ map tokens_of_misc (d_epilog d).

(** The elements that pass the tag filter, in the order of their end tags.
    An element is named by its rank among the elements, comments and
    processing instructions of the document in the order of their opening,
    counted from 1: this is the reference under which the parser stores
    it.  [next] is the rank of the next node to open. *)
Fixpoint end_order (tag : option string) (next : nat) (c : content) : list nat * nat :=
  match c with
  | CElem tg _ _ body =>
      let fix go (n : nat) (cs : list content) : list nat * nat :=
        match cs with
        | [] => ([], n)
        | c' :: rest =>
            let '(l1, n1) := end_order tag n c' in
            let '(l2, n2) := go n1 rest in
            (l1 ++ l2, n2)
        end in
      let '(l, n') := go (S next) body in
      (l ++ (if tag_matches tag tg then [next] else []), n')
  | CText _ => ([], next)
  | CComment _ => ([], S next)
  | CPI _ _ => ([], S next)
  end.

Definition matching_elements (tag : option string) (d : document) : list nat :=
  (end_order tag (S (length (d_prolog d))) (d_root d)).1.

(** ** Vocabulary of the specification *)

(** The [start-ns] events in a log, oldest first. *)
Definition ns_entries (log : list log_entry) : list (string * string) :=
  omap (fun l => match l with LNs p u => Some (p, u) | LCall _ => None end) log.

(** The key under which [observe] files a prefix. *)
Definition key_of (prefix : string) : string :=
  if negb (str_truthy prefix) then "ns" else prefix.

(** A sequence of observations, applied in order. *)
Definition observe_all (obs : list (string * string)) (namespaces : dict) : dict :=
  foldl (fun d '(p, u) => observe p u d) namespaces obs.

(** The URI of the last observation filed under [key]. *)
Fixpoint last_observed (key : string) (obs : list (string * string)) : option string :=
  match obs with
  | [] => None
  | (p, u) :: rest =>
      match last_observed key rest with
      | Some u' => Some u'
      | None => if String.eqb (key_of p) key then Some u else None
      end
  end.

(** The namespace mapping that a call was handed, as it reads in heap [h]. *)
Definition namespaces_of (c : call) (h : heap) : option dict :=
  match c_kwargs c !! "namespaces" with
  | Some (VRef l) => Some (deref h l)
  | _ => None
  end.

(** [callable_kwargs] with the key ['namespaces'] merged in. *)
Definition merged (namespaces : nat) (kwargs : dict) : dict :=
  <["namespaces" := VRef namespaces]> kwargs.

(** The schema argument is absent, empty, or accepted by lxml. *)
Definition schema_compiles (schema : option schema_source) : Prop :=
  match schema with
  | Some sch => str_truthy (sch_data sch) = true -> sch_accepted sch = true
  | None => True
  end.

(** The step from a node to one of its children, and what can be reached
    from a node along such steps. *)
Definition child (s : store) (p c : nat) : Prop := c ∈ children s p.
Definition reachable (s : store) (i : nat) : Prop := rtc (child s) 0 i.




(** ** Invariants of the tree under construction *)

(** The store is a forest: the document node has no parent, the children
    lists and the parent references say the same, a child is younger than
    its parent, and no child is listed twice. *)
Record tree_wf (s : store) : Prop := mkWf {
  wf_root : parent s 0 = None;
  wf_child : ∀ p c, c ∈ children s p → parent s c = Some p ∧ p < c;
  wf_parent : ∀ p c, parent s c = Some p → c ∈ children s p;
  wf_nodup : ∀ p, NoDup (children s p) }.


(** No element without a parent element has a preceding sibling: nothing
    stands in front of the root element. *)
Definition root_first (s : store) : Prop :=
  ∀ a, is_element s a = true → getprevious s a ≠ None → getparent s a ≠ None.


(** [s'] is [s] with the children [left] of [p] unlinked: [p] keeps
    [rest], the nodes of [left] lose their parent, nothing else moves. *)
Definition dropped (s s' : store) (p : nat) (left rest : list nat) : Prop :=
  children s p = left ++ rest
  ∧ (∀ q, children s' q = if decide (q = p) then rest else children s q)
  ∧ (∀ x, parent s' x = if decide (x ∈ left) then None else parent s x)
  ∧ (∀ x, is_document s' x = is_document s x)
  ∧ (∀ x, is_element s' x = is_element s x)
  ∧ length s' = length s
  ∧ (∀ x, tag_of s' x = tag_of s x).

(** The open elements form a chain from the document node: each is the
    last child of the one below it. *)
Fixpoint chain (s : store) (open : list nat) : Prop :=
  match open with
  | [] => False
  | x :: rest =>
      match rest with
      | [] => x = 0
      | y :: _ => last (children s y) = Some x ∧ chain s rest
      end
  end.

Definition walk_inv (s : store) (open pr : list nat) : Prop :=
  tree_wf s
  ∧ 0 < length s
  ∧ chain s open
  ∧ Forall (fun r => r ≠ 0 ∧ parent s r = None ∧ r < length s) pr.

Definition state_inv (st : state) : Prop :=
  walk_inv (st_tree st) (st_open st) (st_pruned st).

(** The step from a node to its parent. *)
Definition par (s : store) (x y : nat) : Prop := parent s x = Some y.

(** The state of the [for] loop of [prune], relative to the tree [s1] it
    started from and the element [e] whose ancestors it walks. *)
Definition pruning (s1 : store) (e : nat) (s : store) : Prop :=
  tree_wf s ∧ root_first s
  ∧ (∀ x, is_element s x = is_element s1 x)
  ∧ (∀ a, rtc (par s1) e a → parent s a = parent s1 a)
  ∧ (∀ q, ∃ left, children s1 q = left ++ children s q)
  ∧ (∀ a p, rtc (par s1) e a → parent s1 a = Some p →
       head (children s p) = Some a ∨ children s p = children s1 p)
  ∧ children s e = [] ∧ text s e = None.

(** ** Invariant of the dispatch *)

(** What a call looks like when [pre] is the log before it: [kw0] is the
    caller's dictionary as it was handed in. *)
Definition call_ok (sf : self) (ns : nat) (kw0 : dict)
    (pre : list log_entry) (c : call) : Prop :=
  c_args c = callable_args sf
  ∧ c_kwargs c = (if decide (ns_entries pre = []) then kw0 else merged ns kw0)
  ∧ deref (c_heap c) (callable_kwargs sf) = c_kwargs c
  ∧ deref (c_heap c) ns = observe_all (ns_entries pre) ∅.

Definition dispatch_inv (sf : self) (ns : nat) (kw0 : dict) (st : state) : Prop :=
  callable_kwargs sf < length (st_heap st)
  ∧ ns < length (st_heap st)
  ∧ deref (st_heap st) ns = observe_all (ns_entries (st_log st)) ∅
  ∧ (deref (st_heap st) (callable_kwargs sf) = kw0
     ∨ (ns_entries (st_log st) ≠ []
        ∧ deref (st_heap st) (callable_kwargs sf) = merged ns kw0))
  ∧ ((∃ pre c post, st_log st = pre ++ LCall c :: post ∧ ns_entries pre ≠ []) →
     deref (st_heap st) (callable_kwargs sf) = merged ns kw0)
  ∧ (∀ pre c post, st_log st = pre ++ LCall c :: post → call_ok sf ns kw0 pre c).

(** ** Whole documents *)

(** A handler that never raises. *)
Definition handler_total (f : handler) : Prop :=
  ∀ s h e args kw w, ∃ w', f s h e args kw w = Done w'.

(** [end_order] along a list of siblings. *)
Fixpoint end_order_list (tag : option string) (n : nat) (cs : list content)
    : list nat * nat :=
  match cs with
  | [] => ([], n)
  | c :: rest =>
      let '(l1, n1) := end_order tag n c in
      let '(l2, n2) := end_order_list tag n1 rest in
      (l1 ++ l2, n2)
  end.

(** What holds of the state between two tokens of a document whose root
    element comes first. *)
Definition walking (st : state) : Prop :=
  state_inv st
  ∧ root_first (st_tree st)
  ∧ (∀ x, is_document (st_tree st) x = true → x = 0).

(** Processing the tokens of [c] below the open element: the run goes
    through, the open elements are as before, and the handler has been
    called on the matching elements of [c] in the order of their end tags. *)
Definition walks (sf : self) (ns : nat) (c : content) : Prop :=
  ∀ st top rest,
    st_open st = top :: rest → rest ≠ [] → walking st →
    ∃ st', run_tokens sf ns (tokens_of c) st = Done st'
      ∧ st_open st' = st_open st
      ∧ walking st'
      ∧ map c_element (calls st')
        = map c_element (calls st) ++ (end_order (tag sf) (length (st_tree st)) c).1
      ∧ length (st_tree st') = (end_order (tag sf) (length (st_tree st)) c).2
      ∧ length (st_tree st) ≤ length (st_tree st')
      ∧ (∀ x, x < length (st_tree st) → tag_of (st_tree st') x = tag_of (st_tree st) x).

(** ** Sample inputs *)

Module Sample.

(** A handler that does nothing. *)
Definition noop : handler := fun _ _ _ _ _ w => Done w.

Definition input (data : string) (d : document) : os_state :=
  mkOS {[ "in.xml" := File (mkFile data (tokens_of_document d) false) ]} [].

(** The two-row table of the specification. *)
Definition table_xml : string :=
  "<root><r><c1>A</c1><c2>B</c2></r><r><c1>C</c1><c2>D</c2></r></root>".
Definition table : document :=
  mkDocument [] "root" [] []
    [CElem "r" [] [] [CElem "c1" [] [] [CText "A"]; CElem "c2" [] [] [CText "B"]];
     CElem "r" [] [] [CElem "c1" [] [] [CText "C"]; CElem "c2" [] [] [CText "D"]]] [].
Definition csv_kwargs : heap := [ {[ "csv_file" := VStr "out.csv" ]} ].
Definition table_run : outcome state :=
  init "in.xml" convert_to_csv None (Some 0) (Some "r") false None csv_kwargs
    (input table_xml table).

(** The same table in a default namespace; the second row declares one
    more prefix. *)
Definition ns_table_xml : string :=
  "<root xmlns='u'><r><c1>A</c1><c2>B</c2></r><r xmlns:q='v'><c1>C</c1><c2>D</c2></r></root>".
Definition ns_table : document :=
  mkDocument [] "{u}root" [(EmptyString, "u")] []
    [CElem "{u}r" [] [] [CElem "{u}c1" [] [] [CText "A"]; CElem "{u}c2" [] [] [CText "B"]];
     CElem "{u}r" [("q", "v")] []
       [CElem "{u}c1" [] [] [CText "C"]; CElem "{u}c2" [] [] [CText "D"]]] [].
Definition ns_table_run : outcome state :=
  init "in.xml" convert_to_csv None (Some 0) (Some "{u}r") false None csv_kwargs
    (input ns_table_xml ns_table).


(** A comment in front of the root element. *)
Definition commented_xml : string := "<!--c--><root><a/><b/></root>".
Definition commented : document :=
  mkDocument [MComment "c"] "root" [] [] [CElem "a" [] [] []; CElem "b" [] [] []] [].
Definition commented_run : outcome state :=
  init "in.xml" noop None None None false None [] (input commented_xml commented).


(** The loop on the namespaced table, entered directly. *)
Definition ns_self : self := mkSelf "in.xml" convert_to_csv [] 0 (Some "{u}r") false.
Definition ns_state0 : state := initial_state csv_kwargs (input ns_table_xml ns_table).
Definition ns_log : list log_entry :=
  st_log (state_of (fast_iteration ns_self (tokens_of_document ns_table) ns_state0)).

(** The call at position [i] of a log. *)
Definition call_at (log : list log_entry) (i : nat) : call :=
  match log !! i with
  | Some (LCall c) => c
  | _ => mkCall 0 [] ∅ [] []
  end.

(** The loop on the plain table, with no tag filter and the idle handler. *)
Definition plain_self : self := mkSelf "in.xml" noop [] 0 None false.

End Sample.

(** ** Vocabulary of the further properties *)

(** *** The world and the calls *)

(** The calls in a log, oldest first. *)
Definition log_calls (log : list log_entry) : list call :=
  omap (fun l => match l with LCall c => Some c | LNs _ _ => None end) log.

(** The handler of [sf] applied as in the call [c], in the world [w]. *)
Definition apply_handler (sf : self) (c : call) (w : os_state) : outcome os_state :=
  python_callable sf (c_tree c) (c_heap c) (c_element c) (c_args c) (c_kwargs c) w.

(** The world after the calls [cs], made one after the other from [w]. *)
Definition replay (sf : self) (w : os_state) (cs : list call) : os_state :=
  foldl (fun w c => state_of (apply_handler sf c w)) w cs.

(** Each of the calls [cs], made one after the other from [w0], returns. *)
Definition each_returns (sf : self) (w0 : os_state) (cs : list call) : Prop :=
  ∀ cs1 c cs2, cs = cs1 ++ c :: cs2 →
    raised (apply_handler sf c (replay sf w0 cs1)) = None.

(** The world of [st] is what the calls logged so far made of [w0], and
    each of these calls returned. *)
Definition all_returned (sf : self) (w0 : os_state) (st : state) : Prop :=
  st_os st = replay sf w0 (calls st) ∧ each_returns sf w0 (calls st).

(** The last thing logged in [st] is a call in which the handler raised
    [x]: the calls before it returned, the world is as the handler left it,
    and the tree is as that call saw it. *)
Definition failed_in_last_call (sf : self) (w0 : os_state) (x : exn) (st : state) : Prop :=
  ∃ l c,
    st_log st = l ++ [LCall c]
    ∧ each_returns sf w0 (log_calls l)
    ∧ apply_handler sf c (replay sf w0 (log_calls l)) = Raised x (st_os st)
    ∧ st_tree st = c_tree c.

(** How a run of the loop can end. *)
Definition stops (sf : self) (w0 : os_state) (o : outcome state) : Prop :=
  match o with
  | Done st => all_returned sf w0 st
  | Raised x st =>
      (((∃ msg, x = XMLSyntaxError msg) ∨ x = NoneType_error) ∧ all_returned sf w0 st)
      ∨ failed_in_last_call sf w0 x st
  end.

(** *** The handler [convert_to_csv] on a run *)

(** What the file at [path] holds; nothing when it is not a file. *)
Definition csv_content (w : os_state) (path : string) : string :=
  match fs w !! path with
  | Some (File f) => f_data f
  | _ => EmptyString
  end.

(** The line that [convert_to_csv] writes in the call [c]: the texts of the
    children of the element, as the call saw them. *)
Definition row_of (c : call) : string :=
  Csv.writerow (map (text (c_tree c)) (children (c_tree c) (c_element c))).

(** The lines of the calls [cs], one after the other. *)
Fixpoint concat_rows (cs : list call) : string :=
  match cs with
  | [] => EmptyString
  | c :: rest => row_of c +:+ concat_rows rest
  end.

(** *** What a call is handed *)

(** The open elements other than the document node are elements. *)
Definition open_elements (s : store) (open : list nat) : Prop :=
  ∀ x, x ∈ open → x ≠ 0 → is_element s x = true.

(** The element of the call [c] is an element node that passes the tag
    filter and hangs in the tree that the call sees. *)
Definition live_match (sf : self) (c : call) : Prop :=
  is_element (c_tree c) (c_element c) = true
  ∧ tag_matches (tag sf) (tag_of (c_tree c) (c_element c)) = true
  ∧ reachable (c_tree c) (c_element c).

(** The namespace declarations that a token carries. *)
Definition declarations (t : token) : list (string * string) :=
  match t with
  | TStart _ nsdecl _ => nsdecl
  | _ => []
  end.

(** Invariant of the run for [live_match]; [evs] are the events of the
    current token that the loop has not taken yet. *)
Definition live_inv (sf : self) (evs : list event) (st : state) : Prop :=
  state_inv st
  ∧ open_elements (st_tree st) (st_open st)
  ∧ Forall (live_match sf) (calls st)
  ∧ ((∀ e, End e ∉ evs)
     ∨ ∃ e, evs = [End e] ∧ (e ∉ st_open st)
         ∧ live_match sf (mkCall e [] ∅ (st_tree st) [])).

(** Invariant of the run: the elements handed over so far are closed,
    and each was handed over once. *)
Definition once_inv (evs : list event) (st : state) : Prop :=
  state_inv st
  ∧ Forall (fun e => e < length (st_tree st) ∧ e ∉ st_open st) (map c_element (calls st))
  ∧ NoDup (map c_element (calls st))
  ∧ ((∀ e, End e ∉ evs)
     ∨ ∃ e, evs = [End e] ∧ (e ∉ st_open st) ∧ e < length (st_tree st)
         ∧ e ∉ map c_element (calls st)).

(** The heap [h] is [h0] but for the dictionary at [ns] and the key
    ['namespaces'] of the dictionary at [kw]. *)
Definition heap_frame (kw ns : nat) (h0 h : heap) : Prop :=
  length h = length h0
  ∧ ∀ l k, l ≠ ns → (l ≠ kw ∨ k ≠ "namespaces") → deref h l !! k = deref h0 l !! k.

(** Something that is not an element stands first at the top level of
    the document: a comment or a processing instruction in front of the
    root element. *)
Definition root_not_first (s : store) : Prop :=
  is_document s 0 = true
  ∧ ∃ m, head (children s 0) = Some m ∧ is_element s m = false.

(** Invariant of a run that started with a comment or a processing
    instruction, as long as no call has been made. *)
Definition prolog_inv (w : os_state) (evs : list event) (st : state) : Prop :=
  state_inv st
  ∧ open_elements (st_tree st) (st_open st)
  ∧ root_not_first (st_tree st)
  ∧ calls st = [] ∧ st_os st = w
  ∧ ((∀ e, End e ∉ evs)
     ∨ ∃ e, evs = [End e] ∧ st_open st ≠ [] ∧ chain (st_tree st) (e :: st_open st)
         ∧ is_element (st_tree st) e = true).

(** What a raise says of a run that has made at most one call. *)
Definition one_call_raised (sf : self) (w : os_state) (x : exn) (st : state) : Prop :=
  calls st = []
  ∨ ∃ c, calls st = [c]
      ∧ ((apply_handler sf c w = Done (st_os st) ∧ x = NoneType_error)
         ∨ apply_handler sf c w = Raised x (st_os st)).

(** How a run ends that has made at most one call: without a call, or with
    one call after which the pruning raised, or in which the handler
    raised. *)
Definition one_call_at_most (sf : self) (w : os_state) (o : outcome state) : Prop :=
  calls (state_of o) = []
  ∨ ∃ c, calls (state_of o) = [c]
      ∧ ((apply_handler sf c w = Done (st_os (state_of o))
          ∧ o = Raised NoneType_error (state_of o))
         ∨ ∃ x, apply_handler sf c w = Raised x (st_os (state_of o))
             ∧ o = Raised x (state_of o)).

(** The root element has been opened: it hangs under the document node. *)
Definition rooted (sf : self) (evs : list event) (st : state) : Prop :=
  live_inv sf evs st
  ∧ is_document (st_tree st) 0 = true
  ∧ has_root (st_tree st) = true.

(** *** The command line *)

(** What [argparse] hands over: [--input] and [--output] are required,
    [--tag] and [--schema] default to [None]. *)
Record arguments := mkArgs {
  a_tag : option string;
  a_input : string;
  a_output : string;
  a_schema : option string }.

(** [os.path.isfile(None)]: [os.stat] rejects [None] with a [TypeError],
    which [isfile] does not catch. *)
Definition stat_None_error : exn :=
  TypeError "stat: path should be string, bytes, os.PathLike or integer, not NoneType".

(** The block under [if __name__ == '__main__'], lines 125 to 165, after
    the arguments are parsed.  [accepts] stands for lxml's verdict on the
    bytes of the schema file.  The dictionary [{'csv_file': args.output}]
    is the one object on the heap, at location [0]. *)
Definition main (accepts : string -> bool) (a : arguments) (w : os_state) : outcome state :=
  match a_schema a with
  | None => Raised stat_None_error (initial_state [] w)
  | Some schema =>
      let schema_xml :=
        if is_non_empty_file w schema
        then match fs w !! schema with
             | Some (File f) => Some (mkSchema (f_data f) (accepts (f_data f)))
             | _ => None
             end
        else None in
      match delete_file (a_output a) w with
      | Raised e w1 => Raised e (initial_state [] w1)
      | Done w1 =>
          let w2 := print ("Processing: " +:+ a_input a +:+ ".") w1 in
          let h := [ {[ "csv_file" := VStr (a_output a) ]} ] in
          match init (a_input a) convert_to_csv None (Some 0) (a_tag a) false
                  schema_xml h w2 with
          | Done st =>
              Done (mkState (st_tree st) (st_open st) (st_heap st)
                      (print "Done!" (st_os st)) (st_log st) (st_pruned st))
          | Raised e st => Raised e st
          end
      end
  end.

(** A run of the script on the namespaced table, with a schema file. *)
Definition script_world : os_state :=
  mkOS {[ "in.xml" := File (mkFile Sample.ns_table_xml (tokens_of_document Sample.ns_table) false);
          "table.xsd" := File (mkFile "<xs:schema/>" [TError "not modelled"] false);
          "out.csv" := File (mkFile "old" [TError "not XML"] false) ]} [].
Definition script_args : arguments :=
  mkArgs (Some "{u}r") "in.xml" "out.csv" (Some "table.xsd").


(** *** The parser, seen from outside *)

(** What the events of the parser depend on: the open elements with their
    tags, innermost first; the reference that the next node gets; and
    whether the root element has been opened. *)
Record parse := mkParse {
  p_stack : list (nat * string);
  p_next : nat;
  p_rooted : bool }.

(** One token: the elements whose [end] events it gives rise to, or
    nothing where the parser rejects the token. *)
Definition parse_step (tag : option string) (a : parse) (t : token)
    : option (parse * list nat) :=
  match t with
  | TStart tg _ _ =>
      match p_stack a with
      | [] => if p_rooted a then None
              else Some (mkParse [(p_next a, tg)] (S (p_next a)) true, [])
      | _ => Some (mkParse ((p_next a, tg) :: p_stack a) (S (p_next a)) (p_rooted a), [])
      end
  | TEnd =>
      match p_stack a with
      | [] => None
      | (i, tg) :: rest =>
          Some (mkParse rest (p_next a) (p_rooted a),
                if tag_matches tag tg then [i] else [])
      end
  | TText _ => match p_stack a with [] => None | _ => Some (a, []) end
  | TComment _ => Some (mkParse (p_stack a) (S (p_next a)) (p_rooted a), [])
  | TPI _ _ => Some (mkParse (p_stack a) (S (p_next a)) (p_rooted a), [])
  | TError _ => None
  end.

(** The elements of the [end] events of a token stream, up to the token
    that the parser rejects, if any. *)
Fixpoint parse_run (tag : option string) (toks : list token) (a : parse)
    : list nat * option parse :=
  match toks with
  | [] => ([], Some a)
  | t :: rest =>
      match parse_step tag a t with
      | None => ([], None)
      | Some (a', ends) =>
          let '(l, r) := parse_run tag rest a' in (ends ++ l, r)
      end
  end.

(** Below an open element, the tokens of [c] give the [end] events of
    [end_order] and leave the open elements as they were. *)
Definition parses (tag : option string) (c : content) : Prop :=
  ∀ a, p_stack a ≠ [] →
    parse_run tag (tokens_of c) a
    = ((end_order tag (p_next a) c).1,
       Some (mkParse (p_stack a) (end_order tag (p_next a) c).2 (p_rooted a))).

(** The state [st] of a run is where the parser [a] is. *)
Definition follows (sf : self) (a : parse) (evs : list event) (st : state) : Prop :=
  live_inv sf evs st
  ∧ is_document (st_tree st) 0 = true
  ∧ st_open st = map fst (p_stack a) ++ [0]
  ∧ Forall (fun it => tag_of (st_tree st) it.1 = it.2) (p_stack a)
  ∧ length (st_tree st) = p_next a
  ∧ has_root (st_tree st) = p_rooted a.

(** *** Tables *)

(** A cell of a table: an element without children, with or without
    text. *)
Record cell := mkCell {
  cell_tag : string;
  cell_attrib : list (string * string);
  cell_text : option string }.

Definition cell_content (c : cell) : content :=
  CElem (cell_tag c) [] (cell_attrib c)
    (match cell_text c with Some x => [CText x] | None => [] end).

(** A row: an element whose children are cells. *)
Record row := mkRow {
  row_attrib : list (string * string);
  row_cells : list cell }.

Definition row_content (rowtag : string) (r : row) : content :=
  CElem rowtag [] (row_attrib r) (map cell_content (row_cells r)).

(** A table: a document whose root element holds rows, all with the tag
    [rowtag], and has nothing in front of it. *)
Definition table_document (roottag rowtag : string) (nsdecl attrib : list (string * string))
    (rows : list row) (epilog : list misc) : document :=
  mkDocument [] roottag nsdecl attrib (map (row_content rowtag) rows) epilog.

(** The lines of a table, one per row: the texts of its cells. *)
Fixpoint csv_of (rows : list row) : string :=
  match rows with
  | [] => EmptyString
  | r :: rest => Csv.writerow (map cell_text (row_cells r)) +:+ csv_of rest
  end.

(** The path can be opened for appending: it is not a directory and not
    a protected file. *)
Definition writable (w : os_state) (path : string) : Prop :=
  match fs w !! path with
  | Some Dir => False
  | Some (File f) => f_protected f = false
  | None => True
  end.

(** What holds between two rows of a table, while the root element is
    open: [out] is what the output file holds. *)
Definition table_inv (sf : self) (ns : nat) (kw0 : dict) (roottag : string)
    (nsdecl : list (string * string)) (path : string) (w : os_state)
    (out : string) (st : state) : Prop :=
  walking st
  ∧ st_open st = [1; 0]
  ∧ tag_of (st_tree st) 1 = roottag
  ∧ dispatch_inv sf ns kw0 st
  ∧ ns_entries (st_log st) = nsdecl
  ∧ writable (st_os st) path
  ∧ csv_content (st_os st) path = out
  ∧ (∀ g, g ≠ path → fs (st_os st) !! g = fs w !! g).

(** A table of two rows in a default namespace, and the script run on it. *)
Definition sample_rows : list row :=
  [ mkRow [] [mkCell "{u}c1" [] (Some "A"); mkCell "{u}c2" [] (Some "B")];
    mkRow [] [mkCell "{u}c1" [] (Some "C"); mkCell "{u}c2" [] None] ].

(** *** What is left of the tree after a call *)



(** * Proofs *)

Import Sample.

(** ** The namespace registry *)

Section registry.
Implicit Types (obs : list (string * string)) (d : dict).

Lemma observe_all_snoc obs p u d :
  observe_all (obs ++ [(p, u)]) d = observe p u (observe_all obs d).
Proof. unfold observe_all. by rewrite foldl_app. Qed.

Lemma observe_lookup p u d k :
  observe p u d !! k = if String.eqb (key_of p) k then Some (VStr u) else d !! k.
Proof.
  unfold observe. fold (key_of p).
  destruct (String.eqb_spec (key_of p) k) as [->|Hne].
  - apply lookup_insert_eq.
  - by apply lookup_insert_ne.
Qed.

Lemma last_observed_snoc k obs p u :
  last_observed k (obs ++ [(p, u)]) =
  if String.eqb (key_of p) k then Some u else last_observed k obs.
Proof.
  induction obs as [|[q v] obs IH]; simpl.
  - by destruct (String.eqb (key_of p) k).
  - rewrite IH. destruct (String.eqb (key_of p) k); [done|].
    by destruct (last_observed k obs).
Qed.

Lemma observe_all_lookup obs d k :
  observe_all obs d !! k =
  match last_observed k obs with Some u => Some (VStr u) | None => d !! k end.
Proof.
  induction obs as [|[p u] obs IH] using rev_ind; [done|].
  rewrite observe_all_snoc, observe_lookup, last_observed_snoc.
  by destruct (String.eqb (key_of p) k).
Qed.

Lemma observe_all_nonempty obs d p u : observe_all (obs ++ [(p, u)]) d ≠ ∅.
Proof.
  rewrite observe_all_snoc. unfold observe. apply insert_non_empty.
Qed.

End registry.

(** C7.  Whatever the observations: a key of the dictionary stays a key;
    an empty prefix is filed under ['ns']; under every key the dictionary
    holds the URI of the last observation filed under that key, and what it
    held before when there is none; in particular the last observation
    wins. *)
Theorem namespace_registry_grows (obs : list (string * string)) (d : dict) :
  dom d ⊆ dom (observe_all obs d)
  ∧ (∀ u, observe EmptyString u d !! "ns" = Some (VStr u))
  ∧ (∀ k, observe_all obs d !! k =
          match last_observed k obs with Some u => Some (VStr u) | None => d !! k end)
  ∧ (∀ p u, observe_all (obs ++ [(p, u)]) d !! key_of p = Some (VStr u)).
Proof.
  split; [|split; [|split]].
  - intros k. rewrite !elem_of_dom, observe_all_lookup.
    destruct (last_observed k obs); eauto.
  - intros u. by rewrite observe_lookup.
  - apply observe_all_lookup.
  - intros p u. by rewrite observe_all_snoc, observe_lookup, String.eqb_refl.
Qed.

(** ** Deleting a file *)

Lemma remove_raises_oserror file w e w' :
  OS.remove file w = Raised e w' →
  w' = w ∧ ∃ errno strerror, e = OSError errno strerror file
     ∧ (errno = ENOENT ↔ fs w !! file = None).
Proof.
  unfold OS.remove. destruct (fs w !! file) as [[|f]|] eqn:E.
  - intros [= <- <-]. split; [done|]. eexists _, _. split; [done|]. by split.
  - destruct (f_protected f); [|done].
    intros [= <- <-]. split; [done|]. eexists _, _. split; [done|]. by split.
  - intros [= <- <-]. split; [done|]. eexists _, _. split; [done|]. by split.
Qed.

Lemma remove_done file w w' :
  OS.remove file w = Done w' → fs w' = delete file (fs w) ∧ stdout w' = stdout w.
Proof.
  unfold OS.remove. destruct (fs w !! file) as [[|f]|]; [done| |done].
  destruct (f_protected f); [done|]. by intros [= <-].
Qed.

Lemma delete_file_done file w : ∃ w', delete_file file w = Done w'.
Proof.
  unfold delete_file. destruct (OS.remove file w) as [w'|e w'] eqn:E; [by eexists|].
  apply remove_raises_oserror in E as (-> & errno & se & -> & _).
  destruct (negb (errno =? ENOENT)); by eexists.
Qed.

(** C9.  [delete_file] never raises.  On a path that does not exist it
    changes nothing and prints nothing; any other failure of [os.remove] is
    printed and the call returns; deleting twice leaves the files as
    deleting once does. *)
Theorem delete_file_never_raises (file : string) (w : os_state) :
  raised (delete_file file w) = None
  ∧ (fs w !! file = None → delete_file file w = Done w)
  ∧ (∀ errno strerror filename,
       OS.remove file w = Raised (OSError errno strerror filename) w →
       errno ≠ ENOENT →
       delete_file file w = Done (print (str_oserror errno strerror filename +:+ ".") w))
  ∧ fs (state_of (obind (delete_file file w) (delete_file file)))
    = fs (state_of (delete_file file w)).
Proof.
  split; [|split; [|split]].
  - destruct (delete_file_done file w) as [w' ->]. done.
  - intros Hnone. unfold delete_file, OS.remove. by rewrite Hnone.
  - intros errno se fn E Hne. unfold delete_file. rewrite E.
    apply Nat.eqb_neq in Hne. by rewrite Hne.
  - unfold delete_file at 1 3. unfold OS.remove.
    destruct (fs w !! file) as [[|f]|] eqn:E; simpl.
    + unfold delete_file, OS.remove; simpl. by rewrite E.
    + destruct (f_protected f) eqn:Ep; simpl.
      * unfold delete_file, OS.remove; simpl. by rewrite E, Ep.
      * unfold delete_file, OS.remove; simpl. by rewrite lookup_delete_eq.
    + unfold delete_file, OS.remove. by rewrite E.
Qed.

Lemma delete_file_never_raises_witness :
  let w := mkOS {[ "d" := Dir ]} [] in
  delete_file "out.csv" w = Done w
  ∧ delete_file "d" w = Done (mkOS {[ "d" := Dir ]} ["[Errno 21] Is a directory: 'd'."]).
Proof.
  intros w.
  destruct (delete_file_never_raises "out.csv" w) as (_ & H1 & _).
  destruct (delete_file_never_raises "d" w) as (_ & _ & H2 & _).
  split.
  - apply H1. reflexivity.
  - apply (H2 EISDIR "Is a directory" "d"); [reflexivity | discriminate].
Defined.

(** ** What the handler is handed *)

Lemma state_of_obind_same {S} (o : outcome S) (k : S → outcome S) :
  (∀ s, state_of (k s) = s) → state_of (obind o k) = state_of o.
Proof. intros H. destruct o; simpl; auto. Qed.

Lemma run_events_inv (P : state → Prop) sf ns :
  (∀ ev st, P st → P (state_of (body sf ns ev st))) →
  ∀ evs st, P st → P (state_of (run_events sf ns evs st)).
Proof.
  intros Hbody evs. induction evs as [|ev evs IH]; intros st HP; [done|].
  simpl. specialize (Hbody ev st HP).
  destruct (body sf ns ev st) as [st'|e st']; simpl in *; auto.
Qed.

Lemma run_tokens_inv (P : state → Prop) sf ns :
  (∀ ev st, P st → P (state_of (body sf ns ev st))) →
  (∀ st t s' open' evs, P st →
     sax_step (tag sf) (st_tree st) (st_open st) t = SaxOk s' open' evs →
     P (mkState s' open' (st_heap st) (st_os st) (st_log st) (st_pruned st))) →
  ∀ toks st, P st → P (state_of (run_tokens sf ns toks st)).
Proof.
  intros Hbody Hsax toks. induction toks as [|t toks IH]; intros st HP; [done|].
  simpl. destruct (sax_step _ _ _ t) as [s' open' evs|msg] eqn:E; [|done].
  pose proof (run_events_inv P sf ns Hbody evs _ (Hsax _ _ _ _ _ HP E)) as H.
  destruct (run_events sf ns evs _) as [st'|e st']; simpl in *; auto.
Qed.

Lemma snoc_split {A} (l pre post : list A) (x y : A) :
  l ++ [x] = pre ++ y :: post →
  (post = [] ∧ pre = l ∧ x = y) ∨ (∃ post', post = post' ++ [x] ∧ l = pre ++ y :: post').
Proof.
  intros H. destruct post as [|z post _] using rev_ind.
  - apply app_inj_tail in H as [-> ->]. by left.
  - right. exists post. change (y :: post ++ [z]) with ((y :: post) ++ [z]) in H.
    rewrite app_assoc in H. apply app_inj_tail in H as [-> ->]. done.
Qed.

Lemma ns_entries_app l1 l2 : ns_entries (l1 ++ l2) = ns_entries l1 ++ ns_entries l2.
Proof. apply omap_app. Qed.

Lemma dict_truthy_true (d : dict) : dict_truthy d = true ↔ d ≠ ∅.
Proof.
  unfold dict_truthy. rewrite negb_true_iff, bool_decide_eq_false. done.
Qed.

Lemma observe_all_empty obs : observe_all obs ∅ = ∅ ↔ obs = [].
Proof.
  split; [|by intros ->].
  destruct obs as [|[p u] obs _] using rev_ind; [done|].
  intros H. by apply observe_all_nonempty in H.
Qed.

Lemma deref_alter_eq f l (h : heap) : l < length h → deref (alter f l h) l = f (deref h l).
Proof.
  intros Hl. unfold deref. rewrite list_lookup_alter_eq.
  destruct (lookup_lt_is_Some_2 h l Hl) as [d ->]. done.
Qed.

Lemma deref_alter_ne f l l' (h : heap) : l ≠ l' → deref (alter f l h) l' = deref h l'.
Proof. intros Hl. unfold deref. by rewrite list_lookup_alter_ne. Qed.

Section dispatch.
Context (sf : self) (ns : nat) (kw0 : dict).
Hypothesis Hne : callable_kwargs sf ≠ ns.

Local Abbreviation dispatch_inv := (dispatch_inv sf ns kw0).
Local Abbreviation call_ok := (call_ok sf ns kw0).

Lemma merged_merged d : merged ns (merged ns d) = merged ns d.
Proof. unfold merged. apply insert_insert_eq. Qed.

Lemma body_log_heap ev st :
  ∃ h entry,
    st_heap (state_of (body sf ns ev st)) = h
    ∧ st_log (state_of (body sf ns ev st)) = st_log st ++ [entry]
    ∧ match ev with
      | StartNs p u => h = alter (observe p u) ns (st_heap st) ∧ entry = LNs p u
      | End e =>
          h = (if dict_truthy (deref (st_heap st) ns)
               then alter (insert "namespaces" (VRef ns)) (callable_kwargs sf) (st_heap st)
               else st_heap st)
          ∧ entry = LCall (mkCall e (callable_args sf) (deref h (callable_kwargs sf))
                             (st_tree st) h)
      end.
Proof.
  destruct ev as [p u|e]; simpl.
  - eexists _, _. done.
  - destruct (python_callable sf _ _ _ _ _ _) as [w|x w]; simpl.
    + destruct (prune e _) as [t|x t]; simpl; eexists _, _; done.
    + eexists _, _; done.
Qed.

Lemma dispatch_inv_body ev st :
  dispatch_inv st → dispatch_inv (state_of (body sf ns ev st)).
Proof.
  intros (Hkw & Hns & Hd & Hk & Hinj & Hcalls).
  destruct (body_log_heap ev st) as (h & entry & Hh & Hlog & Hev).
  unfold dispatch_inv. rewrite Hh, Hlog. clear Hh Hlog.
  destruct ev as [p u|e]; destruct Hev as [-> ->].
  - rewrite length_alter, ns_entries_app. simpl.
    rewrite deref_alter_eq by done. rewrite deref_alter_ne by done.
    split; [done|]. split; [done|]. split; [by rewrite observe_all_snoc, Hd|].
    split; [|split].
    + destruct Hk as [Hk|[_ Hk]]; [by left|]. right. split; [|done].
      intros H. by apply app_eq_nil in H as [_ ?].
    + intros (pre & c & post & Hsplit & Hpre).
      apply snoc_split in Hsplit as [(_ & _ & ?)|(post' & -> & Hsplit)]; [done|].
      apply Hinj. eauto.
    + intros pre c post Hsplit.
      apply snoc_split in Hsplit as [(_ & _ & ?)|(post' & -> & Hsplit)]; [done|].
      eauto.
  - rewrite ns_entries_app, app_nil_r. simpl.
    set (h := if dict_truthy (deref (st_heap st) ns) then _ else _).
    assert (Hlen : length h = length (st_heap st)).
    { subst h. destruct (dict_truthy _); [apply length_alter|done]. }
    assert (Hhns : deref h ns = deref (st_heap st) ns).
    { subst h. destruct (dict_truthy _); [by apply deref_alter_ne|done]. }
    assert (Hhkw : deref h (callable_kwargs sf) =
                   if decide (ns_entries (st_log st) = []) then kw0 else merged ns kw0).
    { subst h. destruct (dict_truthy _) eqn:Et.
      - apply dict_truthy_true in Et. rewrite Hd, observe_all_empty in Et.
        rewrite decide_False by done. rewrite deref_alter_eq by done.
        fold (merged ns (deref (st_heap st) (callable_kwargs sf))).
        destruct Hk as [->|[_ ->]]; [done|apply merged_merged].
      - apply not_true_iff_false in Et. rewrite dict_truthy_true in Et.
        apply dec_stable in Et. rewrite Hd, observe_all_empty in Et.
        rewrite decide_True by done. destruct Hk as [Hk|[? _]]; done. }
    rewrite Hlen, Hhns.
    split; [done|]. split; [done|]. split; [done|]. split; [|split].
    + rewrite Hhkw. destruct (decide _); [by left|by right].
    + intros (pre & c & post & Hsplit & Hpre). rewrite Hhkw.
      apply snoc_split in Hsplit as [(_ & -> & _)|(post' & -> & Hsplit)].
      * by rewrite decide_False.
      * rewrite decide_False; [done|]. intros Hnil. apply Hpre.
        rewrite Hsplit, ns_entries_app in Hnil. by apply app_eq_nil in Hnil as [? _].
    + intros pre c post Hsplit.
      apply snoc_split in Hsplit as [(_ & -> & Hc)|(post' & -> & Hsplit)]; [|eauto].
      injection Hc as <-. unfold call_ok; simpl. by rewrite Hhns, Hhkw.
Qed.

Lemma dispatch_inv_run toks st :
  dispatch_inv st → dispatch_inv (state_of (run_tokens sf ns toks st)).
Proof.
  apply run_tokens_inv; [apply dispatch_inv_body|]. intros; done.
Qed.

End dispatch.

Lemma deref_app_l (h h' : heap) l : l < length h → deref (h ++ h') l = deref h l.
Proof. intros Hl. unfold deref. by rewrite lookup_app_l. Qed.

Lemma deref_fresh (h : heap) : deref (h ++ [∅]) (length h) = ∅.
Proof.
  unfold deref. rewrite lookup_app_r by lia. by rewrite Nat.sub_diag.
Qed.

Lemma fast_iteration_state sf toks st0 :
  state_of (fast_iteration sf toks st0) =
  state_of (run_tokens sf (length (st_heap st0)) toks
              (mkState (st_tree st0) (st_open st0) (st_heap st0 ++ [∅]) (st_os st0)
                 (st_log st0) (st_pruned st0))).
Proof.
  unfold fast_iteration, alloc. apply state_of_obind_same.
  intros s. by destruct (sax_close _ _).
Qed.

Lemma fast_iteration_inv sf toks st0 :
  st_log st0 = [] →
  callable_kwargs sf < length (st_heap st0) →
  dispatch_inv sf (length (st_heap st0)) (deref (st_heap st0) (callable_kwargs sf))
    (state_of (fast_iteration sf toks st0)).
Proof.
  intros Hlog Hkw. rewrite fast_iteration_state.
  apply dispatch_inv_run; [lia|].
  unfold dispatch_inv; simpl. rewrite length_app, Hlog; simpl.
  split; [lia|]. split; [lia|]. split; [apply deref_fresh|].
  split; [left; by apply deref_app_l|]. split.
  - intros (pre & c & post & H & _). by destruct pre.
  - intros pre c post H. by destruct pre.
Qed.

Lemma deref_nonempty_lt (h : heap) l : deref h l ≠ ∅ → l < length h.
Proof.
  unfold deref. intros H. apply lookup_lt_is_Some.
  destruct (h !! l); [eauto|done].
Qed.

(** C4, amended.  A call of the handler that comes after at least one
    [start-ns] event is handed a reference to the dictionary [namespaces]:
    read during the call, the dictionary holds exactly the bindings of the
    [start-ns] events that precede the call in the log, filed by [observe];
    read at the end of the run, the same reference shows the bindings of
    all the events of the run.  A call that comes before any [start-ns]
    event is handed the caller's keyword arguments as they are. *)
Theorem handler_sees_namespaces_so_far (sf : self) (toks : list token) (st0 : state)
    (pre post : list log_entry) (c : call) :
  st_log st0 = [] →
  callable_kwargs sf < length (st_heap st0) →
  st_log (state_of (fast_iteration sf toks st0)) = pre ++ LCall c :: post →
  (ns_entries pre = [] → c_kwargs c = deref (st_heap st0) (callable_kwargs sf))
  ∧ (ns_entries pre ≠ [] →
     namespaces_of c (c_heap c) = Some (observe_all (ns_entries pre) ∅)
     ∧ namespaces_of c (st_heap (state_of (fast_iteration sf toks st0)))
       = Some (observe_all (ns_entries (st_log (state_of (fast_iteration sf toks st0)))) ∅)).
Proof.
  intros Hlog Hkw Hsplit.
  destruct (fast_iteration_inv sf toks st0 Hlog Hkw) as (_ & _ & Hd & _ & _ & Hcalls).
  destruct (Hcalls _ _ _ Hsplit) as (_ & Hk & _ & Hns).
  split.
  - intros Hnil. by rewrite Hk, decide_True.
  - intros Hnn. rewrite decide_False in Hk by done.
    unfold namespaces_of. rewrite Hk. unfold merged. rewrite lookup_insert_eq.
    by rewrite Hns, Hd.
Qed.





(** ** The tree: primitive updates *)

(** observers of the primitive updates *)
Section observers.
Implicit Types (s : store) (f : node → node).

Lemma children_alter f i s j :
  (∀ n, n_children (f n) = n_children n) →
  children (alter f i s) j = children s j.
Proof.
  intros Hf. unfold children. rewrite list_lookup_alter.
  case_decide; [subst|done]. destruct (s !! j); simpl; auto.
Qed.

Lemma parent_alter f i s j :
  (∀ n, n_parent (f n) = n_parent n) →
  parent (alter f i s) j = parent s j.
Proof.
  intros Hf. unfold parent. rewrite list_lookup_alter.
  case_decide; [subst|done]. destruct (s !! j); simpl; auto.
Qed.

Lemma text_alter f i s j :
  (∀ n, n_text (f n) = n_text n) →
  text (alter f i s) j = text s j.
Proof.
  intros Hf. unfold text. rewrite list_lookup_alter.
  case_decide; [subst|done]. destruct (s !! j); simpl; auto.
Qed.

Lemma is_document_alter f i s j :
  (∀ n, n_kind (f n) = n_kind n) →
  is_document (alter f i s) j = is_document s j.
Proof.
  intros Hf. unfold is_document. rewrite list_lookup_alter.
  case_decide; [subst|done]. destruct (s !! j); simpl; [by rewrite Hf|done].
Qed.

Lemma is_element_alter f i s j :
  (∀ n, n_kind (f n) = n_kind n) →
  is_element (alter f i s) j = is_element s j.
Proof.
  intros Hf. unfold is_element. rewrite list_lookup_alter.
  case_decide; [subst|done]. destruct (s !! j); simpl; [by rewrite Hf|done].
Qed.

Lemma tag_of_alter f i s j :
  (∀ n, n_tag (f n) = n_tag n) →
  tag_of (alter f i s) j = tag_of s j.
Proof.
  intros Hf. unfold tag_of. rewrite list_lookup_alter.
  case_decide; [subst|done]. destruct (s !! j); simpl; auto.
Qed.

Lemma children_set_children cs i s j :
  i < length s →
  children (alter (set_children cs) i s) j = if decide (j = i) then cs else children s j.
Proof.
  intros Hi. unfold children. rewrite list_lookup_alter.
  destruct (decide (i = j)) as [->|]; [|by rewrite decide_False].
  rewrite decide_True by done.
  destruct (lookup_lt_is_Some_2 s j Hi) as [n ->]. done.
Qed.

Lemma parent_detach c s x :
  parent (detach c s) x = if decide (x = c) then None else parent s x.
Proof.
  unfold detach, parent. rewrite list_lookup_alter.
  destruct (decide (c = x)) as [->|]; [|by rewrite decide_False].
  rewrite decide_True by done. by destruct (s !! x).
Qed.

Lemma children_detach c s q : children (detach c s) q = children s q.
Proof. by apply children_alter. Qed.

Lemma children_Some_lt s p x l : children s p = x :: l → p < length s.
Proof.
  unfold children. destruct (s !! p) eqn:E; [|done].
  intros _. by apply lookup_lt_Some in E.
Qed.

Lemma parent_foldr_detach l s x :
  parent (foldr detach s l) x = if decide (x ∈ l) then None else parent s x.
Proof.
  induction l as [|c l IH]; cbn [foldr].
  - rewrite decide_False; [done|]. apply not_elem_of_nil.
  - rewrite parent_detach, IH.
    destruct (decide (x = c)) as [->|Hne].
    + rewrite decide_True; [done|]. apply elem_of_cons; auto.
    + destruct (decide (x ∈ l)).
      * rewrite decide_True; [done|]. apply elem_of_cons; auto.
      * rewrite decide_False; [done|]. rewrite elem_of_cons. tauto.
Qed.

Lemma is_document_detach c s x : is_document (detach c s) x = is_document s x.
Proof. by apply is_document_alter. Qed.
Lemma is_element_detach c s x : is_element (detach c s) x = is_element s x.
Proof. by apply is_element_alter. Qed.
Lemma text_detach c s x : text (detach c s) x = text s x.
Proof. by apply text_alter. Qed.
Lemma tag_of_detach c s x : tag_of (detach c s) x = tag_of s x.
Proof. by apply tag_of_alter. Qed.
Lemma length_detach c s : length (detach c s) = length s.
Proof. apply length_alter. Qed.

Lemma foldr_detach_frame l s :
  (∀ q, children (foldr detach s l) q = children s q)
  ∧ (∀ x, is_document (foldr detach s l) x = is_document s x)
  ∧ (∀ x, is_element (foldr detach s l) x = is_element s x)
  ∧ (∀ x, text (foldr detach s l) x = text s x)
  ∧ length (foldr detach s l) = length s
  ∧ (∀ x, tag_of (foldr detach s l) x = tag_of s x).
Proof.
  induction l as [|c l (IH1 & IH2 & IH3 & IH4 & IH5 & IH6)]; cbn [foldr]; [done|].
  split; [|split; [|split; [|split; [|split]]]]; intros.
  - by rewrite children_detach.
  - by rewrite is_document_detach.
  - by rewrite is_element_detach.
  - by rewrite text_detach.
  - by rewrite length_detach.
  - by rewrite tag_of_detach.
Qed.

End observers.

Lemma delitem0_dropped s p x rest :
  children s p = x :: rest →
  delitem0 s p = Done (detach x (alter (set_children rest) p s))
  ∧ dropped s (detach x (alter (set_children rest) p s)) p [x] rest
  ∧ (∀ y, text (detach x (alter (set_children rest) p s)) y = text s y).
Proof.
  intros Hc. pose proof (children_Some_lt _ _ _ _ Hc) as Hp.
  split; [by unfold delitem0; rewrite Hc|]. split.
  - split; [done|]. split; [|split; [|split; [|split; [|split]]]]; intros.
    + rewrite children_detach. by apply children_set_children.
    + rewrite parent_detach, parent_alter by done.
      destruct (decide (x0 = x)) as [->|].
      * rewrite decide_True; [done|]. apply list_elem_of_singleton. done.
      * rewrite decide_False; [done|]. by rewrite list_elem_of_singleton.
    + unfold detach. by rewrite !is_document_alter.
    + unfold detach. by rewrite !is_element_alter.
    + unfold detach. by rewrite !length_alter.
    + unfold detach. by rewrite !tag_of_alter.
  - intros y. unfold detach. by rewrite !text_alter.
Qed.

Lemma dropped_trans s s1 s2 p l1 l2 rest :
  dropped s s1 p l1 (l2 ++ rest) → dropped s1 s2 p l2 rest →
  dropped s s2 p (l1 ++ l2) rest.
Proof.
  intros (Hc & Hch & Hpa & Hd & He & Hl & Ht) (Hc' & Hch' & Hpa' & Hd' & He' & Hl' & Ht').
  split; [by rewrite Hc, app_assoc|]. split; [|split; [|split; [|split; [|split]]]]; intros.
  - rewrite Hch'. case_decide; [done|]. rewrite Hch. by rewrite decide_False.
  - rewrite Hpa', Hpa. 
    destruct (decide (x ∈ l2)).
    + rewrite decide_True; [done|]. apply elem_of_app; auto.
    + destruct (decide (x ∈ l1)).
      * rewrite decide_True; [done|]. apply elem_of_app; auto.
      * rewrite decide_False; [done|]. rewrite elem_of_app. tauto.
  - by rewrite Hd', Hd.
  - by rewrite He', He.
  - by rewrite Hl', Hl.
  - by rewrite Ht', Ht.
Qed.

Lemma clear_dropped s e :
  dropped s (clear s e) e (children s e) []
  ∧ text (clear s e) e = None
  ∧ (∀ y, y ≠ e → text (clear s e) y = text s y).
Proof.
  destruct (foldr_detach_frame (children s e) s) as (F1 & F2 & F3 & F4 & F5 & F6).
  unfold clear. split; [|split].
  - split; [by rewrite app_nil_r|]. split; [|split; [|split; [|split; [|split]]]]; intros.
    + unfold children at 1. rewrite list_lookup_alter.
      destruct (decide (e = q)) as [->|].
      * rewrite decide_True by done. by destruct (foldr detach s _ !! q).
      * rewrite decide_False by done. apply F1.
    + rewrite parent_alter by done. apply parent_foldr_detach.
    + rewrite is_document_alter by done. apply F2.
    + rewrite is_element_alter by done. apply F3.
    + by rewrite length_alter.
    + rewrite tag_of_alter by done. apply F6.
  - unfold text. rewrite list_lookup_alter_eq. by destruct (foldr detach s _ !! e).
  - intros y Hy. unfold text at 1. rewrite list_lookup_alter_ne by done. apply F4.
Qed.

Lemma dropped_wf s s' p left rest :
  tree_wf s → dropped s s' p left rest → tree_wf s'.
Proof.
  intros [W1 W2 W3 W4] (Hc & Hch & Hpa & _).
  pose proof (W4 p) as Hnd. rewrite Hc in Hnd.
  apply NoDup_app in Hnd as (_ & Hdisj & Hnd).
  assert (Hleft : ∀ x, x ∈ left → parent s x = Some p).
  { intros x Hx. apply W2. rewrite Hc. apply elem_of_app; auto. }
  split.
  - rewrite Hpa. by case_decide.
  - intros q c. rewrite Hch, Hpa. case_decide as Hq.
    + subst q. intros Hin. rewrite decide_False by (intros ?; by eapply Hdisj).
      apply W2. rewrite Hc. apply elem_of_app; auto.
    + intros Hin. destruct (W2 _ _ Hin) as [Hp Hlt].
      rewrite decide_False; [done|]. intros Hx. apply Hleft in Hx. congruence.
  - intros q c. rewrite Hch, Hpa. case_decide as Hx; [done|].
    intros Hp. apply W3 in Hp. case_decide as Hq; [|done]. subst q.
    rewrite Hc in Hp. apply elem_of_app in Hp as [?|?]; done.
  - intros q. rewrite Hch. case_decide; [done|]. apply W4.
Qed.

(** ** The tree: the [while] loop *)

Lemma prev_in_head a r : prev_in a (a :: r) = None.
Proof. simpl. by rewrite Nat.eqb_refl. Qed.

Lemma prev_in_not_elem a l : a ∉ l → prev_in a l = None.
Proof.
  induction l as [|x l IH]; [done|]. intros Hn.
  apply not_elem_of_cons in Hn as [Hne Hn]. cbn [prev_in].
  destruct (Nat.eqb_spec x a); [done|].
  destruct l as [|y l]; [done|].
  apply not_elem_of_cons in Hn as [Hne' Hn'].
  destruct (Nat.eqb_spec y a); [congruence|]. apply IH.
  apply not_elem_of_cons. done.
Qed.

Lemma prev_in_app a left rest :
  a ∉ left →
  prev_in a (left ++ rest) =
  match prev_in a rest with
  | Some x => Some x
  | None => match rest with
            | y :: _ => if y =? a then last left else None
            | [] => None
            end
  end.
Proof.
  induction left as [|x left IH]; intros Hn.
  - simpl. destruct (prev_in a rest) eqn:E; [done|].
    destruct rest as [|y rest]; [done|]. destruct (Nat.eqb_spec y a); [done|done].
  - apply not_elem_of_cons in Hn as [Hne Hn]. specialize (IH Hn).
    cbn [app prev_in]. destruct (Nat.eqb_spec x a); [congruence|].
    destruct (left ++ rest) as [|y l'] eqn:El.
    + apply app_eq_nil in El as [-> ->]. done.
    + destruct (Nat.eqb_spec y a) as [->|Hy].
      * destruct left as [|z left].
        -- simpl in El. subst rest. rewrite prev_in_head. by rewrite Nat.eqb_refl.
        -- injection El as -> _. exfalso. apply Hn. apply elem_of_cons; auto.
      * rewrite IH. destruct (prev_in a rest) eqn:E; [done|].
        destruct rest as [|z rest]; [done|].
        destruct (Nat.eqb_spec z a) as [->|]; [|done].
        destruct left as [|w left]; [simpl in El; congruence|]. done.
Qed.

Lemma prev_in_Some a l x :
  prev_in a l = Some x →
  ∃ left right, l = left ++ (a :: right) ∧ (a ∉ left) ∧ left ≠ [].
Proof.
  induction l as [|y l IH]; [done|]. cbn [prev_in].
  destruct (Nat.eqb_spec y a) as [->|Hy]; [done|].
  destruct l as [|z l]; [done|].
  destruct (Nat.eqb_spec z a) as [->|Hz].
  - intros _. exists [y], l. split; [done|]. split; [|done].
    rewrite list_elem_of_singleton. congruence.
  - intros H. destruct (IH H) as (left & right & El & Hn & Hne).
    exists (y :: left), right. rewrite El. split; [done|]. split; [|done].
    rewrite not_elem_of_cons. split; [congruence|done].
Qed.

Lemma prev_in_middle a left right :
  a ∉ left → left ≠ [] → prev_in a (left ++ a :: right) = last left.
Proof.
  intros Hn Hne. rewrite prev_in_app by done. rewrite prev_in_head.
  by rewrite Nat.eqb_refl.
Qed.

Lemma dropped_refl s p l : children s p = l → dropped s s p [] l.
Proof.
  intros Hc. split; [done|]. split; [|split; [|done]].
  - intros q. destruct (decide (q = p)) as [->|]; done.
  - intros x. rewrite decide_False; [done|]. apply not_elem_of_nil.
Qed.

Lemma getparent_Some s a p :
  getparent s a = Some p ↔ parent s a = Some p ∧ is_document s p = false.
Proof.
  unfold getparent. destruct (parent s a) as [q|].
  - destruct (is_document s q) eqn:E; split.
    + done.
    + intros [[= ->] ?]. congruence.
    + intros [= ->]. done.
    + intros [[= ->] ?]. done.
  - split; [done|]. intros [? _]. done.
Qed.

Lemma while_previous_drops a p right left : ∀ fuel s pr,
  parent s a = Some p → is_document s p = false →
  children s p = left ++ a :: right → a ∉ left → length left ≤ fuel →
  ∃ s', while_previous fuel a (s, pr) = Done (s', pr ++ left)
    ∧ dropped s s' p left (a :: right)
    ∧ (∀ y, text s' y = text s y).
Proof.
  induction left as [|x left IH]; intros fuel s pr Hp Hd Hc Hn Hf.
  - exists s. rewrite app_nil_r. split; [|split; [by apply dropped_refl|done]].
    assert (getprevious s a = None) as Hg.
    { unfold getprevious. rewrite Hp, Hc. apply prev_in_head. }
    destruct fuel; simpl; by rewrite Hg.
  - apply not_elem_of_cons in Hn as [Hne Hn].
    destruct fuel as [|fuel]; [simpl in Hf; lia|]. simpl in Hf.
    assert (∃ y, getprevious s a = Some y) as [y Hg].
    { unfold getprevious. rewrite Hp, Hc.
      rewrite (prev_in_middle a (x :: left) right); [|by apply not_elem_of_cons|done].
      destruct (last (x :: left)) eqn:E; [eauto|]. by apply last_None in E. }
    assert (getparent s a = Some p) as Hgp by (by apply getparent_Some).
    change ((x :: left) ++ a :: right) with (x :: (left ++ a :: right)) in Hc.
    destruct (delitem0_dropped s p x _ Hc) as (Hdel & Hdrop & Htext).
    set (s1 := detach x (alter (set_children (left ++ a :: right)) p s)) in *.
    destruct Hdrop as (_ & Hch & Hpa & Hdoc & Hel & Hlen).
    destruct (IH fuel s1 (pr ++ [x])) as (s' & Hw & Hdrop' & Htext'); [| | | |lia|].
    + rewrite Hpa, decide_False; [done|]. rewrite list_elem_of_singleton. congruence.
    + by rewrite Hdoc.
    + rewrite Hch. by rewrite decide_True.
    + done.
    + exists s'. split; [|split].
      * cbn [while_previous]. cbn [fst snd]. rewrite Hg, Hgp, Hdel, Hc.
        change (take 1 (x :: left ++ a :: right)) with [x].
        rewrite Hw. by rewrite <- app_assoc.
      * change (x :: left) with ([x] ++ left). eapply dropped_trans; [|done].
        split; [done|]. done.
      * intros z. by rewrite Htext', Htext.
Qed.

Lemma while_previous_spec s pr a :
  (getprevious s a = None ∧ while_previous (sibling_count s a) a (s, pr) = Done (s, pr))
  ∨ (getprevious s a ≠ None ∧ getparent s a = None
     ∧ while_previous (sibling_count s a) a (s, pr) = Raised NoneType_error (s, pr))
  ∨ (∃ p left right s',
       getprevious s a ≠ None ∧ getparent s a = Some p
       ∧ left ≠ [] ∧ (a ∉ left)
       ∧ while_previous (sibling_count s a) a (s, pr) = Done (s', pr ++ left)
       ∧ dropped s s' p left (a :: right)
       ∧ (∀ y, text s' y = text s y)).
Proof.
  destruct (getprevious s a) as [y|] eqn:Hg.
  - right. pose proof Hg as Hg'. unfold getprevious in Hg'.
    destruct (parent s a) as [p|] eqn:Hp; [|done].
    apply prev_in_Some in Hg' as (left & right & Hc & Hn & Hne).
    destruct (getparent s a) as [p'|] eqn:Hgp.
    + right. apply getparent_Some in Hgp as [Hp' Hd].
      assert (p' = p) as -> by congruence.
      destruct (while_previous_drops a p right left (sibling_count s a) s pr)
        as (s' & Hw & Hdrop & Htext); try done.
      { unfold sibling_count. rewrite Hp, Hc, length_app. lia. }
      exists p, left, right, s'. done.
    + left. split; [done|]. split; [done|].
      unfold sibling_count. rewrite Hp, Hc.
      destruct left as [|x left]; [done|]. cbn [app length while_previous fst].
      by rewrite Hg, Hgp.
  - left. split; [done|]. destruct (sibling_count s a); simpl; by rewrite Hg.
Qed.

(** ** The tree: invariant of the walk *)

Lemma parent_Some_lt s x p : parent s x = Some p → x < length s.
Proof.
  unfold parent. destruct (s !! x) eqn:E; [|done]. intros _.
  by apply lookup_lt_Some in E.
Qed.

Lemma children_lt s p c : tree_wf s → c ∈ children s p → p < c ∧ c < length s.
Proof.
  intros W Hc. destruct (wf_child s W p c Hc) as [Hp Hlt].
  split; [done|]. by apply parent_Some_lt in Hp.
Qed.

Lemma last_elem_of {A} (l : list A) x : last l = Some x → x ∈ l.
Proof.
  rewrite last_lookup. apply list_elem_of_lookup_2.
Qed.

Lemma chain_lt s x rest : tree_wf s → chain s (x :: rest) → ∀ z, z ∈ rest → z < x.
Proof.
  intros W. revert x. induction rest as [|y rest IH]; intros x Hch z Hz.
  - by apply elem_of_nil in Hz.
  - destruct Hch as [Hl Hch]. apply last_elem_of in Hl.
    apply (children_lt s y x W) in Hl as [Hyx _].
    apply elem_of_cons in Hz as [->|Hz]; [done|].
    specialize (IH y Hch z Hz). lia.
Qed.

Lemma chain_top_lt s x rest : tree_wf s → 0 < length s → chain s (x :: rest) → x < length s.
Proof.
  intros W H0 Hch. destruct rest as [|y rest].
  - simpl in Hch. by subst.
  - destruct Hch as [Hl _]. apply last_elem_of in Hl.
    by apply (children_lt s y x W) in Hl as [_ ?].
Qed.

Lemma chain_ext s s' open :
  (∀ y, y ∈ tl open → last (children s' y) = last (children s y)) →
  chain s open → chain s' open.
Proof.
  induction open as [|x rest IH]; [done|]. intros Hext Hch.
  destruct rest as [|y rest]; [done|]. destruct Hch as [Hl Hch].
  split.
  - rewrite Hext; [done|]. simpl. apply elem_of_cons; auto.
  - apply IH; [|done]. intros z Hz. apply Hext. simpl in *.
    apply elem_of_cons. by right.
Qed.

Lemma chain_dropped s s' open p left rest :
  chain s open → dropped s s' p left rest → rest ≠ [] ∨ p ∉ tl open → chain s' open.
Proof.
  intros Hch (Hc & Hchildren & _) Hcond. eapply chain_ext; [|done].
  intros y Hy. rewrite Hchildren. case_decide as Hyp; [|done]. subst y.
  destruct Hcond as [Hne|Hn]; [|done].
  rewrite Hc. rewrite last_app. destruct (last rest) eqn:E; [done|].
  by apply last_None in E.
Qed.

Lemma walk_inv_dropped s s' open pr p left rest :
  walk_inv s open pr → dropped s s' p left rest → rest ≠ [] ∨ p ∉ tl open →
  walk_inv s' open (pr ++ left).
Proof.
  intros (W & H0 & Hch & Hpr) Hd Hcond.
  split; [by eapply dropped_wf|]. 
  pose proof Hd as (Hc & Hchildren & Hpa & _ & _ & Hlen & _).
  split; [by rewrite Hlen|]. split; [by eapply chain_dropped|].
  rewrite Hlen. apply Forall_app. split.
  - eapply Forall_impl; [done|]. intros r (Hr0 & Hrp & Hrl). split; [done|].
    split; [|done]. rewrite Hpa. by case_decide.
  - apply Forall_forall. intros r Hr.
    assert (r ∈ children s p) as Hin by (rewrite Hc; apply elem_of_app; auto).
    apply (children_lt s p r W) in Hin as [Hlt Hrl].
    split; [lia|]. split; [|done]. rewrite Hpa. by rewrite decide_True.
Qed.

(** the loops of [prune] *)
Lemma for_ancestors_inv (P : store → list nat → Prop) :
  (∀ s s' pr p left a right,
     P s pr → dropped s s' p left (a :: right) → P s' (pr ++ left)) →
  ∀ l s pr, P s pr →
    P (state_of (for_ancestors l (s, pr))).1 (state_of (for_ancestors l (s, pr))).2.
Proof.
  intros Hstep l. induction l as [|a l IH]; intros s pr HP; [done|].
  cbn [for_ancestors fst].
  destruct (while_previous_spec s pr a)
    as [[_ ->]|[(_ & _ & ->)|(p & left & right & s' & _ & _ & _ & _ & -> & Hd & _)]].
  - simpl. by apply IH.
  - done.
  - simpl. apply IH. eapply Hstep; done.
Qed.

Lemma prune_inv s open pr e :
  e ∉ open → walk_inv s open pr →
  walk_inv (state_of (prune e (s, pr))).1 open (state_of (prune e (s, pr))).2.
Proof.
  intros He Hinv. unfold prune. cbn [fst snd].
  apply (for_ancestors_inv (fun s pr => walk_inv s open pr)).
  - intros s0 s' pr0 p left a right HP Hd. eapply walk_inv_dropped; [done..|].
    by left.
  - destruct (clear_dropped s e) as (Hd & _). eapply walk_inv_dropped; [done..|].
    right. intros Hin. apply He. destruct open; [done|]. simpl in Hin.
    apply elem_of_cons. by right.
Qed.

Lemma append_child_obs s p k tg txt attrib :
  p < length s →
  (∀ q, children (append_child s p k tg txt attrib) q =
        if decide (q = p) then children s p ++ [length s] else children s q)
  ∧ (∀ x, parent (append_child s p k tg txt attrib) x =
          if decide (x = length s) then Some p else parent s x)
  ∧ length (append_child s p k tg txt attrib) = S (length s).
Proof.
  intros Hp. unfold append_child.
  set (f := fun pn => set_children (n_children pn ++ [length s]) pn).
  set (n := mkNode k tg txt None attrib (Some p) []).
  assert (Hlen : length (alter f p s) = length s) by apply length_alter.
  split; [|split].
  - intros q. unfold children.
    destruct (decide (q < length s)) as [Hq|Hq].
    + rewrite lookup_app_l by lia. rewrite list_lookup_alter.
      destruct (decide (q = p)) as [->|Hne].
      * rewrite decide_True by done.
        destruct (lookup_lt_is_Some_2 s p Hp) as [pn ->]. done.
      * by rewrite decide_False.
    + rewrite decide_False by lia.
      rewrite (lookup_ge_None_2 s q) by lia.
      rewrite lookup_app_r by lia. rewrite Hlen.
      destruct (q - length s) as [|m] eqn:E; done.
  - intros x. unfold parent.
    destruct (decide (x = length s)) as [->|Hne].
    + rewrite lookup_app_r by lia. by rewrite Hlen, Nat.sub_diag.
    + destruct (decide (x < length s)) as [Hx|Hx].
      * rewrite lookup_app_l by lia. rewrite list_lookup_alter.
        case_decide; [subst|done]. by destruct (s !! x).
      * rewrite (lookup_ge_None_2 s x) by lia.
        rewrite lookup_app_r by lia. rewrite Hlen.
        destruct (x - length s) as [|m] eqn:E; [lia|done].
  - rewrite length_app, Hlen. simpl. lia.
Qed.

Lemma walk_inv_ext s s' open pr :
  (∀ q, children s' q = children s q) →
  (∀ x, parent s' x = parent s x) →
  length s' = length s →
  walk_inv s open pr → walk_inv s' open pr.
Proof.
  intros Hc Hp Hl ([W1 W2 W3 W4] & H0 & Hch & Hpr).
  split; [|split; [by rewrite Hl|split]].
  - split.
    + by rewrite Hp.
    + intros p c. rewrite Hc, Hp. apply W2.
    + intros p c. rewrite Hc, Hp. apply W3.
    + intros p. rewrite Hc. apply W4.
  - eapply chain_ext; [|done]. intros y _. by rewrite Hc.
  - eapply Forall_impl; [done|]. intros r. simpl. by rewrite Hp, Hl.
Qed.

Lemma walk_inv_append s top rest pr k tg txt attrib :
  walk_inv s (top :: rest) pr →
  walk_inv (append_child s top k tg txt attrib) (top :: rest) pr
  ∧ walk_inv (append_child s top k tg txt attrib) (length s :: top :: rest) pr.
Proof.
  intros (W & H0 & Hch & Hpr).
  pose proof (chain_top_lt s top rest W H0 Hch) as Htop.
  destruct (append_child_obs s top k tg txt attrib Htop) as (Hc & Hp & Hl).
  set (s' := append_child s top k tg txt attrib) in *.
  assert (W' : tree_wf s').
  { destruct W as [W1 W2 W3 W4]. split.
    - rewrite Hp. rewrite decide_False by lia. done.
    - intros p c. rewrite Hc, Hp. case_decide as Hq.
      + subst p. intros Hin. apply elem_of_app in Hin as [Hin|Hin].
        * destruct (W2 _ _ Hin) as [Hpc Hlt].
          pose proof (parent_Some_lt _ _ _ Hpc). by rewrite decide_False by lia.
        * apply list_elem_of_singleton in Hin. subst c.
          by rewrite decide_True.
      + intros Hin. destruct (W2 _ _ Hin) as [Hpc Hlt].
        pose proof (parent_Some_lt _ _ _ Hpc). by rewrite decide_False by lia.
    - intros p c. rewrite Hc, Hp. case_decide as Hcn.
      + intros [= <-]. rewrite decide_True by done. subst c.
        apply elem_of_app. right. by apply list_elem_of_singleton.
      + intros Hpc. apply W3 in Hpc. case_decide; [|done]. subst p.
        apply elem_of_app. by left.
    - intros p. rewrite Hc. case_decide; [|apply W4]. subst p.
      apply NoDup_app. split; [apply W4|]. split; [|apply NoDup_singleton].
      intros x Hin Hx. apply list_elem_of_singleton in Hx. subst x.
      destruct (W2 _ _ Hin) as [Hpc _]. apply parent_Some_lt in Hpc. lia. }
  assert (Hch' : chain s' (top :: rest)).
  { eapply chain_ext; [|done]. intros y Hy. simpl in Hy.
    pose proof (chain_lt s top rest W Hch y Hy).
    rewrite Hc. by rewrite decide_False by lia. }
  assert (Hpr' : Forall (fun r => r ≠ 0 ∧ parent s' r = None ∧ r < length s') pr).
  { eapply Forall_impl; [done|]. intros r (Hr0 & Hrp & Hrl). simpl.
    rewrite Hp, Hl. rewrite decide_False by lia. split; [done|]. split; [done|lia]. }
  split.
  - split; [done|]. split; [lia|]. done.
  - split; [done|]. split; [lia|]. split; [|done].
    split; [|done]. rewrite Hc. rewrite decide_True by done. apply last_snoc.
Qed.

Lemma sax_step_inv tg s open pr t s' open' evs :
  walk_inv s open pr →
  sax_step tg s open t = SaxOk s' open' evs →
  walk_inv s' open' pr ∧ ∀ e, End e ∈ evs → e ∉ open'.
Proof.
  intros Hinv. unfold sax_step.
  destruct open as [|top rest]; [done|].
  destruct t as [tag nsdecl attrib| |x|x|target data|msg].
  - destruct (match rest with [] => _ | _ => _ end); [done|].
    intros [= <- <- <-]. split; [by apply walk_inv_append|].
    intros e He. apply list_elem_of_fmap in He as ([p u] & Heq & _). done.
  - destruct rest as [|y rest]; [done|]. intros [= <- <- <-].
    destruct Hinv as (W & H0 & Hch & Hpr). split.
    + split; [done|]. split; [done|]. split; [|done]. by destruct Hch.
    + intros e He. destruct (tag_matches _ _); [|by apply elem_of_nil in He].
      apply list_elem_of_singleton in He. injection He as ->.
      intros Hin. pose proof (chain_lt s top (y :: rest) W Hch top Hin). lia.
  - destruct rest as [|y rest]; [done|].
    destruct (last (children s top)) as [c|]; intros [= <- <- <-].
    + split; [|intros e He; by apply elem_of_nil in He].
      eapply walk_inv_ext; [| | |done]; intros.
      * by apply children_alter.
      * by apply parent_alter.
      * apply length_alter.
    + split; [|intros e He; by apply elem_of_nil in He].
      eapply walk_inv_ext; [| | |done]; intros.
      * by apply children_alter.
      * by apply parent_alter.
      * apply length_alter.
  - intros [= <- <- <-]. split; [by apply walk_inv_append|].
    intros e He. by apply elem_of_nil in He.
  - intros [= <- <- <-]. split; [by apply walk_inv_append|].
    intros e He. by apply elem_of_nil in He.
  - done.
Qed.

Lemma body_open sf ns ev st : st_open (state_of (body sf ns ev st)) = st_open st.
Proof.
  destruct ev as [p u|e]; simpl; [done|].
  destruct (python_callable sf _ _ _ _ _ _); [|done].
  by destruct (prune e _).
Qed.

Lemma body_inv sf ns ev st :
  state_inv st → (∀ e, ev = End e → e ∉ st_open st) →
  state_inv (state_of (body sf ns ev st)).
Proof.
  intros Hinv Hev. destruct ev as [p u|e]; simpl; [done|].
  destruct (python_callable sf _ _ _ _ _ _) as [w|x w]; [|done].
  pose proof (prune_inv (st_tree st) (st_open st) (st_pruned st) e (Hev e eq_refl) Hinv) as H.
  by destruct (prune e _).
Qed.



Lemma initial_state_inv h w : state_inv (initial_state h w).
Proof.
  split; [|split; [simpl; lia|split; [done|by apply Forall_nil]]].
  split.
  - done.
  - intros p c Hc. unfold children, initial_state, empty_tree in Hc. simpl in Hc.
    destruct p as [|[|p]]; simpl in Hc; by apply elem_of_nil in Hc.
  - intros p c. unfold parent. simpl. destruct c as [|[|c]]; done.
  - intros p. unfold children. simpl. destruct p as [|[|p]]; simpl; apply NoDup_nil_2.
Qed.

(** reachability *)
Lemma chain_reachable s open : chain s open → ∀ x, x ∈ open → reachable s x.
Proof.
  induction open as [|x rest IH]; [done|]. intros Hch z Hz.
  destruct rest as [|y rest].
  - simpl in Hch. subst x. apply list_elem_of_singleton in Hz. subst z. apply rtc_refl.
  - destruct Hch as [Hl Hch]. apply elem_of_cons in Hz as [->|Hz]; [|by apply IH].
    eapply rtc_r; [apply IH; [done|apply elem_of_cons; auto]|].
    by apply last_elem_of.
Qed.




(** ** The tree: what pruning leaves *)

Lemma ancestors_up_sound fuel : ∀ s x a,
  a ∈ ancestors_up fuel s x → rtc (par s) x a ∧ is_element s a = true.
Proof.
  induction fuel as [|fuel IH]; intros s x a; simpl; [by intros ?%elem_of_nil|].
  destruct (s !! x) as [n|] eqn:E; [|by intros ?%elem_of_nil].
  assert (Hup : a ∈ match n_parent n with
                    | Some p => ancestors_up fuel s p
                    | None => []
                    end → rtc (par s) x a ∧ is_element s a = true).
  { destruct (n_parent n) as [p|] eqn:Ep; [|by intros ?%elem_of_nil].
    intros Ha. destruct (IH _ _ _ Ha) as [Hr He]. split; [|done].
    eapply rtc_l; [|done]. unfold par, parent. by rewrite E. }
  destruct (n_kind n) eqn:Ek; [by intros ?%elem_of_nil| |done|done].
  intros [->|Ha]%elem_of_cons; [|by apply Hup].
  split; [apply rtc_refl|]. unfold is_element. by rewrite E, Ek.
Qed.

Lemma par_le s x y : tree_wf s → rtc (par s) x y → y ≤ x.
Proof.
  intros W H. induction H as [|x y z Hxy _ IH]; [done|].
  apply (wf_parent s W) in Hxy. apply (wf_child s W) in Hxy as [_ ?]. lia.
Qed.

Lemma par_linear s e a b :
  rtc (par s) e a → rtc (par s) e b → rtc (par s) a b ∨ rtc (par s) b a.
Proof.
  intros Ha. revert b. induction Ha as [|e y a Hey Hya IH]; intros b Hb; [by left|].
  apply rtc_inv in Hb as [<-|(y' & Hey' & Hy'b)].
  - right. by eapply rtc_l.
  - unfold par in *. assert (y' = y) as -> by congruence. by apply IH.
Qed.

Lemma no_sibling_ancestors s e a b p :
  tree_wf s → rtc (par s) e a → rtc (par s) e b →
  parent s a = Some p → parent s b = Some p → a = b.
Proof.
  intros W Ha Hb Hpa Hpb.
  assert (Hlt : ∀ x, parent s x = Some p → p < x).
  { intros x Hx. apply (wf_parent s W) in Hx. by apply (wf_child s W) in Hx as [_ ?]. }
  destruct (par_linear s e a b Ha Hb) as [H|H].
  - apply rtc_inv in H as [?|(y & Hy & Hyb)]; [done|].
    unfold par in Hy. assert (y = p) as -> by congruence.
    apply (par_le s p b W) in Hyb. apply Hlt in Hpb. lia.
  - apply rtc_inv in H as [?|(y & Hy & Hya)]; [done|].
    unfold par in Hy. assert (y = p) as -> by congruence.
    apply (par_le s p a W) in Hya. apply Hlt in Hpa. lia.
Qed.

Lemma getprevious_dropped s s' p left rest b x :
  dropped s s' p left rest → getprevious s' b = Some x →
  getprevious s b = Some x ∧ parent s' b = parent s b.
Proof.
  intros (Hc & Hch & Hpa & _) Hg. unfold getprevious in *.
  rewrite Hpa in *. destruct (decide (b ∈ left)) as [|Hb]; [done|].
  split; [|done]. destruct (parent s b) as [q|]; [|done].
  rewrite Hch in Hg. case_decide; [|done]. subst q.
  rewrite Hc, prev_in_app by done. by rewrite Hg.
Qed.

Lemma getprevious_dropped_None s s' p left rest b :
  dropped s s' p left rest → getprevious s b = None → getprevious s' b = None.
Proof.
  intros Hd Hg. destruct (getprevious s' b) as [x|] eqn:E; [|done].
  apply (getprevious_dropped _ _ _ _ _ _ _ Hd) in E as [E _]. congruence.
Qed.

Lemma root_first_dropped s s' p left rest :
  root_first s → dropped s s' p left rest → root_first s'.
Proof.
  intros Hrf Hd a He Hg.
  destruct (getprevious s' a) as [x|] eqn:E; [|done].
  destruct (getprevious_dropped _ _ _ _ _ _ _ Hd E) as [Hg' Hp].
  destruct Hd as (_ & _ & _ & Hdoc & Hel & _).
  rewrite Hel in He. specialize (Hrf a He). rewrite Hg' in Hrf.
  unfold getparent in *. rewrite Hp. destruct (parent s a) as [q|]; [|by apply Hrf].
  rewrite Hdoc. by apply Hrf.
Qed.

Lemma prev_in_None_head a l : prev_in a l = None → a ∈ l → head l = Some a.
Proof.
  intros Hp Hin. apply list_elem_of_split_l in Hin as (left & right & -> & Hn).
  destruct left as [|x left]; [done|].
  rewrite prev_in_middle in Hp by done. by apply last_None in Hp.
Qed.

Lemma pruning_step s1 e s s' p left a right :
  tree_wf s1 → rtc (par s1) e a →
  pruning s1 e s → parent s a = Some p → (a ∉ left) →
  dropped s s' p left (a :: right) → (∀ y, text s' y = text s y) →
  pruning s1 e s'.
Proof.
  intros W1 Ha (W & Hrf & Hel & Hpar & Hsuf & Hhead & Hce & Hte) Hp Hal Hd Htext.
  pose proof Hd as (Hc & Hch & Hpa & _ & Hel' & _).
  assert (Hp1 : parent s1 a = Some p) by (by rewrite <- Hpar).
  assert (Hleft : ∀ b, b ∈ left → rtc (par s1) e b → False).
  { intros b Hb Hab.
    assert (b ∈ children s p) as Hin by (rewrite Hc; apply elem_of_app; auto).
    apply (wf_child s W) in Hin as [Hpb _]. rewrite Hpar in Hpb by done.
    assert (a = b) by (exact (no_sibling_ancestors s1 e a b p W1 Ha Hab Hp1 Hpb)).
    by subst. }
  split; [by eapply dropped_wf|]. split; [by eapply root_first_dropped|].
  split; [by intros x; rewrite Hel'|]. split; [|split; [|split; [|split]]].
  - intros b Hb. rewrite Hpa. case_decide; [by exfalso; eapply Hleft|]. by apply Hpar.
  - intros q. rewrite Hch. case_decide as Hq; [|apply Hsuf]. subst q.
    destruct (Hsuf p) as [l Hl]. exists (l ++ left). rewrite Hl, Hc.
    by rewrite app_assoc.
  - intros b q Hb Hbq. rewrite Hch. case_decide as Hq.
    + left. subst q. simpl. f_equal.
      exact (no_sibling_ancestors s1 e a b p W1 Ha Hb Hp1 Hbq).
    + by apply Hhead.
  - rewrite Hch. case_decide as Hq; [|done]. subst p.
    rewrite Hce in Hc. by destruct left.
  - by rewrite Htext.
Qed.

Lemma for_ancestors_prunes s1 e : tree_wf s1 → ∀ l s pr,
  (∀ a, a ∈ l → rtc (par s1) e a ∧ is_element s1 a = true) →
  pruning s1 e s →
  ∃ s' pr', for_ancestors l (s, pr) = Done (s', pr')
    ∧ pruning s1 e s'
    ∧ (∀ b, getprevious s b = None → getprevious s' b = None)
    ∧ (∀ a, a ∈ l → getprevious s' a = None).
Proof.
  intros W1 l. induction l as [|a l IH]; intros s pr Hl Hinv.
  - exists s, pr. split; [done|]. split; [done|]. split; [done|].
    intros a Ha. by apply elem_of_nil in Ha.
  - destruct (Hl a) as [Ha Hae]; [apply elem_of_cons; auto|].
    assert (Hl' : ∀ b, b ∈ l → rtc (par s1) e b ∧ is_element s1 b = true).
    { intros b Hb. apply Hl. apply elem_of_cons; auto. }
    cbn [for_ancestors fst].
    destruct (while_previous_spec s pr a)
      as [[Hg ->]|[(Hg & Hgp & _)|(p & left & right & s' & Hg & Hgp & _ & Hal & -> & Hd & Htext)]].
    + simpl. destruct (IH s pr Hl' Hinv) as (s' & pr' & Hfor & Hinv' & Hkeep & Hnone).
      exists s', pr'. split; [done|]. split; [done|]. split; [done|].
      intros b [->|Hb]%elem_of_cons; [by apply Hkeep|by apply Hnone].
    + exfalso. destruct Hinv as (_ & Hrf & Hel & _).
      apply (Hrf a); [by rewrite Hel|done|done].
    + simpl. apply getparent_Some in Hgp as [Hp Hdoc].
      assert (Hinv' : pruning s1 e s') by (by eapply pruning_step).
      destruct (IH s' (pr ++ left) Hl' Hinv') as (s'' & pr' & Hfor & Hinv'' & Hkeep & Hnone).
      exists s'', pr'. split; [done|]. split; [done|]. split.
      * intros b Hb. apply Hkeep. by eapply getprevious_dropped_None.
      * intros b [->|Hb]%elem_of_cons; [|by apply Hnone].
        apply Hkeep. destruct Hd as (_ & Hch & Hpa & _).
        unfold getprevious. rewrite Hpa. rewrite decide_False by done. rewrite Hp.
        rewrite Hch. rewrite decide_True by done. apply prev_in_head.
Qed.


(** ** Whole documents *)

Lemma obind_assoc {S} (o : outcome S) k1 k2 :
  obind (obind o k1) k2 = obind o (fun s => obind (k1 s) k2).
Proof. by destruct o. Qed.

Lemma run_tokens_app sf ns t1 t2 st :
  run_tokens sf ns (t1 ++ t2) st = obind (run_tokens sf ns t1 st) (run_tokens sf ns t2).
Proof.
  revert st. induction t1 as [|t t1 IH]; intros st; [done|].
  simpl. destruct (sax_step _ _ _ t) as [s' open' evs|msg]; [|done].
  rewrite obind_assoc. destruct (run_events sf ns evs _); simpl; [apply IH|done].
Qed.

Lemma calls_snoc_ns st h p u :
  calls (mkState (st_tree st) (st_open st) h (st_os st) (st_log st ++ [LNs p u]) (st_pruned st))
  = calls st.
Proof. unfold calls. simpl. rewrite omap_app. simpl. by rewrite app_nil_r. Qed.

Lemma run_events_start_ns sf ns nsdecl : ∀ st,
  ∃ st', run_events sf ns (map (fun '(p, u) => StartNs p u) nsdecl) st = Done st'
    ∧ st_tree st' = st_tree st ∧ st_open st' = st_open st
    ∧ st_pruned st' = st_pruned st ∧ calls st' = calls st.
Proof.
  induction nsdecl as [|[p u] nsdecl IH]; intros st; [by exists st|].
  simpl. destruct (IH (mkState (st_tree st) (st_open st)
                         (alter (observe p u) ns (st_heap st)) (st_os st)
                         (st_log st ++ [LNs p u]) (st_pruned st)))
    as (st' & -> & Ht & Ho & Hp & Hc).
  exists st'. split; [done|]. simpl in *. rewrite Hc. by rewrite calls_snoc_ns.
Qed.

Lemma prev_in_snoc a n l : a ≠ n → prev_in a (l ++ [n]) = prev_in a l.
Proof.
  intros Hne. induction l as [|x l IH].
  - simpl. destruct (Nat.eqb_spec n a); done.
  - cbn [app prev_in]. destruct (Nat.eqb_spec x a); [done|].
    destruct l as [|y l].
    + simpl. destruct (Nat.eqb_spec n a); [congruence|done].
    + cbn [app]. destruct (Nat.eqb_spec y a); [done|]. apply IH.
Qed.

Lemma append_child_kind s p k tg txt attrib :
  (∀ x, x ≠ length s →
     is_document (append_child s p k tg txt attrib) x = is_document s x
     ∧ is_element (append_child s p k tg txt attrib) x = is_element s x
     ∧ tag_of (append_child s p k tg txt attrib) x = tag_of s x)
  ∧ is_document (append_child s p k tg txt attrib) (length s)
    = match k with KDocument => true | _ => false end
  ∧ is_element (append_child s p k tg txt attrib) (length s)
    = match k with KElement => true | _ => false end
  ∧ tag_of (append_child s p k tg txt attrib) (length s) = tg.
Proof.
  unfold append_child.
  set (f := fun pn => set_children (n_children pn ++ [length s]) pn).
  assert (Hlen : length (alter f p s) = length s) by apply length_alter.
  assert (Hnew : ∀ n, (alter f p s ++ [n]) !! length s = Some n).
  { intros n. rewrite lookup_app_r by lia. by rewrite Hlen, Nat.sub_diag. }
  split; [|unfold is_document, is_element, tag_of; by rewrite !Hnew].
  intros x Hx. unfold is_document, is_element, tag_of.
  destruct (decide (x < length s)) as [Hlt|Hge].
  - rewrite lookup_app_l by lia. rewrite list_lookup_alter.
    case_decide; [subst|done]. by destruct (s !! x).
  - rewrite (lookup_ge_None_2 s x) by lia. rewrite lookup_app_r by lia.
    rewrite Hlen. destruct (x - length s) as [|m] eqn:E; [lia|done].
Qed.

Lemma children_nonempty_lt s q c : c ∈ children s q → q < length s.
Proof.
  unfold children. destruct (s !! q) eqn:E; [|by intros ?%elem_of_nil].
  intros _. by apply lookup_lt_Some in E.
Qed.

Lemma root_first_append s top k tg txt attrib :
  tree_wf s → top < length s → root_first s →
  (k ≠ KElement ∨ is_document s top = false ∨ children s top = []) →
  root_first (append_child s top k tg txt attrib).
Proof.
  intros W Htop Hrf Hcond.
  destruct (append_child_obs s top k tg txt attrib Htop) as (Hc & Hp & Hl).
  destruct (append_child_kind s top k tg txt attrib) as (Hold & _ & Hnewel & _).
  set (s' := append_child s top k tg txt attrib) in *.
  intros a Hel Hg.
  destruct (decide (a = length s)) as [->|Hne].
  - unfold getparent. rewrite Hp, decide_True by done.
    destruct (Hold top) as (Hd & _); [lia|]. rewrite Hd.
    destruct Hcond as [Hk|[Hdoc|Hnil]].
    + rewrite Hnewel in Hel. by destruct k.
    + by rewrite Hdoc.
    + exfalso. apply Hg. unfold getprevious. rewrite Hp, decide_True by done.
      rewrite Hc, decide_True by done. rewrite Hnil. simpl. by rewrite Nat.eqb_refl.
  - destruct (Hold a Hne) as (_ & He & _). rewrite He in Hel.
    assert (Hpa : parent s' a = parent s a) by (by rewrite Hp, decide_False).
    assert (Hga : getprevious s' a = getprevious s a).
    { unfold getprevious. rewrite Hpa. destruct (parent s a) as [q|]; [|done].
      rewrite Hc. case_decide; [|done]. subst q. by apply prev_in_snoc. }
    rewrite Hga in Hg. specialize (Hrf a Hel Hg).
    unfold getparent in *. rewrite Hpa. destruct (parent s a) as [q|] eqn:Eq; [|done].
    apply (wf_parent s W) in Eq. apply children_nonempty_lt in Eq.
    destruct (Hold q) as (Hd & _); [lia|]. by rewrite Hd.
Qed.

Lemma walking_append st top rest k tg txt attrib :
  st_open st = top :: rest → walking st →
  k ≠ KDocument →
  (k ≠ KElement ∨ is_document (st_tree st) top = false ∨ children (st_tree st) top = []) →
  walking (mkState (append_child (st_tree st) top k tg txt attrib) (top :: rest)
             (st_heap st) (st_os st) (st_log st) (st_pruned st))
  ∧ walking (mkState (append_child (st_tree st) top k tg txt attrib)
               (length (st_tree st) :: top :: rest)
               (st_heap st) (st_os st) (st_log st) (st_pruned st)).
Proof.
  intros Ho (Hinv & Hrf & Hdoc) Hk Hcond. unfold state_inv in Hinv. rewrite Ho in Hinv.
  destruct (walk_inv_append _ _ _ _ k tg txt attrib Hinv) as [H1 H2].
  pose proof Hinv as (W & H0 & Hch & _).
  pose proof (chain_top_lt _ _ _ W H0 Hch) as Htop.
  assert (Hrf' : root_first (append_child (st_tree st) top k tg txt attrib))
    by (by apply root_first_append).
  assert (Hdoc' : ∀ x, is_document (append_child (st_tree st) top k tg txt attrib) x = true
                       → x = 0).
  { destruct (append_child_kind (st_tree st) top k tg txt attrib) as (Hold & Hnd & _).
    intros x Hx. destruct (decide (x = length (st_tree st))) as [->|Hne].
    - rewrite Hnd in Hx. by destruct k.
    - destruct (Hold x Hne) as (Hd & _). rewrite Hd in Hx. by apply Hdoc. }
  split; (split; [done|split; done]).
Qed.

Lemma prune_frame e s pr :
  (∀ x, is_document (state_of (prune e (s, pr))).1 x = is_document s x)
  ∧ (∀ x, tag_of (state_of (prune e (s, pr))).1 x = tag_of s x)
  ∧ length (state_of (prune e (s, pr))).1 = length s.
Proof.
  unfold prune. cbn [fst snd].
  apply (for_ancestors_inv (fun s' _ =>
           (∀ x, is_document s' x = is_document s x)
           ∧ (∀ x, tag_of s' x = tag_of s x) ∧ length s' = length s)).
  - intros s0 s' pr0 p left a right (H1 & H2 & H3) (_ & _ & _ & Hd & _ & Hl & Ht).
    split; [|split].
    + intros x. by rewrite Hd.
    + intros x. by rewrite Ht.
    + by rewrite Hl.
  - destruct (clear_dropped s e) as ((_ & _ & _ & Hd & _ & Hl & Ht) & _). done.
Qed.

Lemma prune_done e s pr :
  tree_wf s → root_first s →
  ∃ s' pr', prune e (s, pr) = Done (s', pr') ∧ root_first s'.
Proof.
  intros W Hrf.
  destruct (clear_dropped s e) as (Hd & Hte & _).
  assert (W1 : tree_wf (clear s e)) by (by eapply dropped_wf).
  pose proof Hd as (_ & Hch & _).
  assert (Hinv : pruning (clear s e) e (clear s e)).
  { split; [done|]. split; [by eapply root_first_dropped|]. split; [done|].
    split; [done|]. split; [by intros q; exists []|]. split; [by right|].
    split; [|done]. rewrite Hch. by rewrite decide_True. }
  destruct (for_ancestors_prunes (clear s e) e W1
              (xpath_ancestor_or_self (clear s e) e) (clear s e) (pr ++ children s e))
    as (s' & pr' & Hfor & (_ & Hrf' & _) & _).
  - intros a Ha. unfold xpath_ancestor_or_self in Ha.
    apply list_elem_of_In, in_rev in Ha. apply list_elem_of_In in Ha.
    exact (ancestors_up_sound _ _ _ _ Ha).
  - done.
  - exists s', pr'. done.
Qed.

Lemma body_end_walking sf ns e st :
  handler_total (python_callable sf) → walking st → (e ∉ st_open st) →
  ∃ st', body sf ns (End e) st = Done st'
    ∧ st_open st' = st_open st ∧ walking st'
    ∧ map c_element (calls st') = map c_element (calls st) ++ [e]
    ∧ length (st_tree st') = length (st_tree st)
    ∧ (∀ x, tag_of (st_tree st') x = tag_of (st_tree st) x).
Proof.
  intros Htot (Hinv & Hrf & Hdoc) He.
  pose proof (body_inv sf ns (End e) st Hinv) as Hbi.
  cbn [body] in *.
  set (h := if dict_truthy _ then _ else _) in *.
  destruct (Htot (st_tree st) h e (callable_args sf) (deref h (callable_kwargs sf)) (st_os st))
    as [w Hw].
  rewrite Hw in *.
  pose proof Hinv as (W & _).
  destruct (prune_done e (st_tree st) (st_pruned st) W Hrf) as (s' & pr' & Hpr & Hrf').
  destruct (prune_frame e (st_tree st) (st_pruned st)) as (Hd & Ht & Hl).
  rewrite Hpr in *. simpl in *.
  eexists. split; [done|]. simpl. split; [done|]. split; [|split; [|split; [done|done]]].
  - split; [|split; [done|]].
    + apply Hbi. intros e' [= <-]. done.
    + intros x. rewrite Hd. apply Hdoc.
  - unfold calls. simpl. rewrite omap_app, map_app. done.
Qed.

Lemma content_induction (P : content → Prop) :
  (∀ tg nsdecl attrib body, Forall P body → P (CElem tg nsdecl attrib body)) →
  (∀ x, P (CText x)) →
  (∀ x, P (CComment x)) →
  (∀ target data, P (CPI target data)) →
  ∀ c, P c.
Proof.
  intros HElem HText HComment HPI. fix IH 1.
  intros [tg nsdecl attrib body|x|x|target data].
  - apply HElem. induction body as [|c body IHbody].
    + apply List.Forall_nil.
    + apply List.Forall_cons; [apply IH|exact IHbody].
  - apply HText.
  - apply HComment.
  - apply HPI.
Qed.

Lemma end_order_elem tag next tg nsdecl attrib body :
  end_order tag next (CElem tg nsdecl attrib body)
  = ((end_order_list tag (S next) body).1 ++ (if tag_matches tag tg then [next] else []),
     (end_order_list tag (S next) body).2).
Proof.
  cbn [end_order].
  match goal with
  | |- (let '(l, n') := ?go _ _ in _) = _ =>
      assert (Hgo : ∀ cs n, go n cs = end_order_list tag n cs)
  end.
  { induction cs as [|c cs IH]; intros n; [done|].
    cbn [end_order_list]. destruct (end_order tag n c) as [l1 n1]. by rewrite IH. }
  rewrite Hgo. by destruct (end_order_list tag (S next) body).
Qed.

Lemma walking_fields st st' :
  st_tree st' = st_tree st → st_open st' = st_open st → st_pruned st' = st_pruned st →
  walking st → walking st'.
Proof.
  unfold walking, state_inv. by intros -> -> ->.
Qed.

Lemma root_first_ext s s' :
  (∀ q, children s' q = children s q) →
  (∀ x, parent s' x = parent s x) →
  (∀ x, is_document s' x = is_document s x) →
  (∀ x, is_element s' x = is_element s x) →
  root_first s → root_first s'.
Proof.
  intros Hc Hp Hd He Hrf a. unfold getprevious, getparent.
  rewrite He, Hp. destruct (parent s a) as [q|] eqn:E; [|done].
  rewrite Hc, Hd. specialize (Hrf a). unfold getprevious, getparent in Hrf.
  by rewrite E in Hrf.
Qed.

Section walk.
Context (sf : self) (ns : nat).
Hypothesis Htot : handler_total (python_callable sf).

Lemma walks_text x : walks sf ns (CText x).
Proof.
  intros st top rest Ho Hrest (Hinv & Hrf & Hdoc).
  assert (Hext : ∀ f i, (∀ n, n_children (f n) = n_children n) →
                         (∀ n, n_parent (f n) = n_parent n) →
                         (∀ n, n_kind (f n) = n_kind n) →
                         (∀ n, n_tag (f n) = n_tag n) →
    ∃ st', Done (mkState (alter f i (st_tree st)) (st_open st) (st_heap st) (st_os st)
                   (st_log st) (st_pruned st)) = Done st'
      ∧ st_open st' = st_open st ∧ walking st'
      ∧ map c_element (calls st')
        = map c_element (calls st) ++ (end_order (tag sf) (length (st_tree st)) (CText x)).1
      ∧ length (st_tree st') = (end_order (tag sf) (length (st_tree st)) (CText x)).2
      ∧ length (st_tree st) ≤ length (st_tree st')
      ∧ (∀ y, y < length (st_tree st) → tag_of (st_tree st') y = tag_of (st_tree st) y)).
  { intros f i H1 H2 H3 H4. eexists. split; [done|]. simpl.
    split; [done|]. split; [|split; [by rewrite app_nil_r|]].
    - split; [|split].
      + eapply walk_inv_ext; [| | |exact Hinv]; intros; simpl.
        * by apply children_alter.
        * by apply parent_alter.
        * apply length_alter.
      + simpl. eapply root_first_ext; [| | | |exact Hrf]; intros.
        * by apply children_alter.
        * by apply parent_alter.
        * by apply is_document_alter.
        * by apply is_element_alter.
      + simpl. intros y. rewrite is_document_alter by done. apply Hdoc.
    - rewrite length_alter. split; [done|]. split; [done|].
      intros y _. by apply tag_of_alter. }
  assert (Hrun : ∃ f i,
            ((∀ n, n_children (f n) = n_children n) ∧ (∀ n, n_parent (f n) = n_parent n)
             ∧ (∀ n, n_kind (f n) = n_kind n) ∧ (∀ n, n_tag (f n) = n_tag n))
            ∧ run_tokens sf ns (tokens_of (CText x)) st
              = Done (mkState (alter f i (st_tree st)) (st_open st) (st_heap st) (st_os st)
                        (st_log st) (st_pruned st))).
  { cbn [tokens_of run_tokens]. rewrite Ho. unfold sax_step.
    destruct rest as [|y rest]; [done|].
    destruct (last (children (st_tree st) top)) as [c|].
    - exists (set_tail (Some x)), c. done.
    - exists (set_text (Some x)), top. done. }
  destruct Hrun as (f & i & (H1 & H2 & H3 & H4) & ->). by apply Hext.
Qed.

Lemma walks_misc k tg txt t :
  k ≠ KDocument → k ≠ KElement →
  (∀ tag s top rest, sax_step tag s (top :: rest) t
                     = SaxOk (append_child s top k tg txt []) (top :: rest) []) →
  ∀ st top rest,
    st_open st = top :: rest → walking st →
    ∃ st', run_tokens sf ns [t] st = Done st'
      ∧ st_open st' = st_open st ∧ walking st'
      ∧ calls st' = calls st
      ∧ length (st_tree st') = S (length (st_tree st))
      ∧ (∀ x, x < length (st_tree st) → tag_of (st_tree st') x = tag_of (st_tree st) x).
Proof.
  intros Hk1 Hk2 Hstep st top rest Ho Hw. simpl. rewrite Ho, Hstep. simpl.
  eexists. split; [done|]. simpl. split; [done|].
  destruct (walking_append st top rest k tg txt [] Ho Hw Hk1) as [H1 _]; [by left|].
  split; [done|]. split; [done|].
  pose proof Hw as ((W & H0 & Hch & _) & _). rewrite Ho in Hch.
  pose proof (chain_top_lt _ _ _ W H0 Hch) as Htop.
  destruct (append_child_obs (st_tree st) top k tg txt [] Htop) as (_ & _ & Hl).
  split; [done|]. intros x Hx.
  destruct (append_child_kind (st_tree st) top k tg txt []) as (Hold & _).
  destruct (Hold x) as (_ & _ & Ht); [lia|done].
Qed.

Lemma walks_comment x : walks sf ns (CComment x).
Proof.
  intros st top rest Ho _ Hw.
  destruct (walks_misc KComment EmptyString (Some x) (TComment x)) with (st := st)
    (top := top) (rest := rest) as (st' & Hrun & Ho' & Hw' & Hc & Hl & Ht); try done.
  exists st'. simpl. rewrite Hc, app_nil_r, Hl.
  split; [done|]. split; [done|]. split; [done|]. split; [done|]. split; [done|].
  split; [lia|done].
Qed.

Lemma walks_pi target data : walks sf ns (CPI target data).
Proof.
  intros st top rest Ho _ Hw.
  destruct (walks_misc KPI target (Some data) (TPI target data)) with (st := st)
    (top := top) (rest := rest) as (st' & Hrun & Ho' & Hw' & Hc & Hl & Ht); try done.
  exists st'. simpl. rewrite Hc, app_nil_r, Hl.
  split; [done|]. split; [done|]. split; [done|]. split; [done|]. split; [done|].
  split; [lia|done].
Qed.

Lemma walks_list body :
  Forall (walks sf ns) body →
  ∀ st top rest,
    st_open st = top :: rest → rest ≠ [] → walking st →
    ∃ st', run_tokens sf ns (flat_map tokens_of body) st = Done st'
      ∧ st_open st' = st_open st
      ∧ walking st'
      ∧ map c_element (calls st')
        = map c_element (calls st) ++ (end_order_list (tag sf) (length (st_tree st)) body).1
      ∧ length (st_tree st') = (end_order_list (tag sf) (length (st_tree st)) body).2
      ∧ length (st_tree st) ≤ length (st_tree st')
      ∧ (∀ x, x < length (st_tree st) → tag_of (st_tree st') x = tag_of (st_tree st) x).
Proof.
  induction 1 as [|c body Hc _ IH]; intros st top rest Ho Hrest Hw.
  - exists st. simpl. rewrite app_nil_r. done.
  - destruct (Hc st top rest Ho Hrest Hw) as (st1 & Hrun1 & Ho1 & Hw1 & Hc1 & Hl1 & Hle1 & Ht1).
    rewrite Ho in Ho1.
    destruct (IH st1 top rest Ho1 Hrest Hw1) as (st2 & Hrun2 & Ho2 & Hw2 & Hc2 & Hl2 & Hle2 & Ht2).
    exists st2. cbn [flat_map]. rewrite run_tokens_app, Hrun1. simpl.
    split; [done|]. split; [by rewrite Ho2, Ho1|]. split; [done|].
    cbn [end_order_list].
    destruct (end_order (tag sf) (length (st_tree st)) c) as [l1 n1] eqn:E1.
    simpl in Hl1, Hc1. rewrite Hl1 in *.
    destruct (end_order_list (tag sf) n1 body) as [l2 n2] eqn:E2. simpl in *.
    split; [by rewrite Hc2, Hc1, app_assoc|]. split; [done|]. split; [lia|].
    intros x Hx. rewrite Ht2 by lia. by apply Ht1.
Qed.

Lemma walks_elem tg nsdecl attrib body :
  Forall (walks sf ns) body →
  ∀ st top rest,
    st_open st = top :: rest → walking st →
    (rest = [] → has_root (st_tree st) = false ∧ children (st_tree st) top = []) →
    ∃ st', run_tokens sf ns (tokens_of (CElem tg nsdecl attrib body)) st = Done st'
      ∧ st_open st' = st_open st
      ∧ walking st'
      ∧ map c_element (calls st')
        = map c_element (calls st)
          ++ (end_order (tag sf) (length (st_tree st)) (CElem tg nsdecl attrib body)).1
      ∧ length (st_tree st')
        = (end_order (tag sf) (length (st_tree st)) (CElem tg nsdecl attrib body)).2
      ∧ length (st_tree st) ≤ length (st_tree st')
      ∧ (∀ x, x < length (st_tree st) → tag_of (st_tree st') x = tag_of (st_tree st) x).
Proof.
  intros Hbody st top rest Ho Hw Hroot.
  set (n := length (st_tree st)).
  set (s1 := append_child (st_tree st) top KElement tg None attrib).
  pose proof Hw as (Hinv & Hrf & Hdoc).
  pose proof Hinv as (W & H0 & Hch & _). rewrite Ho in Hch.
  pose proof (chain_top_lt _ _ _ W H0 Hch) as Htop.
  (* the start tag *)
  assert (Hstart : sax_step (tag sf) (st_tree st) (st_open st) (TStart tg nsdecl attrib)
                   = SaxOk s1 (n :: top :: rest) (map (fun '(p, u) => StartNs p u) nsdecl)).
  { rewrite Ho. unfold sax_step.
    destruct rest as [|y rest]; [|done]. destruct Hroot as [-> _]; done. }
  assert (Hcond : KElement ≠ KElement ∨ is_document (st_tree st) top = false
                  ∨ children (st_tree st) top = []).
  { destruct rest as [|y rest]; [right; right; by apply Hroot|].
    right. left. destruct (is_document (st_tree st) top) eqn:E; [|done].
    apply Hdoc in E. subst top.
    pose proof (chain_lt _ _ _ W Hch y). assert (y < 0); [|lia].
    apply H. apply elem_of_cons; auto. }
  destruct (walking_append st top rest KElement tg None attrib Ho Hw) as [_ Hw1]; [done..|].
  fold s1 n in Hw1.
  destruct (run_events_start_ns sf ns nsdecl
              (mkState s1 (n :: top :: rest) (st_heap st) (st_os st) (st_log st) (st_pruned st)))
    as (st2 & Hev & Ht2 & Ho2 & Hp2 & Hc2).
  simpl in Ht2, Ho2, Hp2.
  assert (Hw2 : walking st2) by (by eapply walking_fields; [| | |exact Hw1]).
  (* the content *)
  destruct (walks_list body Hbody st2 n (top :: rest) Ho2) as
    (st3 & Hrun3 & Ho3 & Hw3 & Hc3 & Hl3 & Hle3 & Ht3); [done..|].
  destruct (append_child_obs (st_tree st) top KElement tg None attrib Htop) as (_ & _ & Hl1).
  destruct (append_child_kind (st_tree st) top KElement tg None attrib) as (Hold & _ & _ & Htg).
  fold s1 n in Hl1, Hold, Htg. rewrite Ht2 in *. rewrite Hl1 in *. rewrite Ho2 in Ho3.
  (* the end tag *)
  assert (Hend : sax_step (tag sf) (st_tree st3) (st_open st3) TEnd
                 = SaxOk (st_tree st3) (top :: rest)
                     (if tag_matches (tag sf) tg then [End n] else [])).
  { rewrite Ho3. unfold sax_step. rewrite Ht3 by lia. by rewrite Htg. }
  pose proof Hw3 as (Hinv3 & Hrf3 & Hdoc3).
  destruct (sax_step_inv _ _ _ _ _ _ _ _ Hinv3 Hend) as [Hinv4 Hnot].
  set (st4 := mkState (st_tree st3) (top :: rest) (st_heap st3) (st_os st3) (st_log st3)
                (st_pruned st3)).
  assert (Hw4 : walking st4) by (split; [done|split; done]).
  assert (Hfinal : ∃ st5,
            run_events sf ns (if tag_matches (tag sf) tg then [End n] else []) st4 = Done st5
            ∧ st_open st5 = top :: rest ∧ walking st5
            ∧ map c_element (calls st5)
              = map c_element (calls st3) ++ (if tag_matches (tag sf) tg then [n] else [])
            ∧ length (st_tree st5) = length (st_tree st3)
            ∧ (∀ x, tag_of (st_tree st5) x = tag_of (st_tree st3) x)).
  { destruct (tag_matches (tag sf) tg).
    - destruct (body_end_walking sf ns n st4 Htot Hw4) as (st5 & Hb & Ho5 & Hw5 & Hc5 & Hl5 & Ht5).
      { apply Hnot. apply elem_of_cons; auto. }
      exists st5. cbn [run_events]. rewrite Hb. cbn [obind run_events]. done.
    - exists st4. simpl. rewrite app_nil_r. done. }
  destruct Hfinal as (st5 & Hrun5 & Ho5 & Hw5 & Hc5 & Hl5 & Ht5).
  exists st5. rewrite end_order_elem. fold n. simpl.
  split.
  - cbn [tokens_of run_tokens]. rewrite Hstart, Hev. simpl.
    rewrite run_tokens_app, Hrun3. simpl. rewrite Hend. fold st4. by rewrite Hrun5.
  - split; [by rewrite Ho5, Ho|]. split; [done|].
    split; [by rewrite Hc5, Hc3, Hc2, app_assoc|]. split; [by rewrite Hl5|].
    split; [lia|]. intros x Hx. rewrite Ht5, Ht3 by lia.
    destruct (Hold x) as (_ & _ & ?); [lia|done].
Qed.

Lemma walks_all c : walks sf ns c.
Proof.
  induction c using content_induction.
  - intros st top rest Ho Hrest Hw. apply walks_elem with (top := top) (rest := rest); done.
  - apply walks_text.
  - apply walks_comment.
  - apply walks_pi.
Qed.

Lemma run_epilog ms : ∀ st,
  st_open st ≠ [] →
  ∃ st', run_tokens sf ns (map tokens_of_misc ms) st = Done st' ∧ calls st' = calls st.
Proof.
  induction ms as [|m ms IH]; intros st Ho; [by exists st|].
  destruct (st_open st) as [|top rest] eqn:E; [done|].
  destruct m as [x|target data]; simpl; rewrite E; simpl.
  - destruct (IH (mkState (append_child (st_tree st) top KComment EmptyString (Some x) [])
                    (top :: rest) (st_heap st) (st_os st) (st_log st) (st_pruned st)))
      as (st' & -> & Hc); [done|]. by exists st'.
  - destruct (IH (mkState (append_child (st_tree st) top KPI target (Some data) [])
                    (top :: rest) (st_heap st) (st_os st) (st_log st) (st_pruned st)))
      as (st' & -> & Hc); [done|]. by exists st'.
Qed.

Lemma walking_initial h w : walking (initial_state h w).
Proof.
  split; [apply initial_state_inv|]. split.
  - intros a Ha. unfold is_element in Ha. simpl in Ha. by destruct a as [|[|a]].
  - intros x Hx. unfold is_document in Hx. simpl in Hx. by destruct x as [|[|x]].
Qed.

(** For a document that has nothing in front of its root element, and a
    handler that does not raise, the loop goes through all the tokens and
    has called the handler once on every element that passes the tag
    filter, in the order of the end tags. *)
Lemma dispatch_in_end_order (d : document) (h : heap) (w : os_state) :
  d_prolog d = [] →
  ∃ st', run_tokens sf ns (tokens_of_document d) (initial_state h w) = Done st'
    ∧ map c_element (calls st') = matching_elements (tag sf) d.
Proof.
  intros Hpro. unfold tokens_of_document, matching_elements. rewrite Hpro. cbn [map app length].
  destruct (walks_elem (d_tag d) (d_nsdecl d) (d_attrib d) (d_body d)) with
    (st := initial_state h w) (top := 0) (rest := @nil nat)
    as (st1 & Hrun1 & Ho1 & _ & Hc1 & _).
  - apply Forall_forall. intros c _. apply walks_all.
  - done.
  - apply walking_initial.
  - done.
  - destruct (run_epilog (d_epilog d) st1) as (st2 & Hrun2 & Hc2).
    { by rewrite Ho1. }
    exists st2. rewrite run_tokens_app. fold (d_root d) in Hrun1 |- *.
    rewrite Hrun1. simpl. split; [done|]. rewrite Hc2, Hc1. done.
Qed.

End walk.

(** ** Checks on concrete trees *)



(** ** The sample runs *)

(** C5.  On the two-row table with the filter [r] and the handler
    [convert_to_csv], the run raises [XPathEvalError] in the first call of
    the handler, which is on element 2, the first of the two matching
    elements 2 and 5; the output file is never created. *)
Theorem table_run_raises :
  raised table_run = Some (XPathEvalError "Undefined namespace prefix")
  ∧ map c_element (calls (state_of table_run)) = [2]
  ∧ fs (st_os (state_of table_run)) !! "out.csv" = None
  ∧ matching_elements (Some "r") table = [2; 5].
Proof. vm_compute. done. Qed.

Example ns_table_run_writes_rows :
  raised ns_table_run = None
  ∧ (f_data <$> (match fs (st_os (state_of ns_table_run)) !! "out.csv" with Some (File f) => Some f | _ => None end))
    = Some ("A;B" +:+ String Csv.CR (String Csv.LF ("C;D" +:+ String Csv.CR (String Csv.LF EmptyString)))).
Proof. vm_compute. done. Qed.

(** C1.  On a document with a comment in front of its root element, no
    tag filter and a handler that does nothing, the run raises [TypeError]
    after one call of the handler, on element 3, while three elements
    match: 3, 4 and 2. *)
Theorem comment_before_root_aborts_run :
  raised commented_run = Some (TypeError "'NoneType' object doesn't support item deletion")
  ∧ map c_element (calls (state_of commented_run)) = [3]
  ∧ matching_elements None commented = [3; 4; 2].
Proof. vm_compute. done. Qed.

(** C4, counterexample.  The namespaces handed to the first call on the
    namespaced table do not read at the end of the run as they did during
    the call. *)
Lemma namespaces_not_passed_by_value :
  ¬ (∀ c, c ∈ calls (state_of ns_table_run) →
       namespaces_of c (st_heap (state_of ns_table_run)) = namespaces_of c (c_heap c)).
Proof.
  intros H.
  assert (Hc : ∃ c, head (calls (state_of ns_table_run)) = Some c) by (vm_compute; eauto).
  destruct Hc as [c Hc].
  specialize (H c (head_Some_elem_of _ _ Hc)).
  apply (f_equal (fun o => o ≫= (.!! "q"))) in H.
  revert H. 
  assert (Hc' : calls (state_of ns_table_run) !! 0 = Some c) by (by rewrite <- head_lookup).
  revert Hc'. generalize c. vm_compute. intros c' [= <-]. done.
Qed.



(** ** Instances *)



Lemma handler_sees_namespaces_so_far_witness :
  st_log ns_state0 = []
  ∧ callable_kwargs ns_self < length (st_heap ns_state0)
  ∧ st_log (state_of (fast_iteration ns_self (tokens_of_document ns_table) ns_state0))
    = take 1 ns_log ++ LCall (call_at ns_log 1) :: drop 2 ns_log
  ∧ ns_entries (take 1 ns_log) ≠ []
  ∧ namespaces_of (call_at ns_log 1) (c_heap (call_at ns_log 1))
    = Some (observe_all (ns_entries (take 1 ns_log)) ∅)
  ∧ namespaces_of (call_at ns_log 1)
      (st_heap (state_of (fast_iteration ns_self (tokens_of_document ns_table) ns_state0)))
    = Some (observe_all
              (ns_entries
                 (st_log (state_of (fast_iteration ns_self (tokens_of_document ns_table)
                                      ns_state0)))) ∅).
Proof.
  assert (H1 : st_log ns_state0 = []) by reflexivity.
  assert (H2 : callable_kwargs ns_self < length (st_heap ns_state0)) by (vm_compute; lia).
  assert (H3 : st_log (state_of (fast_iteration ns_self (tokens_of_document ns_table)
                                   ns_state0))
               = take 1 ns_log ++ LCall (call_at ns_log 1) :: drop 2 ns_log)
    by (vm_compute; reflexivity).
  assert (H4 : ns_entries (take 1 ns_log) ≠ []) by (vm_compute; discriminate).
  split; [exact H1|]. split; [exact H2|]. split; [exact H3|]. split; [exact H4|].
  exact (proj2 (handler_sees_namespaces_so_far ns_self (tokens_of_document ns_table)
                  ns_state0 (take 1 ns_log) (drop 2 ns_log) (call_at ns_log 1) H1 H2 H3) H4).
Defined.




(** * Further properties *)

(** ** How a run ends *)

Lemma replay_snoc sf w cs c :
  replay sf w (cs ++ [c]) = state_of (apply_handler sf c (replay sf w cs)).
Proof. unfold replay. by rewrite foldl_app. Qed.

Lemma each_returns_snoc sf w0 cs c :
  each_returns sf w0 cs →
  raised (apply_handler sf c (replay sf w0 cs)) = None →
  each_returns sf w0 (cs ++ [c]).
Proof.
  intros Hcs Hc cs1 c' cs2 Hsplit.
  apply snoc_split in Hsplit as [(_ & -> & ->)|(cs2' & -> & ->)]; [done|].
  by eapply Hcs.
Qed.

Lemma for_ancestors_raises l : ∀ t x t',
  for_ancestors l t = Raised x t' → x = NoneType_error.
Proof.
  induction l as [|a l IH]; intros [s pr] x t'; [done|].
  cbn [for_ancestors fst].
  destruct (while_previous_spec s pr a)
    as [[_ ->]|[(_ & _ & ->)|(p & left & right & s' & _ & _ & _ & _ & -> & _)]]; simpl.
  - apply IH.
  - by intros [= <- _].
  - apply IH.
Qed.

Lemma calls_log st : calls st = log_calls (st_log st).
Proof. done. Qed.

Lemma log_calls_snoc_call l c : log_calls (l ++ [LCall c]) = log_calls l ++ [c].
Proof. unfold log_calls. by rewrite omap_app. Qed.

Lemma log_calls_snoc_ns l p u : log_calls (l ++ [LNs p u]) = log_calls l.
Proof. unfold log_calls. rewrite omap_app. simpl. by rewrite app_nil_r. Qed.

Lemma body_stops sf ns w0 ev st :
  all_returned sf w0 st → stops sf w0 (body sf ns ev st).
Proof.
  intros [Hos Hret]. destruct ev as [p u|e]; cbn [body].
  - split; simpl; rewrite calls_log in *; simpl; by rewrite log_calls_snoc_ns.
  - set (h := if dict_truthy _ then _ else _).
    set (c := mkCall e (callable_args sf) (deref h (callable_kwargs sf)) (st_tree st) h).
    assert (Happ : python_callable sf (st_tree st) h e (callable_args sf)
                     (deref h (callable_kwargs sf)) (st_os st)
                   = apply_handler sf c (replay sf w0 (calls st))) by (by rewrite Hos).
    rewrite Happ.
    destruct (apply_handler sf c (replay sf w0 (calls st))) as [w|x w] eqn:E.
    + assert (Hall : ∀ s' pr',
                all_returned sf w0 (mkState s' (st_open st) h w (st_log st ++ [LCall c]) pr')).
      { intros s' pr'. split; simpl.
        - rewrite calls_log. simpl. rewrite log_calls_snoc_call, replay_snoc.
          rewrite <- calls_log. by rewrite E.
        - rewrite calls_log. simpl. rewrite log_calls_snoc_call.
          apply each_returns_snoc; [done|]. rewrite <- calls_log. by rewrite E. }
      destruct (prune e _) as [t|x t] eqn:Ep; simpl; [apply Hall|].
      left. split; [|apply Hall]. right.
      unfold prune in Ep. by eapply for_ancestors_raises.
    + right. exists (st_log st), c. simpl. split; [done|]. split; [done|].
      split; [|done]. rewrite <- calls_log. done.
Qed.

Lemma run_events_stops sf ns w0 evs : ∀ st,
  all_returned sf w0 st → stops sf w0 (run_events sf ns evs st).
Proof.
  induction evs as [|ev evs IH]; intros st Hst; [done|].
  cbn [run_events]. pose proof (body_stops sf ns w0 ev st Hst) as Hb.
  destruct (body sf ns ev st) as [st1|x st1]; simpl; [by apply IH|done].
Qed.

Lemma run_tokens_stops sf ns w0 toks : ∀ st,
  all_returned sf w0 st → stops sf w0 (run_tokens sf ns toks st).
Proof.
  induction toks as [|t toks IH]; intros st Hst; [done|].
  cbn [run_tokens].
  destruct (sax_step _ _ _ t) as [s' open' evs|msg].
  - pose proof (run_events_stops sf ns w0 evs
                  (mkState s' open' (st_heap st) (st_os st) (st_log st) (st_pruned st)) Hst)
      as He.
    destruct (run_events sf ns evs _) as [st1|x st1]; simpl; [by apply IH|done].
  - left. split; [|done]. left. eauto.
Qed.

Lemma all_returned_initial sf h w : all_returned sf w (initial_state h w).
Proof. split; [done|]. intros cs1 c cs2 H. by destruct cs1. Qed.

(** ** The handler [convert_to_csv] *)

Lemma string_app_assoc (a b c : string) : (a +:+ b) +:+ c = a +:+ (b +:+ c).
Proof.
  induction a as [|x a IH]; [done|].
  change (String x ((a +:+ b) +:+ c) = String x (a +:+ (b +:+ c))). by f_equal.
Qed.

Lemma string_app_nil_r (a : string) : a +:+ EmptyString = a.
Proof.
  induction a as [|x a IH]; [done|].
  change (String x (a +:+ EmptyString) = String x a). by f_equal.
Qed.

Lemma concat_rows_snoc cs c : concat_rows (cs ++ [c]) = concat_rows cs +:+ row_of c.
Proof.
  induction cs as [|c' cs IH].
  - change (row_of c +:+ EmptyString = EmptyString +:+ row_of c).
    by rewrite string_app_nil_r.
  - change (row_of c' +:+ concat_rows (cs ++ [c])
            = (row_of c' +:+ concat_rows cs) +:+ row_of c).
    by rewrite IH, string_app_assoc.
Qed.

Lemma fast_iteration_stops sf toks st0 :
  all_returned sf (st_os st0) st0 → stops sf (st_os st0) (fast_iteration sf toks st0).
Proof.
  intros Hst. unfold fast_iteration, alloc.
  pose proof (run_tokens_stops sf (length (st_heap st0)) (st_os st0) toks
                (mkState (st_tree st0) (st_open st0) (st_heap st0 ++ [∅]) (st_os st0)
                   (st_log st0) (st_pruned st0)) Hst) as H.
  destruct (run_tokens _ _ _ _) as [st|x st]; simpl; [|done].
  destruct (sax_close _ _); [done|]. left. split; [|done]. left. eauto.
Qed.

Lemma all_returned_empty_log sf st0 : st_log st0 = [] → all_returned sf (st_os st0) st0.
Proof.
  intros Hlog. unfold all_returned. rewrite calls_log, Hlog. simpl.
  split; [done|]. intros cs1 c cs2 H. by destruct cs1.
Qed.



(** ** Calls of [convert_to_csv] *)


Lemma convert_to_csv_appends s h e args kw w w' path :
  convert_to_csv s h e args kw w = Done w' →
  get kw "csv_file" = VStr path →
  csv_content w' path
  = csv_content w path +:+ Csv.writerow (map (text s) (children s e))
  ∧ (∀ g, g ≠ path → fs w' !! g = fs w !! g).
Proof.
  unfold convert_to_csv. destruct args; [|done].
  destruct (xpath_ns_c1_text _ _ _ _) as [x|c1]; [done|].
  intros Hd Hp. rewrite Hp in Hd. unfold append_text, print in Hd. simpl in Hd.
  unfold csv_content.
  destruct (fs w !! path) as [[|f]|] eqn:E; [done| |].
  - destruct (f_protected f); [done|]. injection Hd as <-. simpl.
    rewrite lookup_insert_eq. split; [done|]. intros g Hg. by rewrite lookup_insert_ne.
  - injection Hd as <-. simpl. rewrite lookup_insert_eq. split; [done|].
    intros g Hg. by rewrite lookup_insert_ne.
Qed.

Lemma convert_to_csv_raises_keeps_files s h e args kw w x w' :
  convert_to_csv s h e args kw w = Raised x w' → fs w' = fs w.
Proof.
  unfold convert_to_csv. destruct args; [|by intros [= _ <-]].
  destruct (xpath_ns_c1_text _ _ _ _) as [y|c1]; [by intros [= _ <-]|].
  destruct (get kw "csv_file") as [|path|l]; try by intros [= _ <-].
  unfold append_text, print. simpl.
  destruct (fs w !! path) as [[|f]|]; [by intros [= _ <-]| |done].
  destruct (f_protected f); [by intros [= _ <-]|done].
Qed.

Lemma each_returns_app_l sf w0 cs1 cs2 :
  each_returns sf w0 (cs1 ++ cs2) → each_returns sf w0 cs1.
Proof.
  intros H a c b ->. apply (H a c (b ++ cs2)). by rewrite <- app_assoc.
Qed.

Lemma fast_iteration_stops_fresh sf toks st0 :
  st_log st0 = [] → stops sf (st_os st0) (fast_iteration sf toks st0).
Proof. intros H. by apply fast_iteration_stops, all_returned_empty_log. Qed.

(** The calls that returned, in a run that stopped. *)
Lemma stops_cases sf w0 o :
  stops sf w0 o →
  (each_returns sf w0 (calls (state_of o))
   ∧ st_os (state_of o) = replay sf w0 (calls (state_of o))
   ∧ ∀ x st, o = Raised x st → (∃ msg, x = XMLSyntaxError msg) ∨ x = NoneType_error)
  ∨ (∃ l c x,
       o = Raised x (state_of o)
       ∧ st_log (state_of o) = l ++ [LCall c]
       ∧ each_returns sf w0 (log_calls l)
       ∧ apply_handler sf c (replay sf w0 (log_calls l)) = Raised x (st_os (state_of o))).
Proof.
  destruct o as [st|x st]; simpl.
  - intros [Hos Hret]. left. done.
  - intros [[Hx [Hos Hret]]|(l & c & Hlog & Hret & Hc & _)].
    + left. split; [done|]. split; [done|]. by intros x' st' [= <- _].
    + right. by exists l, c, x.
Qed.

Section csv_run.
Context (sf : self) (toks : list token) (st0 : state).
Hypothesis Hf : python_callable sf = convert_to_csv.
Hypothesis Hkw : callable_kwargs sf < length (st_heap st0).
Hypothesis Hlog : st_log st0 = [].

Local Abbreviation o := (fast_iteration sf toks st0).
Local Abbreviation ns := (length (st_heap st0)).
Local Abbreviation kw0 := (deref (st_heap st0) (callable_kwargs sf)).

Lemma csv_call_ok pre c post :
  st_log (state_of o) = pre ++ LCall c :: post → call_ok sf ns kw0 pre c.
Proof.
  intros H. pose proof (fast_iteration_inv sf toks st0 Hlog Hkw) as (_ & _ & _ & _ & _ & Hc).
  by apply (Hc pre c post).
Qed.

Lemma log_calls_split l cs1 c cs2 :
  log_calls l = cs1 ++ c :: cs2 →
  ∃ pre post, l = pre ++ LCall c :: post ∧ log_calls pre = cs1 ∧ log_calls post = cs2.
Proof.
  revert cs1. induction l as [|[p u|c'] l IH]; intros cs1 H.
  - by destruct cs1.
  - destruct (IH cs1 H) as (pre & post & -> & H1 & H2).
    exists (LNs p u :: pre), post. done.
  - change (log_calls (LCall c' :: l)) with (c' :: log_calls l) in H.
    destruct cs1 as [|c1 cs1]; simpl in H.
    + injection H as -> H. exists [], l. done.
    + injection H as -> H. destruct (IH cs1 H) as (pre & post & -> & H1 & H2).
      exists (LCall c1 :: pre), post. split; [done|]. split; [|done].
      change (log_calls (LCall c1 :: pre)) with (c1 :: log_calls pre). by rewrite H1.
Qed.


Lemma csv_kwargs_path path pre c post :
  kw0 !! "csv_file" = Some (VStr path) →
  st_log (state_of o) = pre ++ LCall c :: post →
  get (c_kwargs c) "csv_file" = VStr path.
Proof.
  intros Hp H. destruct (csv_call_ok _ _ _ H) as (_ & -> & _).
  unfold get. destruct (decide _); [by rewrite Hp|].
  unfold merged. rewrite lookup_insert_ne by done. by rewrite Hp.
Qed.

Lemma replay_rows path cs :
  (∀ c, c ∈ cs → get (c_kwargs c) "csv_file" = VStr path) →
  ∀ w, each_returns sf w cs →
  csv_content (replay sf w cs) path = csv_content w path +:+ concat_rows cs
  ∧ ∀ g, g ≠ path → fs (replay sf w cs) !! g = fs w !! g.
Proof.
  intros Hp w. induction cs as [|c cs IH] using rev_ind; intros Hret.
  - simpl. by rewrite string_app_nil_r.
  - rewrite replay_snoc, concat_rows_snoc.
    destruct IH as [IH1 IH2].
    { intros c' Hc'. apply Hp. apply elem_of_app. by left. }
    { by eapply each_returns_app_l. }
    specialize (Hret cs c [] eq_refl).
    unfold apply_handler in *. rewrite Hf in *.
    destruct (convert_to_csv _ _ _ _ _ _) as [w'|x w'] eqn:E; [|done].
    destruct (convert_to_csv_appends _ _ _ _ _ _ _ path E) as [H1 H2].
    { apply Hp. apply elem_of_app. right. by apply list_elem_of_singleton. }
    simpl. rewrite H1, IH1. split; [by rewrite string_app_assoc|].
    intros g Hg. by rewrite H2, IH2.
Qed.

Lemma csv_rows_run path :
  kw0 !! "csv_file" = Some (VStr path) →
  ∃ written,
    csv_content (st_os (state_of o)) path
      = csv_content (st_os st0) path +:+ concat_rows written
    ∧ (∀ g, g ≠ path → fs (st_os (state_of o)) !! g = fs (st_os st0) !! g)
    ∧ (written = calls (state_of o)
       ∨ ∃ c x, o = Raised x (state_of o)
           ∧ calls (state_of o) = written ++ [c]
           ∧ apply_handler sf c (replay sf (st_os st0) written)
             = Raised x (st_os (state_of o)))
    ∧ (∀ st, o = Done st → written = calls st).
Proof.
  intros Hp.
  assert (Hpath : ∀ c, c ∈ calls (state_of o) → get (c_kwargs c) "csv_file" = VStr path).
  { intros c Hc. apply list_elem_of_split in Hc as (a & b & Hc). rewrite calls_log in Hc.
    destruct (log_calls_split _ _ _ _ Hc) as (pre & post & H & _).
    by apply (csv_kwargs_path path pre c post). }
  destruct (stops_cases sf (st_os st0) o (fast_iteration_stops_fresh sf toks st0 Hlog))
    as [(Hret & Hos & _)|(l & c & x & Ho & Hl & Hret & Hc)].
  - exists (calls (state_of o)).
    destruct (replay_rows path _ Hpath _ Hret) as [H1 H2].
    rewrite Hos. split; [done|]. split; [done|]. split; [by left|].
    intros st ->. done.
  - exists (log_calls l).
    assert (Hcalls : calls (state_of o) = log_calls l ++ [c]).
    { by rewrite calls_log, Hl, log_calls_snoc_call. }
    destruct (replay_rows path (log_calls l)) with (w := st_os st0) as [H1 H2].
    { intros c' Hc'. apply Hpath. rewrite Hcalls. apply elem_of_app. by left. }
    { done. }
    pose proof Hc as Hc'. unfold apply_handler in Hc'. rewrite Hf in Hc'.
    apply convert_to_csv_raises_keeps_files in Hc'.
    split; [|split; [|split]].
    + unfold csv_content at 1. rewrite Hc'. exact H1.
    + intros g Hg. rewrite Hc'. by apply H2.
    + right. exists c, x. done.
    + intros st Hst. rewrite Hst in Ho. done.
Qed.

End csv_run.

(** ** Invariants with pending events *)

Lemma run_events_pending (I : list event → state → Prop) sf ns :
  (∀ ev evs st, I (ev :: evs) st →
     match body sf ns ev st with
     | Done st' => I evs st'
     | Raised _ st' => I [] st'
     end) →
  ∀ evs st, I evs st → I [] (state_of (run_events sf ns evs st)).
Proof.
  intros Hbody evs. induction evs as [|ev evs IH]; intros st HI; [done|].
  simpl. specialize (Hbody ev evs st HI).
  destruct (body sf ns ev st) as [st'|x st']; simpl; auto.
Qed.

Lemma run_tokens_pending (I : list event → state → Prop) sf ns :
  (∀ st t s' open' evs, I [] st →
     sax_step (tag sf) (st_tree st) (st_open st) t = SaxOk s' open' evs →
     I evs (mkState s' open' (st_heap st) (st_os st) (st_log st) (st_pruned st))) →
  (∀ ev evs st, I (ev :: evs) st →
     match body sf ns ev st with
     | Done st' => I evs st'
     | Raised _ st' => I [] st'
     end) →
  ∀ toks st, I [] st → I [] (state_of (run_tokens sf ns toks st)).
Proof.
  intros Hsax Hbody toks. induction toks as [|t toks IH]; intros st HI; [done|].
  simpl. destruct (sax_step _ _ _ t) as [s' open' evs|msg] eqn:E; [|done].
  pose proof (run_events_pending I sf ns Hbody evs _ (Hsax _ _ _ _ _ HI E)) as H.
  destruct (run_events sf ns evs _) as [st'|x st']; simpl in *; auto.
Qed.

(** The events of one token: [start-ns] events only, or the [end] event of
    the element that the token closes. *)
Lemma sax_step_events tg s open t s' open' evs :
  sax_step tg s open t = SaxOk s' open' evs →
  (∀ e, End e ∉ evs)
  ∨ (∃ top, evs = [End top] ∧ t = TEnd ∧ open = top :: open' ∧ s' = s ∧ open' ≠ []
       ∧ tag_matches tg (tag_of s top) = true).
Proof.
  unfold sax_step. destruct open as [|top rest]; [done|].
  destruct t as [tag nsdecl attrib| |x|x|target data|msg].
  - destruct (match rest with [] => _ | _ => _ end); [done|].
    intros [= <- <- <-]. left. intros e He.
    apply list_elem_of_fmap in He as ([p u] & ? & _). done.
  - destruct rest as [|y rest]; [done|].
    destruct (tag_matches tg (tag_of s top)) eqn:Etag; intros [= <- <- <-].
    + right. exists top. done.
    + left. intros e He. by apply elem_of_nil in He.
  - destruct rest; [done|].
    destruct (last (children s top)); intros [= <- <- <-]; left; intros e He;
      by apply elem_of_nil in He.
  - intros [= <- <- <-]. left. intros e He. by apply elem_of_nil in He.
  - intros [= <- <- <-]. left. intros e He. by apply elem_of_nil in He.
  - done.
Qed.

Lemma prune_is_element e s pr x :
  is_element (state_of (prune e (s, pr))).1 x = is_element s x.
Proof.
  revert x. unfold prune. cbn [fst snd].
  apply (for_ancestors_inv (fun s' _ => ∀ x, is_element s' x = is_element s x)).
  - intros s0 s' pr0 p left a right H (_ & _ & _ & _ & He & _) x. by rewrite He.
  - destruct (clear_dropped s e) as ((_ & _ & _ & _ & He & _) & _). done.
Qed.

Lemma body_tree_after sf ns ev st :
  st_tree (state_of (body sf ns ev st)) = st_tree st
  ∨ ∃ e, ev = End e
      ∧ st_tree (state_of (body sf ns ev st))
        = (state_of (prune e (st_tree st, st_pruned st))).1.
Proof.
  destruct ev as [p u|e]; simpl; [by left|].
  destruct (python_callable sf _ _ _ _ _ _) as [w|x w]; simpl; [|by left].
  right. exists e. split; [done|]. by destruct (prune e _).
Qed.

Lemma body_is_element sf ns ev st x :
  is_element (st_tree (state_of (body sf ns ev st))) x = is_element (st_tree st) x.
Proof.
  destruct (body_tree_after sf ns ev st) as [->|(e & _ & ->)]; [done|].
  apply prune_is_element.
Qed.

Lemma body_length sf ns ev st :
  length (st_tree (state_of (body sf ns ev st))) = length (st_tree st).
Proof.
  destruct (body_tree_after sf ns ev st) as [->|(e & _ & ->)]; [done|].
  apply prune_frame.
Qed.

Lemma body_calls sf ns ev st :
  calls (state_of (body sf ns ev st))
  = calls st ++ match ev with
                | StartNs _ _ => []
                | End e =>
                    let h := if dict_truthy (deref (st_heap st) ns)
                             then alter (insert "namespaces" (VRef ns))
                                    (callable_kwargs sf) (st_heap st)
                             else st_heap st in
                    [mkCall e (callable_args sf) (deref h (callable_kwargs sf)) (st_tree st) h]
                end.
Proof.
  rewrite !calls_log.
  destruct ev as [p u|e]; simpl.
  - by rewrite log_calls_snoc_ns, app_nil_r.
  - destruct (python_callable sf _ _ _ _ _ _) as [w|x w]; simpl.
    + destruct (prune e _); simpl; by rewrite log_calls_snoc_call.
    + by rewrite log_calls_snoc_call.
Qed.

Lemma sax_step_open_elements tg s open t s' open' evs :
  0 < length s → (∀ x, x ∈ open → x < length s) →
  open_elements s open →
  sax_step tg s open t = SaxOk s' open' evs →
  open_elements s' open'.
Proof.
  intros H0 Hlt Hoe. unfold sax_step.
  destruct open as [|top rest]; [done|].
  destruct t as [tag nsdecl attrib| |tx|tx|target data|msg].
  - destruct (match rest with [] => _ | _ => _ end); [done|].
    intros [= <- <- <-] x Hx Hx0.
    destruct (append_child_kind s top KElement tag None attrib) as (Hold & _ & Hnew & _).
    apply elem_of_cons in Hx as [->|Hx]; [done|].
    destruct (Hold x) as (_ & -> & _); [|by apply Hoe].
    specialize (Hlt x Hx). lia.
  - destruct rest as [|y rest]; [done|]. intros [= <- <- <-] x Hx Hx0.
    apply Hoe; [|done]. apply elem_of_cons. by right.
  - destruct rest; [done|].
    destruct (last (children s top)); intros [= <- <- <-] x Hx Hx0;
      (rewrite is_element_alter; [by apply Hoe|by intros []]).
  - intros [= <- <- <-] x Hx Hx0.
    destruct (append_child_kind s top KComment EmptyString (Some tx) []) as (Hold & _).
    destruct (Hold x) as (_ & -> & _); [|by apply Hoe].
    specialize (Hlt x Hx). lia.
  - intros [= <- <- <-] x Hx Hx0.
    destruct (append_child_kind s top KPI target (Some data) []) as (Hold & _).
    destruct (Hold x) as (_ & -> & _); [|by apply Hoe].
    specialize (Hlt x Hx). lia.
  - done.
Qed.

Lemma open_lt s open pr : walk_inv s open pr → ∀ x, x ∈ open → x < length s.
Proof.
  intros (W & H0 & Hch & _) x Hx. destruct open as [|top rest]; [done|].
  pose proof (chain_top_lt s top rest W H0 Hch) as Htop.
  apply elem_of_cons in Hx as [->|Hx]; [done|].
  pose proof (chain_lt s top rest W Hch x Hx). lia.
Qed.

Lemma live_inv_sax sf st t s' open' evs :
  live_inv sf [] st →
  sax_step (tag sf) (st_tree st) (st_open st) t = SaxOk s' open' evs →
  live_inv sf evs (mkState s' open' (st_heap st) (st_os st) (st_log st) (st_pruned st)).
Proof.
  intros (Hinv & Hoe & Hcalls & _) E.
  destruct (sax_step_inv _ _ _ _ _ _ _ _ Hinv E) as [Hinv' Hevs].
  pose proof Hinv as (W & H0 & Hch & _).
  split; [done|]. split.
  { eapply sax_step_open_elements; [done| |done|done]. by eapply open_lt. }
  split; [done|].
  destruct (sax_step_events _ _ _ _ _ _ _ E)
    as [Hno|(top & -> & -> & Ho & -> & Hne & Htag)]; [by left|].
  right. exists top. split; [done|]. simpl.
  split; [apply Hevs; by apply list_elem_of_singleton|].
  assert (top ≠ 0) as Htop0.
  { rewrite Ho in Hch. destruct open' as [|y rest]; [done|].
    destruct Hch as [Hl _]. apply last_elem_of in Hl.
    apply (children_lt _ _ _ W) in Hl. lia. }
  split; [|split; [done|]].
  - apply Hoe; [|done]. rewrite Ho. apply elem_of_cons. by left.
  - apply (chain_reachable _ _ Hch). rewrite Ho. apply elem_of_cons. by left.
Qed.

Lemma live_inv_body sf ns ev evs st :
  live_inv sf (ev :: evs) st →
  match body sf ns ev st with
  | Done st' => live_inv sf evs st'
  | Raised _ st' => live_inv sf [] st'
  end.
Proof.
  intros (Hinv & Hoe & Hcalls & Hpend).
  assert (Hbase : ∀ evs', (∀ e, End e ∉ evs') → live_inv sf evs' (state_of (body sf ns ev st))).
  { intros evs' Hevs'. split; [|split; [|split; [|by left]]].
    - apply body_inv; [done|]. intros e ->.
      destruct Hpend as [Hno|(e' & [= <- ->] & He & _)]; [|done].
      exfalso. apply (Hno e). apply elem_of_cons. by left.
    - intros x Hx Hx0. rewrite body_is_element. apply Hoe; [|done].
      by rewrite body_open in Hx.
    - rewrite body_calls. apply Forall_app. split; [done|].
      destruct ev as [p u|e]; [by apply Forall_nil|].
      destruct Hpend as [Hno|(e' & [= <- ->] & He & Hlive)].
      + exfalso. apply (Hno e). apply elem_of_cons. by left.
      + apply Forall_singleton. exact Hlive. }
  assert (Hevs : ∀ e, End e ∉ evs).
  { destruct Hpend as [Hno|(e' & [= _ ->] & _)].
    - intros e He. apply (Hno e). apply elem_of_cons. by right.
    - intros e He. by apply elem_of_nil in He. }
  specialize (Hbase evs Hevs) as H1.
  assert (∀ e, End e ∉ @nil event) as Hnil by (intros e He; by apply elem_of_nil in He).
  specialize (Hbase [] Hnil) as H2.
  destruct (body sf ns ev st) as [st'|x st']; done.
Qed.

Lemma live_inv_initial sf h w : live_inv sf [] (initial_state h w).
Proof.
  split; [apply initial_state_inv|]. split; [|split].
  - intros x Hx Hx0. apply list_elem_of_singleton in Hx. done.
  - apply Forall_nil. done.
  - left. intros e He. by apply elem_of_nil in He.
Qed.

Lemma fast_iteration_from_initial sf toks h w :
  state_of (fast_iteration sf toks (initial_state h w))
  = state_of (run_tokens sf (length h) toks (initial_state (h ++ [∅]) w)).
Proof. apply fast_iteration_state. Qed.


(** ** No element is handed over twice *)

Lemma sax_step_length tg s open t s' open' evs :
  sax_step tg s open t = SaxOk s' open' evs →
  length s ≤ length s' ∧ ∀ x, x ∈ open' → x ∈ open ∨ (x = length s ∧ length s < length s').
Proof.
  unfold sax_step. destruct open as [|top rest]; [done|].
  assert (Hlen : ∀ k tg txt attrib, length (append_child s top k tg txt attrib) = S (length s)).
  { intros. unfold append_child. rewrite length_app, length_alter. simpl. lia. }
  destruct t as [tag nsdecl attrib| |x|x|target data|msg].
  - destruct (match rest with [] => _ | _ => _ end); [done|].
    intros [= <- <- <-]. rewrite Hlen. split; [lia|]. intros x Hx.
    apply elem_of_cons in Hx as [->|Hx]; [right; lia|by left].
  - destruct rest as [|y rest]; [done|]. intros [= <- <- <-]. split; [lia|].
    intros x Hx. left. apply elem_of_cons. by right.
  - destruct rest; [done|].
    destruct (last (children s top)); intros [= <- <- <-]; rewrite length_alter;
      (split; [lia|by left]).
  - intros [= <- <- <-]. rewrite Hlen. split; [lia|]. by left.
  - intros [= <- <- <-]. rewrite Hlen. split; [lia|]. by left.
  - done.
Qed.

Lemma once_inv_sax sf st t s' open' evs :
  once_inv [] st →
  sax_step (tag sf) (st_tree st) (st_open st) t = SaxOk s' open' evs →
  once_inv evs (mkState s' open' (st_heap st) (st_os st) (st_log st) (st_pruned st)).
Proof.
  intros (Hinv & Hcalled & Hnd & _) E.
  destruct (sax_step_inv _ _ _ _ _ _ _ _ Hinv E) as [Hinv' Hevs].
  destruct (sax_step_length _ _ _ _ _ _ _ E) as [Hlen Hopen].
  pose proof Hinv as (W & H0 & Hch & _).
  assert (Hcalled' : Forall (fun e => e < length s' ∧ e ∉ open') (map c_element (calls st))).
  { eapply Forall_impl; [exact Hcalled|]. simpl. intros e [He1 He2]. split; [lia|].
    intros Hin. destruct (Hopen e Hin) as [?|[-> _]]; [done|lia]. }
  split; [done|]. split; [done|]. split; [done|].
  destruct (sax_step_events _ _ _ _ _ _ _ E)
    as [Hno|(top & -> & -> & Ho & -> & Hne & Htag)]; [by left|].
  right. exists top. split; [done|]. simpl.
  split; [apply Hevs; by apply list_elem_of_singleton|].
  split.
  - eapply open_lt; [exact Hinv|]. rewrite Ho. apply elem_of_cons. by left.
  - intros Hin. rewrite Forall_forall in Hcalled. destruct (Hcalled top Hin) as [_ Hn].
    apply Hn. rewrite Ho. apply elem_of_cons. by left.
Qed.

Lemma once_inv_body sf ns ev evs st :
  once_inv (ev :: evs) st →
  match body sf ns ev st with
  | Done st' => once_inv evs st'
  | Raised _ st' => once_inv [] st'
  end.
Proof.
  intros (Hinv & Hcalled & Hnd & Hpend).
  assert (Hbase : ∀ evs', (∀ e, End e ∉ evs') → once_inv evs' (state_of (body sf ns ev st))).
  { intros evs' Hevs'. split; [|split; [|split; [|by left]]].
    - apply body_inv; [done|]. intros e ->.
      destruct Hpend as [Hno|(e' & [= <- ->] & He & _)]; [|done].
      exfalso. apply (Hno e). apply elem_of_cons. by left.
    - rewrite body_calls, body_length, body_open, map_app. apply Forall_app. split; [done|].
      destruct ev as [p u|e]; [by apply Forall_nil|].
      destruct Hpend as [Hno|(e' & [= <- ->] & He & Hlt & _)].
      + exfalso. apply (Hno e). apply elem_of_cons. by left.
      + apply Forall_singleton. done.
    - rewrite body_calls, map_app.
      destruct ev as [p u|e]; [by rewrite app_nil_r|].
      destruct Hpend as [Hno|(e' & [= <- ->] & He & Hlt & Hnew)].
      + exfalso. apply (Hno e). apply elem_of_cons. by left.
      + apply NoDup_app. split; [done|]. split; [|apply NoDup_singleton].
        intros x Hx Hx'. apply list_elem_of_singleton in Hx'. simpl in Hx'. by subst. }
  assert (Hevs : ∀ e, End e ∉ evs).
  { destruct Hpend as [Hno|(e' & [= _ ->] & _)].
    - intros e He. apply (Hno e). apply elem_of_cons. by right.
    - intros e He. by apply elem_of_nil in He. }
  specialize (Hbase evs Hevs) as H1.
  assert (∀ e, End e ∉ @nil event) as Hnil by (intros e He; by apply elem_of_nil in He).
  specialize (Hbase [] Hnil) as H2.
  destruct (body sf ns ev st) as [st'|x st']; done.
Qed.

Lemma once_inv_initial h w : once_inv [] (initial_state h w).
Proof.
  split; [apply initial_state_inv|]. split; [by apply Forall_nil|].
  split; [apply NoDup_nil_2|]. left. intros e He. by apply elem_of_nil in He.
Qed.

(** X5.  No element is handed to the handler twice. *)
Theorem no_element_dispatched_twice (sf : self) (toks : list token)
    (h : heap) (w : os_state) :
  NoDup (map c_element (calls (state_of (fast_iteration sf toks (initial_state h w))))).
Proof.
  rewrite fast_iteration_from_initial.
  pose proof (run_tokens_pending once_inv sf (length h)
                (once_inv_sax sf) (once_inv_body sf (length h)) toks
                (initial_state (h ++ [∅]) w) (once_inv_initial _ w))
    as (_ & _ & H & _).
  exact H.
Qed.

(** ** The heap *)

Lemma heap_frame_body sf ns h0 ev st :
  heap_frame (callable_kwargs sf) ns h0 (st_heap st) →
  heap_frame (callable_kwargs sf) ns h0 (st_heap (state_of (body sf ns ev st))).
Proof.
  intros [Hlen Hfr].
  destruct (body_log_heap sf ns ev st) as (h & entry & -> & _ & Hev).
  destruct ev as [p u|e].
  - destruct Hev as [-> _]. split; [by rewrite length_alter|].
    intros l k Hl Hk. rewrite deref_alter_ne by done. by apply Hfr.
  - destruct Hev as [-> _]. destruct (dict_truthy _); [|done].
    split; [by rewrite length_alter|]. intros l k Hl Hk.
    destruct (decide (l = callable_kwargs sf)) as [->|Hne].
    + destruct Hk as [Hk|Hk]; [done|].
      destruct (decide (callable_kwargs sf < length (st_heap st))) as [Hlt|Hge].
      * rewrite deref_alter_eq by done. rewrite lookup_insert_ne by done. by apply Hfr; auto.
      * unfold deref. rewrite list_lookup_alter. rewrite decide_True by done.
        rewrite (lookup_ge_None_2 (st_heap st)) by lia. simpl.
        specialize (Hfr (callable_kwargs sf) k Hl (or_intror Hk)).
        unfold deref in Hfr. rewrite (lookup_ge_None_2 (st_heap st)) in Hfr by lia. done.
    + rewrite deref_alter_ne by done. by apply Hfr.
Qed.

Lemma heap_frame_run sf ns h0 toks st :
  heap_frame (callable_kwargs sf) ns h0 (st_heap st) →
  heap_frame (callable_kwargs sf) ns h0 (st_heap (state_of (run_tokens sf ns toks st))).
Proof.
  apply (run_tokens_inv (fun st => heap_frame (callable_kwargs sf) ns h0 (st_heap st))).
  - intros ev st'. apply heap_frame_body.
  - intros; done.
Qed.

Lemma fast_iteration_frame sf toks st0 :
  length (st_heap (state_of (fast_iteration sf toks st0))) = S (length (st_heap st0))
  ∧ ∀ l k, l < length (st_heap st0) →
      (l ≠ callable_kwargs sf ∨ k ≠ "namespaces") →
      deref (st_heap (state_of (fast_iteration sf toks st0))) l !! k
      = deref (st_heap st0) l !! k.
Proof.
  rewrite fast_iteration_state.
  destruct (heap_frame_run sf (length (st_heap st0)) (st_heap st0 ++ [∅]) toks
              (mkState (st_tree st0) (st_open st0) (st_heap st0 ++ [∅]) (st_os st0)
                 (st_log st0) (st_pruned st0))) as [Hlen Hfr].
  { split; done. }
  split.
  - rewrite Hlen, length_app. simpl. lia.
  - intros l k Hl Hk. rewrite Hfr; [|lia|done]. by rewrite deref_app_l.
Qed.

(** ** Entering the loop from [__init__] *)

Lemma kwargs_or_new (kw : option nat) (h h1 : heap) (k : nat) :
  (h1, k) = match kw with
            | Some l => if dict_truthy (deref h l) then (h, l) else alloc h
            | None => alloc h
            end →
  (h1 = h ∧ kw = Some k ∧ k < length h) ∨ (h1 = h ++ [∅] ∧ k = length h).
Proof.
  destruct kw as [l|]; [|intros [= -> ->]; by right].
  destruct (dict_truthy (deref h l)) eqn:Et; intros [= -> ->]; [|by right].
  left. split; [done|]. split; [done|].
  apply deref_nonempty_lt. by apply dict_truthy_true.
Qed.

(** [__init__] either raises before the loop, on the schema or on the
    guard, or is the loop on the tokens of the input file. *)
Lemma init_early_or_loop xml_file f args kw tag dtd schema h w :
  ∃ h1 k,
    (h1, k) = match kw with
              | Some l => if dict_truthy (deref h l) then (h, l) else alloc h
              | None => alloc h
              end
    ∧ ((∃ x, init xml_file f args kw tag dtd schema h w = Raised x (initial_state h1 w)
          ∧ ((x = XMLSyntaxError "invalid XML Schema" ∧ ¬ schema_compiles schema)
             ∨ (is_non_empty_file w xml_file = false
                ∧ x = RuntimeError (xml_file +:+ " is empty or non-existing."))))
       ∨ (is_non_empty_file w xml_file = true
          ∧ ∃ sf fl, fs w !! xml_file = Some (File fl)
            ∧ init xml_file f args kw tag dtd schema h w
              = fast_iteration sf (f_sax fl) (initial_state h1 w)
            ∧ python_callable sf = f ∧ XMLParser.tag sf = tag
            ∧ callable_kwargs sf = k)).
Proof.
  unfold init.
  destruct (match kw with Some l => _ | None => _ end) as [h1 k] eqn:Ek.
  exists h1, k. split; [done|].
  destruct (negb _) eqn:Es.
  { left. eexists. split; [done|]. left. split; [done|].
    intros Hs. destruct schema as [sch|]; [|done]. simpl in Hs.
    destruct (str_truthy (sch_data sch)); [|done]. by rewrite Hs in Es. }
  destruct (is_non_empty_file w xml_file) eqn:Eg.
  - right. split; [done|]. unfold is_non_empty_file, isfile in Eg.
    destruct (fs w !! xml_file) as [[|fl]|]; [done| |done].
    eexists _, fl. split; [done|]. split; [done|]. done.
  - left. eexists. split; [done|]. right. done.
Qed.

(** X6.  The only change that [__init__] makes to a dictionary that
    existed before the call is to set the key ['namespaces'] in the caller's
    [callable_kwargs]: any other dictionary, and any other key of that one,
    reads after the run, completed or not, as it did before.  (Handlers are
    taken not to write to the dictionaries.) *)
Theorem constructor_writes_only_namespaces_key (xml_file : string) (f : handler)
    (args : option (list value)) (kw : option nat) (tag : option string) (dtd : bool)
    (schema : option schema_source) (h : heap) (w : os_state) (l : nat) (k : string) :
  l < length h →
  kw ≠ Some l ∨ k ≠ "namespaces" →
  deref (st_heap (state_of (init xml_file f args kw tag dtd schema h w))) l !! k
  = deref h l !! k.
Proof.
  intros Hl Hk.
  destruct (init_early_or_loop xml_file f args kw tag dtd schema h w)
    as (h1 & k1 & Ek & Hinit).
  apply kwargs_or_new in Ek.
  assert (Hbase : deref h1 l !! k = deref h l !! k).
  { destruct Ek as [[-> _]|[-> _]]; [done|]. by rewrite deref_app_l. }
  destruct Hinit as [(x & -> & _)|(_ & sf & fl & _ & -> & _ & _ & Hkw)]; [done|].
  destruct (fast_iteration_frame sf (f_sax fl) (initial_state h1 w)) as [_ Hfr].
  rewrite Hfr; [done| |].
  - simpl. destruct Ek as [[-> _]|[-> _]]; [done|]. rewrite length_app. lia.
  - rewrite Hkw. destruct Ek as [(_ & -> & _)|[_ ->]].
    + destruct Hk as [Hk|Hk]; [left; congruence|by right].
    + left. lia.
Qed.

(** ** The namespace declarations of the input *)

Lemma sax_step_declarations tg s open t s' open' evs :
  sax_step tg s open t = SaxOk s' open' evs →
  omap (fun ev => match ev with StartNs p u => Some (p, u) | End _ => None end) evs
  = declarations t.
Proof.
  unfold sax_step. destruct open as [|top rest]; [done|].
  destruct t as [tag nsdecl attrib| |x|x|target data|msg]; simpl.
  - destruct (match rest with [] => _ | _ => _ end); [done|].
    intros [= <- <- <-]. induction nsdecl as [|[p u] l IH]; [done|]. simpl. f_equal. exact IH.
  - destruct rest as [|y rest]; [done|].
    destruct (tag_matches _ _); by intros [= <- <- <-].
  - destruct rest; [done|]. destruct (last _); by intros [= <- <- <-].
  - by intros [= <- <- <-].
  - by intros [= <- <- <-].
  - done.
Qed.

Local Abbreviation ev_decls :=
  (omap (fun ev => match ev with StartNs p u => Some (p, u) | End _ => None end)).

Lemma body_ns_entries sf ns ev st :
  ns_entries (st_log (state_of (body sf ns ev st)))
  = ns_entries (st_log st) ++ ev_decls [ev].
Proof.
  destruct (body_log_heap sf ns ev st) as (h & entry & _ & -> & Hev).
  rewrite ns_entries_app. destruct ev as [p u|e].
  - by destruct Hev as [_ ->].
  - by destruct Hev as [_ ->].
Qed.

Lemma ev_decls_cons ev evs : ev_decls (ev :: evs) = ev_decls [ev] ++ ev_decls evs.
Proof. change (ev :: evs) with ([ev] ++ evs). apply omap_app. Qed.

Lemma run_events_ns_entries sf ns evs : ∀ st,
  ∃ rest,
    ns_entries (st_log (state_of (run_events sf ns evs st))) ++ rest
    = ns_entries (st_log st) ++ ev_decls evs
    ∧ (raised (run_events sf ns evs st) = None → rest = []).
Proof.
  induction evs as [|ev evs IH]; intros st.
  - exists []. done.
  - cbn [run_events]. pose proof (body_ns_entries sf ns ev st) as Hb.
    rewrite ev_decls_cons, app_assoc, <- Hb.
    destruct (body sf ns ev st) as [st1|x st1]; cbn [obind state_of].
    + destruct (IH st1) as (rest & H1 & H2). by exists rest.
    + exists (ev_decls evs). done.
Qed.

Lemma run_tokens_ns_entries sf ns toks : ∀ st,
  ∃ rest,
    ns_entries (st_log (state_of (run_tokens sf ns toks st))) ++ rest
    = ns_entries (st_log st) ++ flat_map declarations toks
    ∧ (raised (run_tokens sf ns toks st) = None → rest = []).
Proof.
  induction toks as [|t toks IH]; intros st.
  - exists []. done.
  - cbn [run_tokens flat_map].
    destruct (sax_step _ _ _ t) as [s' open' evs|msg] eqn:E.
    + apply sax_step_declarations in E.
      destruct (run_events_ns_entries sf ns evs
                  (mkState s' open' (st_heap st) (st_os st) (st_log st) (st_pruned st)))
        as (r1 & H1 & H2).
      destruct (run_events sf ns evs _) as [st1|x st1]; simpl in *.
      * destruct (IH st1) as (rest & H3 & H4). exists rest. split; [|done].
        rewrite H3. rewrite (H2 eq_refl), app_nil_r in H1. rewrite H1, E.
        by rewrite <- app_assoc.
      * exists (r1 ++ flat_map declarations toks). split; [|done].
        rewrite app_assoc, H1, E. by rewrite <- app_assoc.
    + simpl. exists (declarations t ++ flat_map declarations toks). done.
Qed.

(** X7.  When the loop completes, the [start-ns] events that it has taken
    are the namespace declarations of all the start tags of the input, in
    document order, whether or not the elements pass the tag filter; and the
    dictionary [namespaces] holds these bindings, a later declaration of a
    prefix replacing an earlier one. *)
Theorem namespaces_hold_every_declaration (sf : self) (toks : list token)
    (h : heap) (w : os_state) (st : state) :
  callable_kwargs sf < length h →
  fast_iteration sf toks (initial_state h w) = Done st →
  ns_entries (st_log st) = flat_map declarations toks
  ∧ deref (st_heap st) (length h) = observe_all (flat_map declarations toks) ∅.
Proof.
  intros Hkw Hrun.
  assert (Hst : state_of (fast_iteration sf toks (initial_state h w)) = st) by by rewrite Hrun.
  assert (Hlog : ns_entries (st_log st) = flat_map declarations toks).
  { unfold fast_iteration, alloc in Hrun. cbn [st_heap initial_state] in Hrun.
    destruct (run_tokens_ns_entries sf (length h) toks
                (mkState (st_tree (initial_state h w)) (st_open (initial_state h w))
                   (h ++ [∅]) (st_os (initial_state h w)) (st_log (initial_state h w))
                   (st_pruned (initial_state h w)))) as (rest & H1 & H2).
    simpl in H1, H2, Hrun.
    destruct (run_tokens sf (length h) toks _) as [st1|x st1]; simpl in *; [|done].
    destruct (sax_close _ _); [|done]. injection Hrun as <-.
    rewrite (H2 eq_refl), app_nil_r in H1. done. }
  split; [done|].
  pose proof (fast_iteration_inv sf toks (initial_state h w) eq_refl Hkw)
    as (_ & _ & Hd & _).
  rewrite Hst in Hd. simpl in Hd. by rewrite Hd, Hlog.
Qed.

(** ** A comment or processing instruction in front of the root element *)

Lemma run_events_outcome (I : list event → state → Prop) (R : exn → state → Prop) sf ns :
  (∀ ev evs st, I (ev :: evs) st →
     match body sf ns ev st with
     | Done st' => I evs st'
     | Raised x st' => R x st'
     end) →
  ∀ evs st, I evs st →
    match run_events sf ns evs st with
    | Done st' => I [] st'
    | Raised x st' => R x st'
    end.
Proof.
  intros Hbody evs. induction evs as [|ev evs IH]; intros st HI; [done|].
  simpl. specialize (Hbody ev evs st HI).
  destruct (body sf ns ev st) as [st'|x st']; simpl; [by apply IH|done].
Qed.

Lemma run_tokens_outcome (I : list event → state → Prop) (R : exn → state → Prop) sf ns :
  (∀ st t s' open' evs, I [] st →
     sax_step (tag sf) (st_tree st) (st_open st) t = SaxOk s' open' evs →
     I evs (mkState s' open' (st_heap st) (st_os st) (st_log st) (st_pruned st))) →
  (∀ st t msg, I [] st →
     sax_step (tag sf) (st_tree st) (st_open st) t = SaxError msg →
     R (XMLSyntaxError msg) st) →
  (∀ ev evs st, I (ev :: evs) st →
     match body sf ns ev st with
     | Done st' => I evs st'
     | Raised x st' => R x st'
     end) →
  ∀ toks st, I [] st →
    match run_tokens sf ns toks st with
    | Done st' => I [] st'
    | Raised x st' => R x st'
    end.
Proof.
  intros Hsax Herr Hbody toks. induction toks as [|t toks IH]; intros st HI; [done|].
  simpl. destruct (sax_step _ _ _ t) as [s' open' evs|msg] eqn:E.
  - pose proof (run_events_outcome I R sf ns Hbody evs _ (Hsax _ _ _ _ _ HI E)) as H.
    destruct (run_events sf ns evs _) as [st'|x st']; simpl in *; [by apply IH|done].
  - by eapply Herr.
Qed.

(** The elements from [e] up to the root element, when [e] heads a chain
    of open elements: the list ends with a child of the document node. *)
Lemma ancestors_up_chain s : tree_wf s → is_document s 0 = true →
  ∀ open e fuel,
    open ≠ [] → chain s (e :: open) → open_elements s (e :: open) → e < fuel →
    ∃ l r, ancestors_up fuel s e = l ++ [r]
      ∧ parent s r = Some 0 ∧ is_element s r = true.
Proof.
  intros W Hdoc open. induction open as [|y rest IH]; intros e fuel Hne Hch Hoe Hfuel; [done|].
  destruct Hch as [Hlast Hch]. apply last_elem_of in Hlast.
  destruct (wf_child s W y e Hlast) as [Hpar Hlt].
  assert (He : is_element s e = true).
  { apply Hoe; [apply elem_of_cons; by left|lia]. }
  destruct fuel as [|f]; [lia|]. cbn [ancestors_up].
  unfold is_element in He. unfold parent in Hpar.
  destruct (s !! e) as [n|] eqn:En; [|done]. rewrite Hpar.
  destruct (n_kind n) eqn:Ek; try done.
  destruct rest as [|z rest].
  - simpl in Hch. subst y. exists [], e. split.
    + destruct f as [|f]; [done|]. cbn [ancestors_up]. unfold is_document in Hdoc.
      destruct (s !! 0) as [n0|]; [|done]. by destruct (n_kind n0).
    + split; [unfold parent; by rewrite En|]. unfold is_element. by rewrite En, Ek.
  - destruct (IH y f) as (l & r & -> & Hr).
    + done.
    + done.
    + intros x Hx. apply Hoe. apply elem_of_cons. by right.
    + lia.
    + exists (e :: l), r. done.
Qed.

Lemma prune_raises_root_not_first s pr e open :
  tree_wf s → 0 < length s → open ≠ [] → chain s (e :: open) →
  open_elements s (e :: open) → root_not_first s →
  ∃ t, prune e (s, pr) = Raised NoneType_error t.
Proof.
  intros W H0 Hne Hch Hoe (Hdoc & m & Hm & Hmel).
  destruct (clear_dropped s e) as (Hd & _).
  assert (W1 : tree_wf (clear s e)) by (by eapply dropped_wf).
  pose proof Hd as (_ & Hchildren & Hparent & Hdoc' & Hel' & Hlen & _).
  assert (Hnotin : e ∉ open).
  { intros Hin. pose proof (chain_lt s e open W Hch e Hin). lia. }
  assert (Hch1 : chain (clear s e) (e :: open)).
  { eapply chain_dropped; [done..|]. by right. }
  assert (Hoe1 : open_elements (clear s e) (e :: open)).
  { intros x Hx Hx0. rewrite Hel'. by apply Hoe. }
  assert (He : e < length (clear s e)).
  { rewrite Hlen. by eapply chain_top_lt. }
  assert (He0 : e ≠ 0).
  { destruct open as [|y rest]; [done|]. destruct Hch as [Hl _].
    apply last_elem_of in Hl. apply (children_lt s y e W) in Hl. lia. }
  destruct (ancestors_up_chain (clear s e) W1) with (open := open) (e := e)
    (fuel := length (clear s e)) as (l & r & Hup & Hr & Hrel); try done.
  { by rewrite Hdoc'. }
  unfold prune. cbn [fst snd]. unfold xpath_ancestor_or_self.
  rewrite Hup, rev_app_distr. cbn [rev app for_ancestors fst].
  destruct (while_previous_spec (clear s e) (pr ++ children s e) r)
    as [[Hprev _]|[(_ & _ & ->)|(p & left & right & s' & _ & Hgp & _)]].
  - exfalso. unfold getprevious in Hprev. rewrite Hr in Hprev.
    apply prev_in_None_head in Hprev; [|by apply (wf_parent _ W1)].
    rewrite Hchildren in Hprev. rewrite decide_False in Hprev by done.
    rewrite Hm in Hprev. injection Hprev as ->.
    rewrite Hel' in Hrel. congruence.
  - simpl. by eexists.
  - exfalso. unfold getparent in Hgp. rewrite Hr, Hdoc', Hdoc in Hgp. done.
Qed.

Lemma root_not_first_ext s s' :
  is_document s' 0 = is_document s 0 →
  (∀ m, head (children s 0) = Some m → head (children s' 0) = Some m
        ∧ is_element s' m = is_element s m) →
  root_not_first s → root_not_first s'.
Proof.
  intros Hd Hh (Hdoc & m & Hm & Hmel). split; [congruence|].
  exists m. destruct (Hh m Hm) as [H1 H2]. split; [done|congruence].
Qed.

Lemma sax_step_root_not_first tg s open pr t s' open' evs :
  walk_inv s open pr → root_not_first s →
  sax_step tg s open t = SaxOk s' open' evs →
  root_not_first s'.
Proof.
  intros Hinv Hrn E. pose proof Hinv as (W & H0 & Hch & _).
  assert (Happ : ∀ top k tg' txt attrib, top ∈ open →
            root_not_first (append_child s top k tg' txt attrib)).
  { intros top k tg' txt attrib Htop.
    assert (top < length s) as Hlt by (by eapply open_lt).
    destruct (append_child_obs s top k tg' txt attrib Hlt) as (Hc & _).
    destruct (append_child_kind s top k tg' txt attrib) as (Hold & _).
    eapply root_not_first_ext; [| |exact Hrn].
    - by destruct (Hold 0 ltac:(lia)) as (-> & _).
    - intros m Hm. assert (m ∈ children s 0) as Hin.
      { destruct (children s 0); [done|]. injection Hm as ->. apply elem_of_cons. by left. }
      apply (children_lt s 0 m W) in Hin as [_ Hml]. split.
      + rewrite Hc. case_decide as Ht; [|done]. subst top.
        destruct (children s 0); [done|]. done.
      + by destruct (Hold m ltac:(lia)) as (_ & -> & _). }
  assert (Halt : ∀ f i, (∀ n, n_kind (f n) = n_kind n) →
            (∀ n, n_children (f n) = n_children n) →
            root_not_first (alter f i s)).
  { intros f i Hk Hc. eapply root_not_first_ext; [| |exact Hrn].
    - by apply is_document_alter.
    - intros m Hm. split; [|by apply is_element_alter].
      rewrite children_alter; [done|]. done. }
  unfold sax_step in E. destruct open as [|top rest]; [done|].
  assert (top ∈ top :: rest) as Htop by (apply elem_of_cons; by left).
  destruct t as [tag nsdecl attrib| |x|x|target data|msg].
  - destruct (match rest with [] => _ | _ => _ end); [done|].
    injection E as <- <- <-. by apply Happ.
  - destruct rest as [|y rest]; [done|]. by injection E as <- <- <-.
  - destruct rest; [done|].
    destruct (last (children s top)); injection E as <- <- <-; apply Halt; by intros [].
  - injection E as <- <- <-. by apply Happ.
  - injection E as <- <- <-. by apply Happ.
  - done.
Qed.

Lemma prolog_inv_sax sf w st t s' open' evs :
  prolog_inv w [] st →
  sax_step (tag sf) (st_tree st) (st_open st) t = SaxOk s' open' evs →
  prolog_inv w evs (mkState s' open' (st_heap st) (st_os st) (st_log st) (st_pruned st)).
Proof.
  intros (Hinv & Hoe & Hrn & Hcalls & Hos & _) E.
  destruct (sax_step_inv _ _ _ _ _ _ _ _ Hinv E) as [Hinv' Hevs].
  pose proof Hinv as (W & H0 & Hch & _).
  split; [done|]. split.
  { eapply sax_step_open_elements; [done| |done|done]. by eapply open_lt. }
  split; [eapply sax_step_root_not_first; [exact Hinv|done|exact E]|].
  split; [done|]. split; [done|].
  destruct (sax_step_events _ _ _ _ _ _ _ E)
    as [Hno|(top & -> & -> & Ho & -> & Hne & Htag)]; [by left|].
  right. exists top. split; [done|]. simpl. split; [done|].
  rewrite Ho in Hch. split; [done|].
  apply Hoe; [rewrite Ho; apply elem_of_cons; by left|].
  destruct open' as [|y rest]; [done|]. destruct Hch as [Hl _].
  apply last_elem_of in Hl. apply (children_lt _ _ _ W) in Hl. lia.
Qed.

Lemma prolog_inv_body sf ns w ev evs st :
  prolog_inv w (ev :: evs) st →
  match body sf ns ev st with
  | Done st' => prolog_inv w evs st'
  | Raised x st' => one_call_raised sf w x st'
  end.
Proof.
  intros (Hinv & Hoe & Hrn & Hcalls & Hos & Hpend).
  destruct ev as [p u|e].
  - simpl. split; [done|]. split; [done|]. split; [done|].
    split; [by rewrite calls_snoc_ns|]. split; [done|]. left.
    destruct Hpend as [Hno|(e' & [= ] & _)].
    intros e He. apply (Hno e). apply elem_of_cons. by right.
  - destruct Hpend as [Hno|(e' & [= <- ->] & Hne & Hch & He)].
    { exfalso. apply (Hno e). apply elem_of_cons. by left. }
    pose proof (body_calls sf ns (End e) st) as Hbc. rewrite Hcalls in Hbc.
    cbn [body] in *.
    set (h := if dict_truthy _ then _ else _) in *.
    set (c := mkCall e (callable_args sf) (deref h (callable_kwargs sf)) (st_tree st) h) in *.
    change (python_callable sf (st_tree st) h e (callable_args sf)
              (deref h (callable_kwargs sf)) (st_os st))
      with (apply_handler sf c (st_os st)) in *.
    rewrite Hos in *.
    destruct (apply_handler sf c w) as [w'|x w'] eqn:Eh.
    + pose proof Hinv as (W & H0 & _).
      destruct (prune_raises_root_not_first (st_tree st) (st_pruned st) e (st_open st))
        as (t & Ht); try done.
      { intros x Hx Hx0. apply elem_of_cons in Hx as [->|Hx]; [done|]. by apply Hoe. }
      rewrite Ht in *. simpl in *. right. exists c. split; [done|]. left. done.
    + simpl in *. right. exists c. split; [done|]. right. done.
Qed.

Lemma prolog_inv_first sf m h w s' open' evs :
  sax_step (tag sf) empty_tree [0] (tokens_of_misc m) = SaxOk s' open' evs →
  evs = [] ∧ prolog_inv w [] (mkState s' open' h w [] []).
Proof.
  intros E. split; [by destruct m; injection E as <- <- <-|].
  destruct (sax_step_inv (tag sf) empty_tree [0] [] _ _ _ _
              (initial_state_inv h w) E) as [Hinv _].
  split; [exact Hinv|].
  destruct m as [x|target data]; injection E as <- <- <-.
  - split; [intros x' Hx Hx0; by apply list_elem_of_singleton in Hx|].
    split; [|split; [done|split; [done|left; intros e He; by apply elem_of_nil in He]]].
    split; [done|]. exists 1. done.
  - split; [intros x' Hx Hx0; by apply list_elem_of_singleton in Hx|].
    split; [|split; [done|split; [done|left; intros e He; by apply elem_of_nil in He]]].
    split; [done|]. exists 1. done.
Qed.

Lemma prolog_allows_one_call (sf : self) (m : misc) (toks : list token)
    (h : heap) (w : os_state) :
  one_call_at_most sf w
    (fast_iteration sf (tokens_of_misc m :: toks) (initial_state h w)).
Proof.
  unfold one_call_at_most, fast_iteration, alloc. cbn [initial_state st_heap st_tree st_open st_os
    st_log st_pruned run_tokens].
  destruct (sax_step (tag sf) empty_tree [0] (tokens_of_misc m)) as [s' open' evs|msg] eqn:E;
    [|by left].
  destruct (prolog_inv_first sf m (h ++ [∅]) w s' open' evs E) as [-> Hinv].
  cbn [run_events obind].
  pose proof (run_tokens_outcome (prolog_inv w) (one_call_raised sf w) sf (length h)
                (prolog_inv_sax sf w)
                (fun st t msg (H : prolog_inv w [] st) _ =>
                   or_introl (proj1 (proj2 (proj2 (proj2 H)))))
                (prolog_inv_body sf (length h) w) toks _ Hinv) as H.
  destruct (run_tokens sf (length h) toks _) as [st'|x st']; cbn [obind].
  - destruct H as (_ & _ & _ & Hc & _). left. by destruct (sax_close _ _).
  - simpl. destruct H as [Hc|(c & Hc & [[Hd ->]|Hr])]; [by left|right..].
    + exists c. split; [done|]. by left.
    + exists c. split; [done|]. right. by exists x.
Qed.

(** X3.  When the input starts with a comment or a processing
    instruction, the handler is called at most once, whatever follows and
    whatever the handler does: either no call is made, or the first call
    returns and the pruning raises the [TypeError] of line 83, or the
    handler raises in the first call. *)
Theorem leading_comment_or_pi_allows_one_call (sf : self) (m : misc)
    (toks : list token) (h : heap) (w : os_state) :
  let o := fast_iteration sf (tokens_of_misc m :: toks) (initial_state h w) in
  calls (state_of o) = []
  ∨ ∃ c, calls (state_of o) = [c]
      ∧ ((apply_handler sf c w = Done (st_os (state_of o))
          ∧ o = Raised NoneType_error (state_of o))
         ∨ ∃ x, apply_handler sf c w = Raised x (st_os (state_of o))
             ∧ o = Raised x (state_of o)).
Proof. exact (prolog_allows_one_call sf m toks h w). Qed.

(** ** The top level of the document during a run *)

Lemma for_ancestors_inv_parent (P : store → list nat → Prop) :
  (∀ s s' pr p left a right,
     P s pr → getparent s a = Some p → dropped s s' p left (a :: right) →
     P s' (pr ++ left)) →
  ∀ l s pr, P s pr →
    P (state_of (for_ancestors l (s, pr))).1 (state_of (for_ancestors l (s, pr))).2.
Proof.
  intros Hstep l. induction l as [|a l IH]; intros s pr HP; [done|].
  cbn [for_ancestors fst].
  destruct (while_previous_spec s pr a)
    as [[_ ->]|[(_ & _ & ->)|(p & left & right & s' & _ & Hgp & _ & _ & -> & Hd & _)]].
  - simpl. by apply IH.
  - done.
  - simpl. apply IH. eapply Hstep; done.
Qed.

(** Pruning leaves the children of the document node alone. *)
Lemma prune_top_level e s pr :
  is_document s 0 = true → e ≠ 0 →
  children (state_of (prune e (s, pr))).1 0 = children s 0
  ∧ is_document (state_of (prune e (s, pr))).1 0 = true.
Proof.
  intros Hdoc He. unfold prune. cbn [fst snd].
  apply (for_ancestors_inv_parent
           (fun s' _ => children s' 0 = children s 0 ∧ is_document s' 0 = true)).
  - intros s0 s' pr0 p left a right [Hc Hd] Hgp (_ & Hch & _ & Hdoc' & _).
    apply getparent_Some in Hgp as [_ Hp].
    split; [|by rewrite Hdoc'].
    rewrite Hch. rewrite decide_False; [done|]. intros <-. congruence.
  - destruct (clear_dropped s e) as ((_ & Hch & _ & Hdoc' & _) & _).
    split; [|by rewrite Hdoc'].
    rewrite Hch. by rewrite decide_False.
Qed.

Lemma has_root_ext s s' :
  (∀ x, x ∈ children s 0 → x ∈ children s' 0 ∧ is_element s' x = is_element s x) →
  has_root s = true → has_root s' = true.
Proof.
  intros Hext. unfold has_root. rewrite !existsb_exists.
  intros (x & Hx & Hel). apply list_elem_of_In in Hx.
  destruct (Hext x Hx) as [Hx' Hel']. exists x. split; [by apply list_elem_of_In|congruence].
Qed.

Lemma sax_step_rooted_tree tg s open pr t s' open' evs :
  walk_inv s open pr → is_document s 0 = true → has_root s = true →
  sax_step tg s open t = SaxOk s' open' evs →
  is_document s' 0 = true ∧ has_root s' = true.
Proof.
  intros Hinv Hdoc Hroot E. pose proof Hinv as (W & H0 & Hch & _).
  assert (Happ : ∀ top k tg' txt attrib, top ∈ open →
            is_document (append_child s top k tg' txt attrib) 0 = true
            ∧ has_root (append_child s top k tg' txt attrib) = true).
  { intros top k tg' txt attrib Htop.
    assert (top < length s) as Hlt by (by eapply open_lt).
    destruct (append_child_obs s top k tg' txt attrib Hlt) as (Hc & _).
    destruct (append_child_kind s top k tg' txt attrib) as (Hold & _).
    split; [by destruct (Hold 0 ltac:(lia)) as (-> & _)|].
    eapply has_root_ext; [|exact Hroot]. intros x Hx.
    pose proof (children_lt s 0 x W Hx) as [_ Hxl].
    split.
    - rewrite Hc. case_decide as Ht; [|done]. subst top. apply elem_of_app. by left.
    - by destruct (Hold x ltac:(lia)) as (_ & -> & _). }
  assert (Halt : ∀ f i, (∀ n, n_kind (f n) = n_kind n) →
            (∀ n, n_children (f n) = n_children n) →
            is_document (alter f i s) 0 = true ∧ has_root (alter f i s) = true).
  { intros f i Hk Hc. split; [by rewrite is_document_alter|].
    eapply has_root_ext; [|exact Hroot]. intros x Hx.
    split; [by rewrite children_alter|by apply is_element_alter]. }
  unfold sax_step in E. destruct open as [|top rest]; [done|].
  assert (top ∈ top :: rest) as Htop by (apply elem_of_cons; by left).
  destruct t as [tag nsdecl attrib| |x|x|target data|msg].
  - destruct (match rest with [] => _ | _ => _ end); [done|].
    injection E as <- <- <-. by apply Happ.
  - destruct rest as [|y rest]; [done|]. by injection E as <- <- <-.
  - destruct rest; [done|].
    destruct (last (children s top)); injection E as <- <- <-; apply Halt; by intros [].
  - injection E as <- <- <-. by apply Happ.
  - injection E as <- <- <-. by apply Happ.
  - done.
Qed.

Lemma rooted_sax sf st t s' open' evs :
  rooted sf [] st →
  sax_step (tag sf) (st_tree st) (st_open st) t = SaxOk s' open' evs →
  rooted sf evs (mkState s' open' (st_heap st) (st_os st) (st_log st) (st_pruned st)).
Proof.
  intros (Hlive & Hdoc & Hroot) E.
  split; [by apply (live_inv_sax sf st t)|].
  destruct Hlive as (Hinv & _).
  eapply sax_step_rooted_tree; [exact Hinv|done|done|exact E].
Qed.

Lemma rooted_body sf ns ev evs st :
  rooted sf (ev :: evs) st →
  match body sf ns ev st with
  | Done st' => rooted sf evs st'
  | Raised _ st' => rooted sf [] st'
  end.
Proof.
  intros (Hlive & Hdoc & Hroot).
  pose proof (live_inv_body sf ns ev evs st Hlive) as Hl.
  assert (Htree : is_document (st_tree (state_of (body sf ns ev st))) 0 = true
                  ∧ has_root (st_tree (state_of (body sf ns ev st))) = true).
  { destruct (body_tree_after sf ns ev st) as [->|(e & -> & ->)]; [done|].
    assert (e ≠ 0) as He0.
    { destruct Hlive as (_ & _ & _ & [Hno|(e' & [= <-] & _ & Hel & _)]).
      - exfalso. apply (Hno e). apply elem_of_cons. by left.
      - simpl in Hel. intros ->. unfold is_element in Hel. unfold is_document in Hdoc.
        destruct (st_tree st !! 0) as [n|]; [|done]. by destruct (n_kind n). }
    destruct (prune_top_level e (st_tree st) (st_pruned st) Hdoc He0) as [Hc Hd].
    split; [done|]. eapply has_root_ext; [|exact Hroot].
    intros x Hx. rewrite Hc. split; [done|]. apply prune_is_element. }
  destruct (body sf ns ev st) as [st'|x st']; simpl in *; split; done.
Qed.


Lemma rooted_after_start sf ns tg nsdecl attrib toks h w :
  has_root (st_tree (state_of
    (run_tokens sf ns (TStart tg nsdecl attrib :: toks) (initial_state h w)))) = true.
Proof.
  cbn [run_tokens initial_state st_tree st_open st_heap st_os st_log st_pruned sax_step].
  change (has_root empty_tree) with false. cbv iota.
  set (st0 := mkState _ _ _ _ _ _).
  assert (H0 : rooted sf (map (fun '(p, u) => StartNs p u) nsdecl) st0).
  { split; [|done].
    apply (live_inv_sax sf (initial_state h w) (TStart tg nsdecl attrib)).
    - apply live_inv_initial.
    - done. }
  pose proof (run_events_pending (rooted sf) sf ns (rooted_body sf ns) _ _ H0) as H1.
  destruct (run_events sf ns _ st0) as [st1|x st1]; simpl in *.
  - pose proof (run_tokens_pending (rooted sf) sf ns (rooted_sax sf) (rooted_body sf ns)
                  toks st1 H1) as (_ & _ & H2). done.
  - by destruct H1 as (_ & _ & H2).
Qed.

Section clean.
Context (sf : self).
Hypothesis Htot : handler_total (python_callable sf).


End clean.


(** ** [delete_file], the guard and the script *)

Lemma delete_file_post file w :
  ∃ w', delete_file file w = Done w'
    ∧ (∀ g, g ≠ file → fs w' !! g = fs w !! g)
    ∧ (∀ f, fs w' !! file = Some (File f) → f_protected f = true)
    ∧ ((∀ f, fs w !! file = Some (File f) → f_protected f = false) →
       csv_content w' file = EmptyString).
Proof.
  unfold delete_file, OS.remove, csv_content.
  destruct (fs w !! file) as [[|f]|] eqn:E.
  - simpl. eexists. split; [done|]. simpl. split; [done|]. rewrite E. done.
  - destruct (f_protected f) eqn:Ep.
    + simpl. eexists. split; [done|]. simpl. split; [done|]. rewrite E. split.
      * by intros f' [= <-].
      * intros H. specialize (H f eq_refl). congruence.
    + eexists. split; [done|]. simpl. split.
      * intros g Hg. by rewrite lookup_delete_ne.
      * rewrite lookup_delete_eq. done.
  - simpl. eexists. split; [done|]. rewrite E. done.
Qed.

(** X11.  [delete_file] changes no path but its own.  After it, the path
    is not a regular file any more, unless it is a file that could not be
    removed; so [is_non_empty_file] holds of the path afterwards only if it
    held before. *)
Theorem delete_file_leaves_other_paths (file : string) (w : os_state) :
  let w' := state_of (delete_file file w) in
  (∀ g, g ≠ file → fs w' !! g = fs w !! g)
  ∧ (∀ f, fs w' !! file = Some (File f) → f_protected f = true)
  ∧ (is_non_empty_file w' file = true → is_non_empty_file w file = true).
Proof.
  destruct (delete_file_post file w) as (w' & E & H1 & H2 & _).
  rewrite E. simpl. split; [done|]. split; [done|].
  unfold is_non_empty_file, isfile, getsize.
  destruct (fs w' !! file) as [[|f]|] eqn:E'; try done.
  specialize (H2 f eq_refl). revert E E'.
  unfold delete_file, OS.remove.
  destruct (fs w !! file) as [[|f0]|] eqn:E0; simpl.
  - intros [= <-]. simpl. by rewrite E0.
  - destruct (f_protected f0).
    + simpl. intros [= <-]. simpl. rewrite E0. by intros [= ->].
    + intros [= <-]. simpl. by rewrite lookup_delete_eq.
  - intros [= <-]. by rewrite E0.
Qed.


(** X13.  When the output path is the input path, and the file there can
    be removed, the script deletes its input on line 155 and then raises:
    the [RuntimeError] of the guard, or the error of line 44 when the schema
    does not compile.  The handler is never called. *)
Theorem main_with_output_on_input_deletes_input (accepts : string → bool)
    (a : arguments) (w : os_state) (schema : string) (fl : file) :
  a_schema a = Some schema →
  a_output a = a_input a →
  fs w !! a_input a = Some (File fl) →
  f_protected fl = false →
  ∃ x st, main accepts a w = Raised x st
    ∧ fs (st_os st) !! a_input a = None
    ∧ calls st = []
    ∧ (x = RuntimeError (a_input a +:+ " is empty or non-existing.")
       ∨ x = XMLSyntaxError "invalid XML Schema").
Proof.
  intros Hs Hout Hfl Hp. unfold main. rewrite Hs, Hout.
  assert (Hdel : delete_file (a_input a) w
                 = Done (print ("File deleted: " +:+ a_input a +:+ ".")
                           (mkOS (delete (a_input a) (fs w)) (stdout w)))).
  { unfold delete_file, OS.remove. by rewrite Hfl, Hp. }
  rewrite Hdel.
  set (w2 := print _ (print _ _)).
  assert (Hgone : fs w2 !! a_input a = None) by apply lookup_delete_eq.
  set (sch := if is_non_empty_file w schema then _ else _).
  destruct (init_early_or_loop (a_input a) convert_to_csv None (Some 0) (a_tag a) false sch
              [ {[ "csv_file" := VStr (a_input a) ]} ] w2)
    as (h1 & k & _ & [(x & -> & Hx)|(Hg & _)]).
  - exists x, (initial_state h1 w2). split; [done|]. split; [done|]. split; [done|].
    destruct Hx as [[-> _]|[_ ->]]; [by right|by left].
  - exfalso. unfold is_non_empty_file, isfile in Hg. by rewrite Hgone in Hg.
Qed.

(** X14.  When the script completes, and the output path was not a
    protected file, the output file holds one row for each call of
    [convert_to_csv], in the order of the calls, and nothing of what it held
    before; no other file has changed. *)
Theorem main_output_holds_the_rows_of_the_run (accepts : string → bool)
    (a : arguments) (w : os_state) (st : state) :
  (∀ f, fs w !! a_output a = Some (File f) → f_protected f = false) →
  main accepts a w = Done st →
  csv_content (st_os st) (a_output a) = concat_rows (calls st)
  ∧ (∀ g, g ≠ a_output a → fs (st_os st) !! g = fs w !! g).
Proof.
  intros Hprot. unfold main.
  destruct (a_schema a) as [schema|]; [|done].
  destruct (delete_file_post (a_output a) w) as (w1 & -> & Hother & _ & Hempty).
  specialize (Hempty Hprot).
  set (w2 := print _ w1).
  set (sch := if is_non_empty_file w schema then _ else _).
  set (h := [ {[ "csv_file" := VStr (a_output a) ]} ]).
  destruct (init_early_or_loop (a_input a) convert_to_csv None (Some 0) (a_tag a) false sch
              h w2)
    as (h1 & k & Ek & [(x & -> & Hx)|(Hg & sf & fl & Hfl & -> & Hf & _ & Hkw)]); [done|].
  assert (dict_truthy (deref h 0) = true) as Htr.
  { apply dict_truthy_true. unfold h, deref. simpl. apply insert_non_empty. }
  rewrite Htr in Ek. injection Ek as -> ->.
  destruct (csv_rows_run sf (f_sax fl) (initial_state h w2) Hf) with (path := a_output a)
    as (written & Hc & Ho & _ & Hw).
  { rewrite Hkw. simpl. lia. }
  { done. }
  { rewrite Hkw. unfold h, deref. simpl. by rewrite lookup_singleton_eq. }
  destruct (fast_iteration sf (f_sax fl) (initial_state h w2)) as [st'|x st'] eqn:Erun;
    [|done].
  intros [= <-]. simpl in *. rewrite (Hw st' eq_refl) in Hc.
  split.
  - unfold csv_content in *. simpl. rewrite Hc.
    change (fs w2) with (fs w1). by rewrite Hempty.
  - intros g Hne. rewrite Ho by done. change (fs w2) with (fs w1). by apply Hother.
Qed.

(** ** The handler without an output path *)

Lemma convert_to_csv_needs_path s h e args kw w :
  (∀ path, get kw "csv_file" ≠ VStr path) →
  ∃ x w', convert_to_csv s h e args kw w = Raised x w' ∧ fs w' = fs w.
Proof.
  intros Hp. unfold convert_to_csv. destruct args; [|by eexists _, _].
  destruct (xpath_ns_c1_text _ _ _ _) as [y|c1]; [by eexists _, _|].
  destruct (get kw "csv_file") as [|path|r] eqn:E; [by eexists _, _| |by eexists _, _].
  by destruct (Hp path).
Qed.

(** X10.  With the handler [convert_to_csv] and no path under the key
    ['csv_file'], no call returns: the run makes at most one call, which
    raises and ends the run, and no file is created or changed. *)
Theorem csv_handler_needs_csv_file (sf : self) (toks : list token) (st0 : state) :
  python_callable sf = convert_to_csv →
  callable_kwargs sf < length (st_heap st0) →
  st_log st0 = [] →
  (∀ path, deref (st_heap st0) (callable_kwargs sf) !! "csv_file" ≠ Some (VStr path)) →
  fs (st_os (state_of (fast_iteration sf toks st0))) = fs (st_os st0)
  ∧ (calls (state_of (fast_iteration sf toks st0)) = []
     ∨ ∃ c x, calls (state_of (fast_iteration sf toks st0)) = [c]
         ∧ fast_iteration sf toks st0 = Raised x (state_of (fast_iteration sf toks st0))
         ∧ apply_handler sf c (st_os st0)
           = Raised x (st_os (state_of (fast_iteration sf toks st0)))).
Proof.
  intros Hf Hkw Hlog Hp.
  assert (Hraise : ∀ pre c post w,
            st_log (state_of (fast_iteration sf toks st0)) = pre ++ LCall c :: post →
            ∃ x w', apply_handler sf c w = Raised x w' ∧ fs w' = fs w).
  { intros pre c post w H. unfold apply_handler. rewrite Hf.
    apply convert_to_csv_needs_path. intros path Hget.
    destruct (csv_call_ok sf toks st0 Hkw Hlog pre c post H) as (_ & Hk & _).
    rewrite Hk in Hget. unfold get in Hget.
    destruct (decide _).
    - destruct (_ !! "csv_file") as [v|] eqn:E; [|done]. simpl in Hget. subst v.
      by apply (Hp path).
    - unfold merged in Hget. rewrite lookup_insert_ne in Hget by done.
      destruct (_ !! "csv_file") as [v|] eqn:E; [|done]. simpl in Hget. subst v.
      by apply (Hp path). }
  assert (Hnone : ∀ cs, each_returns sf (st_os st0) cs →
            (∃ a b, log_calls (st_log (state_of (fast_iteration sf toks st0))) = cs ++ a :: b
                    ∨ log_calls (st_log (state_of (fast_iteration sf toks st0))) = cs) →
            cs = []).
  { intros cs Hret Hsub. destruct cs as [|c cs]; [done|]. exfalso.
    specialize (Hret [] c cs eq_refl).
    assert (∃ pre post, st_log (state_of (fast_iteration sf toks st0))
                        = pre ++ LCall c :: post) as (pre & post & Hl).
    { destruct Hsub as (a & b & [H|H]).
      - change ((c :: cs) ++ a :: b) with ([] ++ c :: (cs ++ a :: b)) in H.
        destruct (log_calls_split _ _ _ _ H) as (pre & post & Hl & _). by exists pre, post.
      - change (c :: cs) with ([] ++ c :: cs) in H.
        destruct (log_calls_split _ _ _ _ H) as (pre & post & Hl & _). by exists pre, post. }
    destruct (Hraise pre c post (replay sf (st_os st0) []) Hl) as (x & w' & Hx & _).
    by rewrite Hx in Hret. }
  destruct (stops_cases sf (st_os st0) _ (fast_iteration_stops_fresh sf toks st0 Hlog))
    as [(Hret & Hos & _)|(l & c & x & Ho & Hl & Hret & Hc)].
  - rewrite calls_log in *.
    assert (Hnil := Hnone _ Hret (ex_intro _ (mkCall 0 [] ∅ [] [])
                                   (ex_intro _ [] (or_intror eq_refl)))).
    rewrite Hnil in *. simpl in Hos. rewrite Hos. split; [done|by left].
  - assert (Hnil : log_calls l = []).
    { apply Hnone; [done|]. exists c, []. left. by rewrite Hl, log_calls_snoc_call. }
    rewrite Hnil in Hc. simpl in Hc.
    destruct (Hraise l c [] (st_os st0) Hl) as (x' & w' & Hx & Hfs).
    rewrite Hx in Hc. injection Hc as -> ->.
    split; [done|]. right. exists c, x. split; [|done].
    by rewrite calls_log, Hl, log_calls_snoc_call, Hnil.
Qed.

Lemma csv_handler_needs_csv_file_witness :
  fs (st_os (state_of (fast_iteration ns_self (tokens_of_document ns_table)
                         (initial_state [∅] (input ns_table_xml ns_table)))))
  = fs (st_os (initial_state [∅] (input ns_table_xml ns_table)))
  ∧ (calls (state_of (fast_iteration ns_self (tokens_of_document ns_table)
                        (initial_state [∅] (input ns_table_xml ns_table)))) = []
     ∨ ∃ c x, calls (state_of (fast_iteration ns_self (tokens_of_document ns_table)
                                 (initial_state [∅] (input ns_table_xml ns_table)))) = [c]
         ∧ fast_iteration ns_self (tokens_of_document ns_table)
             (initial_state [∅] (input ns_table_xml ns_table))
           = Raised x (state_of (fast_iteration ns_self (tokens_of_document ns_table)
                                   (initial_state [∅] (input ns_table_xml ns_table))))
         ∧ apply_handler ns_self c (st_os (initial_state [∅] (input ns_table_xml ns_table)))
           = Raised x (st_os (state_of (fast_iteration ns_self (tokens_of_document ns_table)
                                          (initial_state [∅]
                                             (input ns_table_xml ns_table)))))).
Proof.
  apply (csv_handler_needs_csv_file ns_self (tokens_of_document ns_table)
           (initial_state [∅] (input ns_table_xml ns_table))).
  - reflexivity.
  - vm_compute. lia.
  - reflexivity.
  - intros path H. vm_compute in H. discriminate H.
Defined.

(** X2.  A run of [fast_iteration] ends in one of three ways.  It
    completes: every call of the handler returned, and the world is what
    the calls, made in order, left.  Or it raises [XMLSyntaxError] or the
    [TypeError] of line 83, again after calls that all returned.  Or the
    handler raised: the run raises the handler's exception, the failing call
    is the last entry of the log, the calls before it returned, and the tree
    is as that call saw it, not pruned.  Nothing else leaves the loop: the
    [while] loop of line 82 always ends, and line 83 never raises
    [IndexError]. *)
Theorem run_stops_at_first_failure (sf : self) (toks : list token)
    (h : heap) (w : os_state) :
  match fast_iteration sf toks (initial_state h w) with
  | Done st => all_returned sf w st
  | Raised x st =>
      (((∃ msg, x = XMLSyntaxError msg) ∨ x = NoneType_error) ∧ all_returned sf w st)
      ∨ failed_in_last_call sf w x st
  end.
Proof. exact (fast_iteration_stops_fresh sf toks (initial_state h w) eq_refl). Qed.


(** X9.  With the handler [convert_to_csv] and a path under the key
    ['csv_file']: when the run ends, completed or not, the file at that path
    holds what it held before followed by one row for each call that
    returned, in the order of the calls.  Only the last call can lack its
    row, when the handler raised in it.  No other file has changed. *)
Theorem csv_file_gets_one_row_per_returned_call (sf : self) (toks : list token)
    (st0 : state) (path : string) :
  python_callable sf = convert_to_csv →
  callable_kwargs sf < length (st_heap st0) →
  st_log st0 = [] →
  deref (st_heap st0) (callable_kwargs sf) !! "csv_file" = Some (VStr path) →
  ∃ written,
    csv_content (st_os (state_of (fast_iteration sf toks st0))) path
      = csv_content (st_os st0) path +:+ concat_rows written
    ∧ (∀ g, g ≠ path →
         fs (st_os (state_of (fast_iteration sf toks st0))) !! g = fs (st_os st0) !! g)
    ∧ (written = calls (state_of (fast_iteration sf toks st0))
       ∨ ∃ c x, fast_iteration sf toks st0
                = Raised x (state_of (fast_iteration sf toks st0))
           ∧ calls (state_of (fast_iteration sf toks st0)) = written ++ [c]
           ∧ apply_handler sf c (replay sf (st_os st0) written)
             = Raised x (st_os (state_of (fast_iteration sf toks st0))))
    ∧ (∀ st, fast_iteration sf toks st0 = Done st → written = calls st).
Proof.
  intros Hf Hkw Hlog Hp. exact (csv_rows_run sf toks st0 Hf Hkw Hlog path Hp).
Qed.

(** ** Instances *)

Lemma noop_total : handler_total noop.
Proof. intros s h e args kw w. by exists w. Qed.


Lemma constructor_writes_only_namespaces_key_witness :
  deref (st_heap (state_of (init "in.xml" convert_to_csv None (Some 0) (Some "{u}r") false
                              None csv_kwargs (input ns_table_xml ns_table)))) 0
    !! "csv_file"
  = deref csv_kwargs 0 !! "csv_file".
Proof.
  apply (constructor_writes_only_namespaces_key "in.xml" convert_to_csv None (Some 0)
           (Some "{u}r") false None csv_kwargs (input ns_table_xml ns_table) 0 "csv_file").
  - vm_compute. lia.
  - right. discriminate.
Defined.

Lemma namespaces_hold_every_declaration_witness :
  ns_entries (st_log (state_of (fast_iteration ns_self (tokens_of_document ns_table)
                                  (initial_state csv_kwargs (input ns_table_xml ns_table)))))
  = flat_map declarations (tokens_of_document ns_table)
  ∧ deref (st_heap (state_of (fast_iteration ns_self (tokens_of_document ns_table)
                                (initial_state csv_kwargs (input ns_table_xml ns_table)))))
      (length csv_kwargs)
    = observe_all (flat_map declarations (tokens_of_document ns_table)) ∅.
Proof.
  apply (namespaces_hold_every_declaration ns_self (tokens_of_document ns_table) csv_kwargs
           (input ns_table_xml ns_table)).
  - vm_compute. lia.
  - vm_compute. reflexivity.
Defined.


Lemma csv_file_gets_one_row_per_returned_call_witness :
  ∃ written,
    csv_content (st_os (state_of (fast_iteration ns_self (tokens_of_document ns_table)
                                    ns_state0))) "out.csv"
      = csv_content (st_os ns_state0) "out.csv" +:+ concat_rows written
    ∧ (∀ g, g ≠ "out.csv" →
         fs (st_os (state_of (fast_iteration ns_self (tokens_of_document ns_table)
                                ns_state0))) !! g = fs (st_os ns_state0) !! g)
    ∧ (written = calls (state_of (fast_iteration ns_self (tokens_of_document ns_table)
                                    ns_state0))
       ∨ ∃ c x, fast_iteration ns_self (tokens_of_document ns_table) ns_state0
                = Raised x (state_of (fast_iteration ns_self (tokens_of_document ns_table)
                                        ns_state0))
           ∧ calls (state_of (fast_iteration ns_self (tokens_of_document ns_table)
                                ns_state0)) = written ++ [c]
           ∧ apply_handler ns_self c (replay ns_self (st_os ns_state0) written)
             = Raised x (st_os (state_of (fast_iteration ns_self
                                            (tokens_of_document ns_table) ns_state0))))
    ∧ (∀ st, fast_iteration ns_self (tokens_of_document ns_table) ns_state0 = Done st →
         written = calls st).
Proof.
  apply (csv_file_gets_one_row_per_returned_call ns_self (tokens_of_document ns_table)
           ns_state0 "out.csv").
  - reflexivity.
  - vm_compute. lia.
  - reflexivity.
  - vm_compute. reflexivity.
Defined.


Lemma main_with_output_on_input_deletes_input_witness :
  ∃ x st, main (fun _ => true) (mkArgs None "in.xml" "in.xml" (Some "table.xsd")) script_world
          = Raised x st
    ∧ fs (st_os st) !! a_input (mkArgs None "in.xml" "in.xml" (Some "table.xsd")) = None
    ∧ calls st = []
    ∧ (x = RuntimeError (a_input (mkArgs None "in.xml" "in.xml" (Some "table.xsd"))
                          +:+ " is empty or non-existing.")
       ∨ x = XMLSyntaxError "invalid XML Schema").
Proof.
  apply (main_with_output_on_input_deletes_input (fun _ => true)
           (mkArgs None "in.xml" "in.xml" (Some "table.xsd")) script_world "table.xsd"
           (mkFile ns_table_xml (tokens_of_document ns_table) false)).
  - reflexivity.
  - reflexivity.
  - vm_compute. reflexivity.
  - reflexivity.
Defined.

Lemma main_output_holds_the_rows_of_the_run_witness :
  csv_content (st_os (state_of (main (fun _ => true) script_args script_world)))
    (a_output script_args)
  = concat_rows (calls (state_of (main (fun _ => true) script_args script_world)))
  ∧ (∀ g, g ≠ a_output script_args →
       fs (st_os (state_of (main (fun _ => true) script_args script_world))) !! g
       = fs script_world !! g).
Proof.
  apply (main_output_holds_the_rows_of_the_run (fun _ => true) script_args script_world
           (state_of (main (fun _ => true) script_args script_world))).
  - intros f H. vm_compute in H. injection H as <-. reflexivity.
  - vm_compute. reflexivity.
Defined.

(** The script on the namespaced table: the old content of the output file
    is gone, and the file holds the two rows. *)
Example script_run_writes_rows :
  raised (main (fun _ => true) script_args script_world) = None
  ∧ csv_content (st_os (state_of (main (fun _ => true) script_args script_world))) "out.csv"
    = String "A" (String ";" (String "B" (String Csv.CR (String Csv.LF
       (String "C" (String ";" (String "D" (String Csv.CR (String Csv.LF EmptyString)))))))))
  ∧ last (stdout (st_os (state_of (main (fun _ => true) script_args script_world))))
    = Some "Done!".
Proof. vm_compute. done. Qed.

(** ** The parser on a document *)

Lemma parse_run_app tag t1 : ∀ t2 a,
  parse_run tag (t1 ++ t2) a
  = match parse_run tag t1 a with
    | (l, Some a') => let '(l', r) := parse_run tag t2 a' in (l ++ l', r)
    | (l, None) => (l, None)
    end.
Proof.
  induction t1 as [|t t1 IH]; intros t2 a.
  - simpl. by destruct (parse_run tag t2 a).
  - cbn [app parse_run]. destruct (parse_step tag a t) as [[a' ends]|]; [|done].
    rewrite IH. destruct (parse_run tag t1 a') as [l [a''|]]; [|done].
    destruct (parse_run tag t2 a'') as [l' r]. by rewrite app_assoc.
Qed.

Lemma parses_list tag body :
  Forall (parses tag) body →
  ∀ a, p_stack a ≠ [] →
    parse_run tag (flat_map tokens_of body) a
    = ((end_order_list tag (p_next a) body).1,
       Some (mkParse (p_stack a) (end_order_list tag (p_next a) body).2 (p_rooted a))).
Proof.
  induction 1 as [|c body Hc _ IH]; intros a Ha.
  - by destruct a.
  - cbn [flat_map end_order_list]. rewrite parse_run_app, (Hc a Ha).
    destruct (end_order tag (p_next a) c) as [l1 n1] eqn:E1. cbn [fst snd].
    rewrite IH by done. cbn [p_next p_stack p_rooted].
    by destruct (end_order_list tag n1 body) as [l2 n2].
Qed.

Lemma parse_elem tag tg nsdecl attrib body a :
  Forall (parses tag) body →
  (p_stack a = [] → p_rooted a = false) →
  parse_run tag (tokens_of (CElem tg nsdecl attrib body)) a
  = ((end_order tag (p_next a) (CElem tg nsdecl attrib body)).1,
     Some (mkParse (p_stack a) (end_order tag (p_next a) (CElem tg nsdecl attrib body)).2
             (match p_stack a with [] => true | _ => p_rooted a end))).
Proof.
  intros Hbody Hroot. rewrite end_order_elem. cbn [fst snd].
  change (tokens_of (CElem tg nsdecl attrib body))
    with ([TStart tg nsdecl attrib] ++ flat_map tokens_of body ++ [TEnd]).
  rewrite parse_run_app. cbn [parse_run parse_step].
  set (a1 := mkParse ((p_next a, tg) :: p_stack a) (S (p_next a))
               (match p_stack a with [] => true | _ => p_rooted a end)).
  assert (match p_stack a with
          | [] => if p_rooted a then None
                  else Some (mkParse [(p_next a, tg)] (S (p_next a)) true, [])
          | _ => Some (mkParse ((p_next a, tg) :: p_stack a) (S (p_next a)) (p_rooted a), [])
          end = Some (a1, @nil nat)) as ->.
  { unfold a1. destruct (p_stack a); [by rewrite Hroot|done]. }
  cbn [app]. rewrite parse_run_app.
  rewrite (parses_list tag body Hbody a1) by done.
  cbn [p_next p_stack p_rooted a1 parse_run parse_step app].
  by rewrite app_nil_r.
Qed.

Lemma parses_all tag c : parses tag c.
Proof.
  induction c as [tg nsdecl attrib body IH|x|x|target data] using content_induction.
  - intros a Ha. rewrite parse_elem; [|done|done]. by destruct (p_stack a).
  - intros a Ha. cbn. destruct a as [[|it st] n r]; done.
  - intros a Ha. done.
  - intros a Ha. done.
Qed.

Lemma parse_misc tag ms : ∀ a,
  parse_run tag (map tokens_of_misc ms) a
  = ([], Some (mkParse (p_stack a) (length ms + p_next a) (p_rooted a))).
Proof.
  induction ms as [|m ms IH]; intros a; [by destruct a|].
  destruct m as [x|target data]; cbn [map tokens_of_misc parse_run parse_step];
    rewrite IH; cbn [p_stack p_next p_rooted length app]; do 3 f_equal; lia.
Qed.

(** The [end] events of a document are its matching elements, and the
    parser accepts the document. *)
Lemma parse_document tag d :
  ∃ a, parse_run tag (tokens_of_document d) (mkParse [] 1 false)
       = (matching_elements tag d, Some a).
Proof.
  unfold tokens_of_document, matching_elements.
  rewrite parse_run_app, parse_misc. cbn [p_stack p_next p_rooted].
  rewrite parse_run_app. unfold d_root.
  rewrite parse_elem; [|apply Forall_forall; intros c _; apply parses_all|done].
  cbn [p_stack p_next p_rooted]. rewrite parse_misc.
  replace (length (d_prolog d) + 1) with (S (length (d_prolog d))) by lia.
  rewrite app_nil_r. by eexists.
Qed.

(** ** The run follows the parser *)

Local Abbreviation ends_of :=
  (omap (fun ev => match ev with End e => Some e | StartNs _ _ => None end)).
Local Abbreviation els st := (map c_element (calls st)) (only parsing).

Lemma existsb_ext_in {A} (f g : A → bool) (l : list A) :
  (∀ x, x ∈ l → f x = g x) → existsb f l = existsb g l.
Proof.
  induction l as [|x l IH]; intros H; [done|].
  simpl. rewrite H by (apply elem_of_cons; by left). f_equal.
  apply IH. intros y Hy. apply H. apply elem_of_cons. by right.
Qed.

Lemma has_root_eq s s' :
  children s' 0 = children s 0 →
  (∀ x, x ∈ children s 0 → is_element s' x = is_element s x) →
  has_root s' = has_root s.
Proof.
  unfold has_root. intros -> H. by apply existsb_ext_in.
Qed.

Lemma has_root_append s top k tg txt attrib :
  tree_wf s → top < length s →
  has_root (append_child s top k tg txt attrib)
  = has_root s || (bool_decide (top = 0)
                   && match k with KElement => true | _ => false end).
Proof.
  intros W Hlt.
  destruct (append_child_obs s top k tg txt attrib Hlt) as (Hc & _).
  destruct (append_child_kind s top k tg txt attrib) as (Hold & _ & Hnew & _).
  assert (Hsame : ∀ x, x ∈ children s 0 →
            is_element (append_child s top k tg txt attrib) x = is_element s x).
  { intros x Hx. apply (children_lt s 0 x W) in Hx as [_ Hx].
    by destruct (Hold x ltac:(lia)) as (_ & -> & _). }
  case_bool_decide as Htop.
  - subst top. unfold has_root at 1. rewrite Hc, decide_True by done.
    rewrite existsb_app. simpl. rewrite Hnew, orb_false_r. f_equal.
    by apply existsb_ext_in.
  - simpl. rewrite orb_false_r. apply has_root_eq; [|done].
    rewrite Hc. by rewrite decide_False.
Qed.

Lemma has_root_alter f i s :
  (∀ n, n_kind (f n) = n_kind n) → (∀ n, n_children (f n) = n_children n) →
  has_root (alter f i s) = has_root s.
Proof.
  intros Hk Hc. apply has_root_eq; [by apply children_alter|].
  intros x _. by apply is_element_alter.
Qed.

Lemma open_top_pos s open pr top rest :
  walk_inv s open pr → open = top :: rest → rest ≠ [] → top ≠ 0.
Proof.
  intros (W & _ & Hch & _) -> Hne. destruct rest as [|y rest]; [done|].
  destruct Hch as [Hl _]. apply last_elem_of in Hl.
  apply (children_lt s y top W) in Hl. lia.
Qed.

Lemma sax_step_follows sf a st t :
  follows sf a [] st →
  match parse_step (tag sf) a t with
  | None => ∃ msg, sax_step (tag sf) (st_tree st) (st_open st) t = SaxError msg
  | Some (a', ends) =>
      ∃ s' open' evs,
        sax_step (tag sf) (st_tree st) (st_open st) t = SaxOk s' open' evs
        ∧ follows sf a' evs
            (mkState s' open' (st_heap st) (st_os st) (st_log st) (st_pruned st))
        ∧ ends = ends_of evs
  end.
Proof.
  intros (Hlive & Hdoc & Hopen & Htags & Hlen & Hroot).
  pose proof Hlive as (Hinv & _). pose proof Hinv as (W & H0 & Hch & _).
  assert (Hfollow : ∀ a' s' open' evs,
            sax_step (tag sf) (st_tree st) (st_open st) t = SaxOk s' open' evs →
            is_document s' 0 = true →
            open' = map fst (p_stack a') ++ [0] →
            Forall (fun it => tag_of s' it.1 = it.2) (p_stack a') →
            length s' = p_next a' → has_root s' = p_rooted a' →
            follows sf a' evs
              (mkState s' open' (st_heap st) (st_os st) (st_log st) (st_pruned st))).
  { intros a' s' open' evs E H1 H2 H3 H4 H5.
    split; [by apply (live_inv_sax sf st t)|]. done. }
  assert (Hlt : ∀ it, it ∈ p_stack a → it.1 < length (st_tree st)).
  { intros it Hit. eapply open_lt; [exact Hinv|]. rewrite Hopen.
    apply elem_of_app. left. apply list_elem_of_fmap. by exists it. }
  assert (Happ : ∀ top k tg txt attrib, top ∈ st_open st →
            is_document (append_child (st_tree st) top k tg txt attrib) 0 = true
            ∧ Forall (fun it => tag_of (append_child (st_tree st) top k tg txt attrib) it.1
                                = it.2) (p_stack a)
            ∧ length (append_child (st_tree st) top k tg txt attrib) = S (p_next a)
            ∧ tag_of (append_child (st_tree st) top k tg txt attrib) (p_next a) = tg).
  { intros top k tg txt attrib Htop.
    assert (top < length (st_tree st)) as Htl by (by eapply open_lt).
    destruct (append_child_obs (st_tree st) top k tg txt attrib Htl) as (_ & _ & Hl).
    destruct (append_child_kind (st_tree st) top k tg txt attrib) as (Hold & _ & _ & Hnew).
    split; [by destruct (Hold 0 ltac:(lia)) as (-> & _)|].
    split; [|split; [by rewrite Hl, Hlen|by rewrite <- Hlen]].
    apply Forall_forall. intros it Hit. rewrite Forall_forall in Htags.
    specialize (Hlt it Hit).
    destruct (Hold it.1 ltac:(lia)) as (_ & _ & ->). by apply Htags. }
  assert (Halt : ∀ f i, (∀ n, n_kind (f n) = n_kind n) →
            (∀ n, n_children (f n) = n_children n) → (∀ n, n_tag (f n) = n_tag n) →
            is_document (alter f i (st_tree st)) 0 = true
            ∧ Forall (fun it => tag_of (alter f i (st_tree st)) it.1 = it.2) (p_stack a)
            ∧ length (alter f i (st_tree st)) = p_next a
            ∧ has_root (alter f i (st_tree st)) = p_rooted a).
  { intros f i Hk Hc Ht. split; [by rewrite is_document_alter|].
    split; [|split; [by rewrite length_alter|by rewrite has_root_alter]].
    eapply Forall_impl; [exact Htags|]. intros it Hit. simpl. by rewrite tag_of_alter. }
  assert (Hlast : ∀ l : list nat, l ++ [0] ≠ []) by (by intros []).
  unfold parse_step.
  destruct t as [tg nsdecl attrib| |x|x|target data|msg].
  - (* start tag *)
    assert (Hns : @nil nat = ends_of (map (fun '(p, u) => StartNs p u) nsdecl)).
    { clear. induction nsdecl as [|[p u] l IH]; [done|]. simpl. exact IH. }
    destruct (p_stack a) as [|[i tgi] stack] eqn:Es; cbn [map app fst] in Hopen.
    + destruct (p_rooted a) eqn:Er.
      { unfold sax_step. rewrite Hopen, Hroot. by eexists. }
      assert (Hstep : sax_step (tag sf) (st_tree st) (st_open st) (TStart tg nsdecl attrib)
                      = SaxOk (append_child (st_tree st) 0 KElement tg None attrib)
                          (length (st_tree st) :: st_open st)
                          (map (fun '(p, u) => StartNs p u) nsdecl)).
      { unfold sax_step. rewrite Hopen, Hroot. done. }
      eexists _, _, _. split; [exact Hstep|].
      destruct (Happ 0 KElement tg None attrib) as (H1 & H2 & H3 & H4).
      { rewrite Hopen. by apply list_elem_of_singleton. }
      split; [|done].
      apply Hfollow; try done.
      * simpl. by rewrite Hlen, Hopen.
      * apply Forall_cons. split; [done|]. by apply Forall_nil.
      * rewrite has_root_append by (done || lia). rewrite Hroot. done.
    + assert (Hstep : sax_step (tag sf) (st_tree st) (st_open st) (TStart tg nsdecl attrib)
                      = SaxOk (append_child (st_tree st) i KElement tg None attrib)
                          (length (st_tree st) :: st_open st)
                          (map (fun '(p, u) => StartNs p u) nsdecl)).
      { unfold sax_step. rewrite Hopen.
        pose proof (Hlast (map fst stack)). by destruct (map fst stack ++ [0]). }
      eexists _, _, _. split; [exact Hstep|].
      destruct (Happ i KElement tg None attrib) as (H1 & H2 & H3 & H4).
      { rewrite Hopen. apply elem_of_cons. by left. }
      assert (i ≠ 0) as Hi0.
      { eapply (open_top_pos _ _ _ i (map fst stack ++ [0]) Hinv); [done|]. apply Hlast. }
      split; [|done].
      apply Hfollow; try done.
      * simpl. by rewrite Hlen, Hopen.
      * apply Forall_cons. split; [done|]. exact H2.
      * simpl. rewrite has_root_append.
        -- rewrite bool_decide_eq_false_2 by done. simpl. by rewrite orb_false_r.
        -- done.
        -- apply (Hlt (i, tgi)). apply elem_of_cons. by left.
  - (* end tag *)
    destruct (p_stack a) as [|[i tgi] stack] eqn:Es; cbn [map app fst] in Hopen.
    + unfold sax_step. rewrite Hopen. by eexists.
    + apply Forall_cons in Htags as [Hti Htags]. simpl in Hti.
      assert (Hstep : sax_step (tag sf) (st_tree st) (st_open st) TEnd
                      = SaxOk (st_tree st) (map fst stack ++ [0])
                          (if tag_matches (tag sf) tgi then [End i] else [])).
      { unfold sax_step. rewrite Hopen, Hti.
        pose proof (Hlast (map fst stack)). by destruct (map fst stack ++ [0]). }
      eexists _, _, _. split; [exact Hstep|]. split.
      * by apply Hfollow.
      * by destruct (tag_matches (tag sf) tgi).
  - (* text *)
    destruct (p_stack a) as [|[i tgi] stack] eqn:Es; cbn [map app fst] in Hopen.
    + unfold sax_step. rewrite Hopen. by eexists.
    + destruct (last (children (st_tree st) i)) as [c|] eqn:El.
      * assert (Hstep : sax_step (tag sf) (st_tree st) (st_open st) (TText x)
                        = SaxOk (alter (set_tail (Some x)) c (st_tree st)) (st_open st) []).
        { unfold sax_step. rewrite Hopen, El.
          pose proof (Hlast (map fst stack)). by destruct (map fst stack ++ [0]). }
        destruct (Halt (set_tail (Some x)) c) as (H1 & H2 & H3 & H4); try by intros [].
        eexists _, _, _. split; [exact Hstep|]. split; [|done].
        apply Hfollow; try done; by rewrite Es.
      * assert (Hstep : sax_step (tag sf) (st_tree st) (st_open st) (TText x)
                        = SaxOk (alter (set_text (Some x)) i (st_tree st)) (st_open st) []).
        { unfold sax_step. rewrite Hopen, El.
          pose proof (Hlast (map fst stack)). by destruct (map fst stack ++ [0]). }
        destruct (Halt (set_text (Some x)) i) as (H1 & H2 & H3 & H4); try by intros [].
        eexists _, _, _. split; [exact Hstep|]. split; [|done].
        apply Hfollow; try done; by rewrite Es.
  - (* comment *)
    destruct (st_open st) as [|top rest] eqn:Eo.
    { symmetry in Hopen. by apply Hlast in Hopen. }
    assert (Hstep : sax_step (tag sf) (st_tree st) (st_open st) (TComment x)
                    = SaxOk (append_child (st_tree st) top KComment EmptyString (Some x) [])
                        (st_open st) []).
    { unfold sax_step. by rewrite Eo. }
    rewrite <- Eo in *.
    destruct (Happ top KComment EmptyString (Some x) []) as (H1 & H2 & H3 & H4).
    { rewrite Eo. apply elem_of_cons. by left. }
    eexists _, _, _. split; [exact Hstep|]. split; [|done].
    apply Hfollow; try done.
    simpl. rewrite has_root_append; [|done|].
    + rewrite Hroot. by rewrite andb_false_r, orb_false_r.
    + eapply open_lt; [exact Hinv|]. rewrite Eo. apply elem_of_cons. by left.
  - (* processing instruction *)
    destruct (st_open st) as [|top rest] eqn:Eo.
    { symmetry in Hopen. by apply Hlast in Hopen. }
    assert (Hstep : sax_step (tag sf) (st_tree st) (st_open st) (TPI target data)
                    = SaxOk (append_child (st_tree st) top KPI target (Some data) [])
                        (st_open st) []).
    { unfold sax_step. by rewrite Eo. }
    rewrite <- Eo in *.
    destruct (Happ top KPI target (Some data) []) as (H1 & H2 & H3 & H4).
    { rewrite Eo. apply elem_of_cons. by left. }
    eexists _, _, _. split; [exact Hstep|]. split; [|done].
    apply Hfollow; try done.
    simpl. rewrite has_root_append; [|done|].
    + rewrite Hroot. by rewrite andb_false_r, orb_false_r.
    + eapply open_lt; [exact Hinv|]. rewrite Eo. apply elem_of_cons. by left.
  - unfold sax_step. destruct (st_open st); by eexists.
Qed.

Lemma body_follows sf ns a ev evs st :
  follows sf a (ev :: evs) st →
  follows sf a (match body sf ns ev st with Done _ => evs | Raised _ _ => [] end)
    (state_of (body sf ns ev st))
  ∧ els (state_of (body sf ns ev st)) = els st ++ ends_of [ev]
  ∧ (raised (body sf ns ev st) ≠ None → ends_of [ev] ≠ []).
Proof.
  intros (Hlive & Hdoc & Hopen & Htags & Hlen & Hroot).
  pose proof (live_inv_body sf ns ev evs st Hlive) as Hl.
  assert (Htree : is_document (st_tree (state_of (body sf ns ev st))) 0 = true
                  ∧ has_root (st_tree (state_of (body sf ns ev st))) = has_root (st_tree st)
                  ∧ ∀ x, tag_of (st_tree (state_of (body sf ns ev st))) x
                         = tag_of (st_tree st) x).
  { destruct (body_tree_after sf ns ev st) as [->|(e & -> & ->)]; [done|].
    assert (e ≠ 0) as He0.
    { destruct Hlive as (_ & _ & _ & [Hno|(e' & [= <-] & _ & Hel & _)]).
      - exfalso. apply (Hno e). apply elem_of_cons. by left.
      - simpl in Hel. intros ->. unfold is_element in Hel. unfold is_document in Hdoc.
        destruct (st_tree st !! 0) as [n|]; [|done]. by destruct (n_kind n). }
    destruct (prune_top_level e (st_tree st) (st_pruned st) Hdoc He0) as [Hc Hd].
    split; [done|]. split.
    - apply has_root_eq; [done|]. intros x _. apply prune_is_element.
    - apply prune_frame. }
  destruct Htree as (Hd' & Hr' & Ht').
  split; [|split].
  - split; [by destruct (body sf ns ev st)|].
    split; [done|]. split; [by rewrite body_open|].
    split; [|split; [by rewrite body_length|by rewrite Hr']].
    eapply Forall_impl; [exact Htags|]. intros it Hit. simpl. by rewrite Ht'.
  - rewrite body_calls, map_app. by destruct ev.
  - destruct ev as [p u|e]; simpl; done.
Qed.

Lemma run_events_follows sf ns a evs : ∀ st,
  follows sf a evs st →
  match run_events sf ns evs st with
  | Done st' => follows sf a [] st' ∧ els st' = els st ++ ends_of evs
  | Raised _ st' =>
      ∃ l, els st' = els st ++ l ∧ l `prefix_of` ends_of evs ∧ l ≠ []
  end.
Proof.
  induction evs as [|ev evs IH]; intros st Hf.
  - simpl. by rewrite app_nil_r.
  - cbn [run_events].
    destruct (body_follows sf ns a ev evs st Hf) as (Hf' & Hels & Hraise).
    change (ev :: evs) with ([ev] ++ evs). rewrite omap_app.
    destruct (body sf ns ev st) as [st1|x st1]; cbn [obind state_of] in *.
    + specialize (IH st1 Hf').
      destruct (run_events sf ns evs st1) as [st2|x st2].
      * destruct IH as [Hf2 Hels2]. split; [done|]. by rewrite Hels2, Hels, app_assoc.
      * destruct IH as (l & Hl & Hpre & Hne). exists (ends_of [ev] ++ l).
        split; [by rewrite Hl, Hels, app_assoc|]. split.
        -- by apply prefix_app.
        -- intros H. apply app_eq_nil in H as [_ ?]. done.
    + exists (ends_of [ev]). split; [done|]. split.
      * by apply prefix_app_r.
      * by apply Hraise.
Qed.

Lemma run_tokens_follows sf ns toks : ∀ a st,
  follows sf a [] st →
  match run_tokens sf ns toks st with
  | Done st' =>
      ∃ a', parse_run (tag sf) toks a = (drop (length (els st)) (els st'), Some a')
        ∧ follows sf a' [] st'
        ∧ els st' = els st ++ (parse_run (tag sf) toks a).1
  | Raised _ st' =>
      ∃ l, els st' = els st ++ l
        ∧ l `prefix_of` (parse_run (tag sf) toks a).1
        ∧ ((parse_run (tag sf) toks a).2 = None ∨ l ≠ [])
  end.
Proof.
  induction toks as [|t toks IH]; intros a st Hf.
  - simpl. exists a. rewrite drop_all. split; [done|]. split; [done|]. by rewrite app_nil_r.
  - cbn [run_tokens parse_run].
    pose proof (sax_step_follows sf a st t Hf) as Hstep.
    destruct (parse_step (tag sf) a t) as [[a1 ends]|].
    + destruct Hstep as (s' & open' & evs & -> & Hf1 & ->).
      pose proof (run_events_follows sf ns a1 evs _ Hf1) as Hev.
      change (els (mkState s' open' (st_heap st) (st_os st) (st_log st) (st_pruned st)))
        with (els st) in Hev.
      destruct (run_events sf ns evs _) as [st1|x st1]; cbn [obind].
      * destruct Hev as [Hf2 Hels1]. specialize (IH a1 st1 Hf2).
        destruct (parse_run (tag sf) toks a1) as [l r] eqn:Ep. cbn [fst snd] in *.
        destruct (run_tokens sf ns toks st1) as [st2|x st2].
        -- destruct IH as (a' & Hpr & Hf3 & Hels2). injection Hpr as Hl ->.
           exists a'. rewrite Hels2, Hels1, <- app_assoc.
           rewrite drop_app_length. done.
        -- destruct IH as (l' & Hl' & Hpre & Hor). exists (ends_of evs ++ l').
           split; [by rewrite Hl', Hels1, app_assoc|]. split.
           ++ by apply prefix_app.
           ++ destruct Hor as [->|Hne]; [by left|right].
              intros H. apply app_eq_nil in H as [_ ?]. done.
      * destruct Hev as (l' & Hl' & Hpre & Hne).
        destruct (parse_run (tag sf) toks a1) as [l r]. cbn [fst snd].
        exists l'. split; [done|]. split; [|by right].
        by apply prefix_app_r.
    + destruct Hstep as [msg ->]. exists []. split; [by rewrite app_nil_r|].
      split; [apply prefix_nil|by left].
Qed.

Lemma follows_initial sf h w : follows sf (mkParse [] 1 false) [] (initial_state h w).
Proof.
  split; [apply live_inv_initial|]. split; [done|]. split; [done|].
  split; [by apply Forall_nil|]. done.
Qed.

(** The elements handed over in a run, against the [end] events of the
    input. *)
Lemma fast_iteration_follows sf toks h w :
  els (state_of (fast_iteration sf toks (initial_state h w)))
    `prefix_of` (parse_run (tag sf) toks (mkParse [] 1 false)).1
  ∧ (raised (fast_iteration sf toks (initial_state h w)) = None →
     els (state_of (fast_iteration sf toks (initial_state h w)))
     = (parse_run (tag sf) toks (mkParse [] 1 false)).1)
  ∧ (els (state_of (fast_iteration sf toks (initial_state h w))) = [] →
     (parse_run (tag sf) toks (mkParse [] 1 false)).1 = []
     ∨ (parse_run (tag sf) toks (mkParse [] 1 false)).2 = None).
Proof.
  unfold fast_iteration, alloc.
  cbn [initial_state st_heap st_tree st_open st_os st_log st_pruned].
  change (mkState empty_tree [0] (h ++ [∅]) w [] []) with (initial_state (h ++ [∅]) w).
  pose proof (run_tokens_follows sf (length h) toks _ _
                (follows_initial sf (h ++ [∅]) w)) as H.
  destruct (run_tokens sf (length h) toks _) as [st'|x st']; cbn [obind].
  - destruct H as (a' & _ & _ & Hels). simpl in Hels.
    assert (state_of (if sax_close (st_tree st') (st_open st') then Done st'
                      else Raised (XMLSyntaxError "Premature end of data") st') = st') as ->
      by (by destruct (sax_close _ _)).
    rewrite Hels. split; [done|]. split; [done|]. by left.
  - destruct H as (l & Hels & Hpre & Hor). simpl in *. rewrite Hels.
    split; [done|]. split; [done|]. intros ->. destruct Hor as [?|?]; [by right|done].
Qed.


(** X16.  On a well-formed document with a comment or a processing
    instruction in front of its root element, and with a handler that never
    raises: if any element passes the tag filter, the run raises the
    [TypeError] of line 83 after exactly one call, made on the first
    matching element in the order of the end tags. *)
Theorem comment_before_root_stops_after_first_match (sf : self) (d : document)
    (h : heap) (w : os_state) (e : nat) (rest : list nat) :
  handler_total (python_callable sf) →
  d_prolog d ≠ [] →
  matching_elements (tag sf) d = e :: rest →
  ∃ st, fast_iteration sf (tokens_of_document d) (initial_state h w)
        = Raised NoneType_error st
      ∧ map c_element (calls st) = [e].
Proof.
  intros Htot Hpro Hmatch.
  destruct (fast_iteration_follows sf (tokens_of_document d) h w) as (H1 & _ & H3).
  destruct (parse_document (tag sf) d) as [a Ha]. rewrite Ha, Hmatch in H1, H3.
  cbn [fst snd] in *.
  destruct (d_prolog d) as [|m ms] eqn:Ep; [done|].
  pose proof (prolog_allows_one_call sf m
                (map tokens_of_misc ms ++ tokens_of (d_root d)
                 ++ map tokens_of_misc (d_epilog d)) h w) as Hone.
  unfold one_call_at_most in Hone.
  assert (Htoks : tokens_of_document d
                  = tokens_of_misc m :: map tokens_of_misc ms ++ tokens_of (d_root d)
                    ++ map tokens_of_misc (d_epilog d)).
  { unfold tokens_of_document. by rewrite Ep. }
  rewrite <- Htoks in Hone.
  destruct Hone as [Hnil|(c & Hc & [[_ Ho]|(x & Hx & _)])].
  - rewrite Hnil in H3. by destruct (H3 eq_refl).
  - rewrite Hc in H1. destruct H1 as [k Hk]. simpl in Hk. injection Hk as He _.
    rewrite Ho. eexists. split; [done|]. by rewrite Hc, He.
  - exfalso. unfold apply_handler in Hx.
    destruct (Htot (c_tree c) (c_heap c) (c_element c) (c_args c) (c_kwargs c) w)
      as [w' Hw]. by rewrite Hw in Hx.
Qed.

Lemma comment_before_root_stops_after_first_match_witness :
  ∃ st, fast_iteration plain_self (tokens_of_document commented)
          (initial_state [∅] (input commented_xml commented))
        = Raised NoneType_error st
      ∧ map c_element (calls st) = [3].
Proof.
  apply (comment_before_root_stops_after_first_match plain_self commented [∅]
           (input commented_xml commented) 3 [4; 2]).
  - exact noop_total.
  - discriminate.
  - reflexivity.
Defined.

(** ** A table read by [convert_to_csv] *)

Lemma append_child_text s p k tg txt attrib :
  (∀ x, x ≠ length s → text (append_child s p k tg txt attrib) x = text s x)
  ∧ text (append_child s p k tg txt attrib) (length s) = txt.
Proof.
  unfold append_child.
  set (f := fun pn => set_children (n_children pn ++ [length s]) pn).
  assert (Hlen : length (alter f p s) = length s) by apply length_alter.
  assert (Hnew : ∀ n, (alter f p s ++ [n]) !! length s = Some n).
  { intros n. rewrite lookup_app_r by lia. by rewrite Hlen, Nat.sub_diag. }
  split; [|unfold text; by rewrite !Hnew].
  intros x Hx. unfold text.
  destruct (decide (x < length s)) as [Hlt|Hge].
  - rewrite lookup_app_l by lia. rewrite list_lookup_alter.
    case_decide; [subst|done]. by destruct (s !! x).
  - rewrite (lookup_ge_None_2 s x) by lia. rewrite lookup_app_r by lia.
    rewrite Hlen. destruct (x - length s) as [|m] eqn:E; [lia|done].
Qed.

Lemma walking_alter st f i :
  (∀ n, n_children (f n) = n_children n) → (∀ n, n_parent (f n) = n_parent n) →
  (∀ n, n_kind (f n) = n_kind n) →
  walking st →
  walking (mkState (alter f i (st_tree st)) (st_open st) (st_heap st) (st_os st)
             (st_log st) (st_pruned st)).
Proof.
  intros H1 H2 H3 (Hinv & Hrf & Hdoc). split; [|split].
  - eapply walk_inv_ext; [| | |exact Hinv]; intros; simpl.
    + by apply children_alter.
    + by apply parent_alter.
    + apply length_alter.
  - simpl. eapply root_first_ext; [| | | |exact Hrf]; intros.
    + by apply children_alter.
    + by apply parent_alter.
    + by apply is_document_alter.
    + by apply is_element_alter.
  - simpl. intros y. rewrite is_document_alter by done. apply Hdoc.
Qed.

Lemma walking_top_not_document st top rest :
  walking st → st_open st = top :: rest → rest ≠ [] →
  is_document (st_tree st) top = false ∧ top < length (st_tree st).
Proof.
  intros (Hinv & _ & Hdoc) Ho Hne. split.
  - destruct (is_document (st_tree st) top) eqn:E; [|done].
    apply Hdoc in E. by eapply open_top_pos in E.
  - eapply open_lt; [exact Hinv|]. rewrite Ho. apply elem_of_cons. by left.
Qed.

Section table.
Context (sf : self) (ns : nat) (rowtag : string).
Hypothesis Htag : tag sf = Some rowtag.

(** One cell, below the open row [r]. *)
Lemma cell_run (c : cell) (st : state) (r : nat) (rest : list nat) :
  cell_tag c ≠ rowtag →
  st_open st = r :: rest → rest ≠ [] → walking st →
  ∃ st', run_tokens sf ns (tokens_of (cell_content c)) st = Done st'
    ∧ st_open st' = st_open st ∧ walking st'
    ∧ st_heap st' = st_heap st ∧ st_os st' = st_os st ∧ st_log st' = st_log st
    ∧ children (st_tree st') r = children (st_tree st) r ++ [length (st_tree st)]
    ∧ text (st_tree st') (length (st_tree st)) = cell_text c
    ∧ (∀ x, x < length (st_tree st) →
         text (st_tree st') x = text (st_tree st) x
         ∧ tag_of (st_tree st') x = tag_of (st_tree st) x)
    ∧ length (st_tree st) < length (st_tree st').
Proof.
  intros Hct Ho Hne Hw.
  destruct (walking_top_not_document st r rest Hw Ho Hne) as [Hnd Hr].
  set (n := length (st_tree st)).
  set (s1 := append_child (st_tree st) r KElement (cell_tag c) None (cell_attrib c)).
  destruct (walking_append st r rest KElement (cell_tag c) None (cell_attrib c) Ho Hw)
    as [_ Hw1]; [done|by right; left|]. fold s1 n in Hw1.
  destruct (append_child_obs (st_tree st) r KElement (cell_tag c) None (cell_attrib c) Hr)
    as (Hch1 & _ & Hl1).
  destruct (append_child_kind (st_tree st) r KElement (cell_tag c) None (cell_attrib c))
    as (Hold1 & _ & _ & Htg1).
  destruct (append_child_text (st_tree st) r KElement (cell_tag c) None (cell_attrib c))
    as (Htx1 & Htxn).
  fold s1 n in Hch1, Hl1, Hold1, Htg1, Htx1, Htxn.
  assert (Hstart : sax_step (tag sf) (st_tree st) (st_open st)
                     (TStart (cell_tag c) [] (cell_attrib c))
                   = SaxOk s1 (n :: r :: rest) []).
  { rewrite Ho. unfold sax_step. by destruct rest. }
  assert (Hnomatch : tag_matches (tag sf) (cell_tag c) = false).
  { rewrite Htag. simpl. apply String.eqb_neq. congruence. }
  assert (Hchn : children s1 n = []).
  { rewrite Hch1. rewrite decide_False by (unfold n; lia).
    unfold children. by rewrite (lookup_ge_None_2 (st_tree st) n) by (unfold n; lia). }
  assert (Hrn : r ≠ n) by (unfold n; lia).
  unfold cell_content. destruct (cell_text c) as [x|] eqn:Etxt.
  - (* a cell with text *)
    set (s2 := alter (set_text (Some x)) n s1).
    eexists. split.
    + cbn [tokens_of flat_map app run_tokens]. rewrite Hstart. cbn [run_events obind].
      cbn [st_tree st_open st_heap st_os st_log st_pruned sax_step].
      rewrite Hchn. cbn [last run_events obind st_tree st_open st_heap st_os st_log st_pruned
                         sax_step run_tokens].
      rewrite tag_of_alter by (by intros []). rewrite Htg1, Hnomatch.
      cbn [run_events obind]. reflexivity.
    + cbn [st_tree st_open st_heap st_os st_log st_pruned]. fold s2.
      split; [done|]. split.
      { pose proof (walking_alter _ (set_text (Some x)) n
                      ltac:(by intros []) ltac:(by intros []) ltac:(by intros []) Hw1) as Hw2.
        cbn [st_tree st_open st_heap st_os st_log st_pruned] in Hw2. fold s2 in Hw2.
        destruct Hw2 as (Hinv2 & Hrf2 & Hdoc2).
        assert (Hend : sax_step (tag sf) s2 (n :: r :: rest) TEnd = SaxOk s2 (r :: rest) []).
        { unfold sax_step. unfold s2. rewrite tag_of_alter by (by intros []).
          by rewrite Htg1, Hnomatch. }
        destruct (sax_step_inv _ _ _ _ _ _ _ _ Hinv2 Hend) as [Hinv3 _].
        split; [exact Hinv3|]. split; done. }
      split; [done|]. split; [done|]. split; [done|].
      split.
      { unfold s2. rewrite children_alter by (by intros []).
        rewrite Hch1. by rewrite decide_True. }
      split.
      { unfold s2, text. rewrite list_lookup_alter, decide_True by done.
        pose proof Htxn as Hn. unfold text in Hn.
        destruct (s1 !! n) as [nd|] eqn:En; [done|].
        apply lookup_ge_None in En. rewrite Hl1 in En. unfold n in En. lia. }
      split.
      { intros y Hy. unfold s2. split.
        - unfold text. rewrite list_lookup_alter. rewrite decide_False by (unfold n; lia).
          apply Htx1. unfold n. lia.
        - rewrite tag_of_alter by (by intros []).
          destruct (Hold1 y) as (_ & _ & ->); [unfold n; lia|done]. }
      unfold s2. rewrite length_alter, Hl1. lia.
  - (* a cell without text *)
    eexists. split.
    + cbn [tokens_of flat_map app run_tokens]. rewrite Hstart. cbn [run_events obind].
      cbn [st_tree st_open st_heap st_os st_log st_pruned sax_step].
      rewrite Htg1, Hnomatch. cbn [run_events obind]. reflexivity.
    + cbn [st_tree st_open st_heap st_os st_log st_pruned].
      split; [done|]. split.
      { destruct Hw1 as (Hinv1 & Hrf1 & Hdoc1).
        cbn [st_tree st_open st_heap st_os st_log st_pruned] in *.
        assert (Hend : sax_step (tag sf) s1 (n :: r :: rest) TEnd = SaxOk s1 (r :: rest) []).
        { unfold sax_step. by rewrite Htg1, Hnomatch. }
        destruct (sax_step_inv _ _ _ _ _ _ _ _ Hinv1 Hend) as [Hinv3 _].
        split; [exact Hinv3|]. split; done. }
      split; [done|]. split; [done|]. split; [done|].
      split; [rewrite Hch1; by rewrite decide_True|].
      split; [done|]. split.
      { intros y Hy. split.
        - apply Htx1. unfold n. lia.
        - destruct (Hold1 y) as (_ & _ & ->); [unfold n; lia|done]. }
      rewrite Hl1. lia.
Qed.

(** The cells of a row, below the open row [r]. *)
Lemma cells_run (cells : list cell) : ∀ (st : state) (r : nat) (rest : list nat),
  Forall (fun c => cell_tag c ≠ rowtag) cells →
  st_open st = r :: rest → rest ≠ [] → walking st →
  ∃ st', run_tokens sf ns (flat_map tokens_of (map cell_content cells)) st = Done st'
    ∧ st_open st' = st_open st ∧ walking st'
    ∧ st_heap st' = st_heap st ∧ st_os st' = st_os st ∧ st_log st' = st_log st
    ∧ map (text (st_tree st')) (children (st_tree st') r)
      = map (text (st_tree st)) (children (st_tree st) r) ++ map cell_text cells
    ∧ (∀ x, x < length (st_tree st) → tag_of (st_tree st') x = tag_of (st_tree st) x)
    ∧ length (st_tree st) ≤ length (st_tree st').
Proof.
  induction cells as [|c cells IH]; intros st r rest Hcells Ho Hne Hw.
  - exists st. simpl. rewrite app_nil_r. done.
  - apply Forall_cons in Hcells as [Hc Hcells].
    destruct (cell_run c st r rest Hc Ho Hne Hw)
      as (st1 & Hrun1 & Ho1 & Hw1 & Hh1 & Hos1 & Hl1 & Hch1 & Htx1 & Hold1 & Hlen1).
    destruct (IH st1 r rest Hcells) as
      (st2 & Hrun2 & Ho2 & Hw2 & Hh2 & Hos2 & Hl2 & Htx2 & Hold2 & Hlen2);
      [congruence|done|done|].
    exists st2. split.
    { cbn [map flat_map]. rewrite run_tokens_app, Hrun1. done. }
    split; [congruence|]. split; [done|]. split; [congruence|]. split; [congruence|].
    split; [congruence|]. split; [|split; [|lia]].
    + rewrite Htx2, Hch1, map_app. cbn [map]. rewrite Htx1, <- app_assoc. f_equal.
      apply map_ext_in. intros x Hx. apply list_elem_of_In in Hx.
      destruct Hw as ((W & _) & _).
      apply (children_lt _ _ _ W) in Hx as [_ Hx]. by apply Hold1.
    + intros x Hx. rewrite Hold2 by lia. by apply Hold1.
Qed.

Context (kw0 : dict) (roottag : string) (nsdecl : list (string * string))
        (u path : string) (w : os_state).
Hypothesis Hf : python_callable sf = convert_to_csv.
Hypothesis Hargs : callable_args sf = [].
Hypothesis Hne : callable_kwargs sf ≠ ns.
Hypothesis Hns : last_observed "ns" nsdecl = Some u.
Hypothesis Hpath : kw0 !! "csv_file" = Some (VStr path).
Hypothesis Hroottag : roottag ≠ rowtag.

Local Abbreviation tinv := (table_inv sf ns kw0 roottag nsdecl path w).

Lemma convert_to_csv_returns s h e kw w0 nsl :
  get kw "namespaces" = VRef nsl → deref h nsl !! "ns" = Some (VStr u) →
  get kw "csv_file" = VStr path → writable w0 path →
  ∃ w', convert_to_csv s h e [] kw w0 = Done w' ∧ writable w' path
    ∧ csv_content w' path
      = csv_content w0 path +:+ Csv.writerow (map (text s) (children s e))
    ∧ (∀ g, g ≠ path → fs w' !! g = fs w0 !! g).
Proof.
  intros Hn Hb Hp Hwr. unfold convert_to_csv. rewrite Hn, Hp.
  unfold xpath_ns_c1_text. rewrite Hb.
  unfold append_text, print, writable, csv_content in *. cbn [fs stdout].
  destruct (fs w0 !! path) as [[|f]|] eqn:E; [done| |].
  - rewrite Hwr. eexists. split; [done|]. cbn [fs]. rewrite lookup_insert_eq.
    split; [done|]. split; [done|]. intros g Hg. by rewrite lookup_insert_ne.
  - eexists. split; [done|]. cbn [fs]. rewrite lookup_insert_eq.
    split; [done|]. split; [done|]. intros g Hg. by rewrite lookup_insert_ne.
Qed.

(** The [end] event of a row. *)
Lemma row_end (st : state) (n : nat) (out : string) :
  tinv out st → (n ∉ st_open st) →
  ∃ st', body sf ns (End n) st = Done st'
    ∧ tinv (out +:+ Csv.writerow (map (text (st_tree st)) (children (st_tree st) n)))
        st'.
Proof.
  intros (Hw & Ho & Hrt & Hd & Hlog & Hwr & Hout & Hother) Hn.
  pose proof (dispatch_inv_body sf ns kw0 Hne (End n) st Hd) as Hd'.
  pose proof Hw as (Hinv & Hrf & Hdoc).
  pose proof (body_inv sf ns (End n) st Hinv) as Hbi.
  destruct Hd as (Hkwl & Hnsl & Hdns & Hdkw & _).
  assert (Hbound : deref (st_heap st) ns !! "ns" = Some (VStr u)).
  { rewrite Hdns, observe_all_lookup, Hlog, Hns. done. }
  assert (Htruthy : dict_truthy (deref (st_heap st) ns) = true).
  { apply dict_truthy_true. intros He. rewrite He in Hbound. by rewrite lookup_empty in Hbound. }
  cbn [body] in *. rewrite Htruthy in *.
  set (h := alter (insert "namespaces" (VRef ns)) (callable_kwargs sf) (st_heap st)) in *.
  assert (Hkw : deref h (callable_kwargs sf)
                = <["namespaces" := VRef ns]> (deref (st_heap st) (callable_kwargs sf))).
  { unfold h. by rewrite deref_alter_eq. }
  destruct (convert_to_csv_returns (st_tree st) h n (deref h (callable_kwargs sf))
              (st_os st) ns) as (w' & Hcall & Hwr' & Hcontent & Hother').
  { rewrite Hkw. unfold get. by rewrite lookup_insert_eq. }
  { unfold h. by rewrite deref_alter_ne. }
  { rewrite Hkw. unfold get. rewrite lookup_insert_ne by done.
    destruct Hdkw as [->|[_ ->]]; [by rewrite Hpath|].
    unfold merged. rewrite lookup_insert_ne by done. by rewrite Hpath. }
  { done. }
  rewrite Hf, Hargs in *. rewrite Hcall in *.
  pose proof Hinv as (W & _).
  destruct (prune_done n (st_tree st) (st_pruned st) W Hrf) as (s' & pr' & Hpr & Hrf').
  destruct (prune_frame n (st_tree st) (st_pruned st)) as (Hfd & Hft & Hfl).
  rewrite Hpr in *. cbn [fst snd state_of] in *.
  eexists. split; [done|].
  unfold table_inv. cbn [st_tree st_open st_heap st_os st_log st_pruned].
  split; [|split; [done|split; [by rewrite Hft|split; [done|split;
    [|split; [done|split; [by rewrite Hcontent, Hout|]]]]]]].
  - split; [|split; [done|]].
    + apply Hbi. intros e' [= <-]. done.
    + cbn [st_tree]. intros x. rewrite Hfd. apply Hdoc.
  - rewrite ns_entries_app, Hlog. by rewrite app_nil_r.
  - intros g Hg. rewrite Hother' by done. by apply Hother.
Qed.

(** One row. *)
Lemma row_run (r0 : row) (st : state) (out : string) :
  Forall (fun c => cell_tag c ≠ rowtag) (row_cells r0) →
  tinv out st →
  ∃ st', run_tokens sf ns (tokens_of (row_content rowtag r0)) st = Done st'
    ∧ tinv (out +:+ Csv.writerow (map cell_text (row_cells r0))) st'.
Proof.
  intros Hcells Hinv0.
  pose proof Hinv0 as (Hw & Ho & Hrt & Hd & Hlog & Hwr & Hout & Hother).
  destruct (walking_top_not_document st 1 [0] Hw Ho ltac:(done)) as [Hnd H1].
  set (n := length (st_tree st)).
  set (s1 := append_child (st_tree st) 1 KElement rowtag None (row_attrib r0)).
  destruct (walking_append st 1 [0] KElement rowtag None (row_attrib r0) Ho Hw)
    as [_ Hw1]; [done|by right; left|]. fold s1 n in Hw1.
  destruct (append_child_obs (st_tree st) 1 KElement rowtag None (row_attrib r0) H1)
    as (Hch1 & _ & Hl1).
  destruct (append_child_kind (st_tree st) 1 KElement rowtag None (row_attrib r0))
    as (Hold1 & _ & _ & Htg1).
  fold s1 n in Hch1, Hl1, Hold1, Htg1.
  assert (Hstart : sax_step (tag sf) (st_tree st) (st_open st)
                     (TStart rowtag [] (row_attrib r0))
                   = SaxOk s1 [n; 1; 0] []).
  { rewrite Ho. done. }
  assert (Hchn : children s1 n = []).
  { rewrite Hch1. rewrite decide_False by (unfold n; lia).
    unfold children. by rewrite (lookup_ge_None_2 (st_tree st) n) by (unfold n; lia). }
  set (st1 := mkState s1 [n; 1; 0] (st_heap st) (st_os st) (st_log st) (st_pruned st)) in *.
  destruct (cells_run (row_cells r0) st1 n [1; 0] Hcells eq_refl ltac:(done) Hw1)
    as (st2 & Hrun2 & Ho2 & Hw2 & Hh2 & Hos2 & Hl2 & Htx2 & Hold2 & Hlen2).
  cbn [st1 st_tree st_open st_heap st_os st_log] in Ho2, Hh2, Hos2, Hl2, Htx2, Hold2, Hlen2.
  rewrite Hchn in Htx2. cbn [map app] in Htx2.
  assert (Htgn : tag_of (st_tree st2) n = rowtag).
  { rewrite Hold2 by (rewrite Hl1; unfold n; lia). done. }
  assert (Htg1' : tag_of (st_tree st2) 1 = roottag).
  { rewrite Hold2 by (rewrite Hl1; lia).
    destruct (Hold1 1) as (_ & _ & ->); [unfold n; lia|done]. }
  assert (Hend : sax_step (tag sf) (st_tree st2) (st_open st2) TEnd
                 = SaxOk (st_tree st2) [1; 0] [End n]).
  { rewrite Ho2. unfold sax_step. rewrite Htgn, Htag. simpl. by rewrite String.eqb_refl. }
  pose proof Hw2 as (Hinv2 & Hrf2 & Hdoc2).
  destruct (sax_step_inv _ _ _ _ _ _ _ _ Hinv2 Hend) as [Hinv3 Hnot].
  set (st3 := mkState (st_tree st2) [1; 0] (st_heap st2) (st_os st2) (st_log st2)
                (st_pruned st2)).
  assert (Hinv3' : tinv out st3).
  { split; [split; [exact Hinv3|split; done]|]. split; [done|]. split; [done|].
    split; [|split; [by cbn; rewrite Hl2|split; [by cbn; rewrite Hos2|
      split; [by cbn; rewrite Hos2|by cbn; rewrite Hos2]]]].
    unfold dispatch_inv in *. cbn [st3 st_heap st_log]. by rewrite Hh2, Hl2. }
  destruct (row_end st3 n out Hinv3') as (st4 & Hbody & Hinv4).
  { apply Hnot. apply elem_of_cons. by left. }
  cbn [st3 st_tree] in Hinv4. rewrite Htx2 in Hinv4.
  exists st4. split; [|done].
  unfold row_content. cbn [tokens_of run_tokens]. rewrite Hstart.
  cbn [run_events obind]. fold st1.
  rewrite run_tokens_app, Hrun2. cbn [obind run_tokens]. rewrite Hend. fold st3.
  cbn [run_events]. rewrite Hbody. done.
Qed.

(** The rows of a table, one after the other. *)
Lemma rows_run (rows : list row) : ∀ (st : state) (out : string),
  Forall (fun r => Forall (fun c => cell_tag c ≠ rowtag) (row_cells r)) rows →
  tinv out st →
  ∃ st', run_tokens sf ns (flat_map tokens_of (map (row_content rowtag) rows)) st = Done st'
    ∧ tinv (out +:+ csv_of rows) st'.
Proof.
  induction rows as [|r0 rows IH]; intros st out Hrows Hinv.
  - exists st. split; [done|]. simpl. by rewrite string_app_nil_r.
  - apply Forall_cons in Hrows as [Hr0 Hrows].
    destruct (row_run r0 st out Hr0 Hinv) as (st1 & Hrun1 & Hinv1).
    destruct (IH st1 _ Hrows Hinv1) as (st2 & Hrun2 & Hinv2).
    exists st2. split.
    + cbn [map flat_map]. rewrite run_tokens_app, Hrun1. done.
    + cbn [csv_of]. by rewrite <- string_app_assoc.
Qed.

End table.

Lemma start_ns_run sf ns nsdecl : ∀ st,
  ∃ st', run_events sf ns (map (fun '(p, u) => StartNs p u) nsdecl) st = Done st'
    ∧ st_tree st' = st_tree st ∧ st_open st' = st_open st
    ∧ st_pruned st' = st_pruned st ∧ st_os st' = st_os st
    ∧ ns_entries (st_log st') = ns_entries (st_log st) ++ nsdecl.
Proof.
  induction nsdecl as [|[p u] nsdecl IH]; intros st.
  - exists st. by rewrite app_nil_r.
  - simpl. destruct (IH (mkState (st_tree st) (st_open st)
                           (alter (observe p u) ns (st_heap st)) (st_os st)
                           (st_log st ++ [LNs p u]) (st_pruned st)))
      as (st' & -> & Ht & Ho & Hp & Hos & Hl).
    exists st'. simpl in *. rewrite Hl, ns_entries_app, <- app_assoc. done.
Qed.

Lemma run_misc_os sf ns ms : ∀ st,
  st_open st ≠ [] →
  ∃ st', run_tokens sf ns (map tokens_of_misc ms) st = Done st'
    ∧ st_open st' = st_open st ∧ st_os st' = st_os st.
Proof.
  induction ms as [|m ms IH]; intros st Ho; [by exists st|].
  destruct (st_open st) as [|top rest] eqn:E; [done|].
  destruct m as [x|target data]; simpl; rewrite E; simpl.
  - destruct (IH (mkState (append_child (st_tree st) top KComment EmptyString (Some x) [])
                    (top :: rest) (st_heap st) (st_os st) (st_log st) (st_pruned st)))
      as (st' & -> & Hopen & Hos); [done|]. by exists st'.
  - destruct (IH (mkState (append_child (st_tree st) top KPI target (Some data) [])
                    (top :: rest) (st_heap st) (st_os st) (st_log st) (st_pruned st)))
      as (st' & -> & Hopen & Hos); [done|]. by exists st'.
Qed.

(** The loop on a table. *)
Lemma table_run (sf : self) (roottag rowtag : string)
    (nsdecl attrib : list (string * string)) (rows : list row) (epilog : list misc)
    (u path : string) (h : heap) (w : os_state) :
  python_callable sf = convert_to_csv →
  callable_args sf = [] →
  tag sf = Some rowtag →
  callable_kwargs sf < length h →
  deref h (callable_kwargs sf) !! "csv_file" = Some (VStr path) →
  last_observed "ns" nsdecl = Some u →
  roottag ≠ rowtag →
  Forall (fun r => Forall (fun c => cell_tag c ≠ rowtag) (row_cells r)) rows →
  writable w path →
  ∃ st, fast_iteration sf
          (tokens_of_document (table_document roottag rowtag nsdecl attrib rows epilog))
          (initial_state h w) = Done st
      ∧ csv_content (st_os st) path = csv_content w path +:+ csv_of rows
      ∧ (∀ g, g ≠ path → fs (st_os st) !! g = fs w !! g).
Proof.
  intros Hf Hargs Htag Hkw Hpath Hns Hroot Hrows Hwr.
  set (ns := length h). set (kw0 := deref h (callable_kwargs sf)).
  assert (Hne : callable_kwargs sf ≠ ns) by (unfold ns; lia).
  set (body_toks := flat_map tokens_of (map (row_content rowtag) rows)).
  set (epi := map tokens_of_misc epilog).
  assert (Htoks : tokens_of_document (table_document roottag rowtag nsdecl attrib rows epilog)
                  = TStart roottag nsdecl attrib :: body_toks ++ [TEnd] ++ epi).
  { unfold tokens_of_document, table_document, d_root. cbn [d_prolog d_tag d_nsdecl d_attrib
      d_body d_epilog map app].
    change (tokens_of (CElem ?a ?b ?c ?l))
      with (TStart a b c :: flat_map tokens_of l ++ [TEnd]).
    simpl. by rewrite <- app_assoc. }
  rewrite Htoks.
  pose proof (rooted_after_start sf ns roottag nsdecl attrib (body_toks ++ [TEnd] ++ epi)
                (h ++ [∅]) w) as Hrooted.
  unfold fast_iteration, alloc.
  cbn [initial_state st_heap st_tree st_open st_os st_log st_pruned].
  change (mkState empty_tree [0] (h ++ [∅]) w [] []) with (initial_state (h ++ [∅]) w) in *.
  fold ns in Hrooted |- *.
  (* the start tag of the root element *)
  set (s1 := append_child empty_tree 0 KElement roottag None attrib).
  set (st0 := mkState s1 [1; 0] (h ++ [∅]) w [] []).
  assert (Hstart : sax_step (tag sf) (st_tree (initial_state (h ++ [∅]) w))
                     (st_open (initial_state (h ++ [∅]) w)) (TStart roottag nsdecl attrib)
                   = SaxOk s1 [1; 0] (map (fun '(p, u) => StartNs p u) nsdecl)) by done.
  destruct (start_ns_run sf ns nsdecl st0) as (st1 & Hev1 & Ht1 & Ho1 & Hp1 & Hos1 & Hl1).
  cbn [st0 st_tree st_open st_pruned st_os st_log] in Ht1, Ho1, Hp1, Hos1, Hl1.
  assert (Hw0 : walking st0).
  { destruct (walking_append (initial_state (h ++ [∅]) w) 0 [] KElement roottag None attrib)
      as [_ H]; [done|apply walking_initial|done|by right; right|]. exact H. }
  assert (Hw1 : walking st1) by (by eapply walking_fields; [| | |exact Hw0]).
  assert (Hd0 : dispatch_inv sf ns kw0 st0).
  { unfold dispatch_inv, st0, ns, kw0. cbn [st_heap st_log]. rewrite length_app. simpl.
    split; [lia|]. split; [lia|]. split; [apply deref_fresh|].
    split; [left; by apply deref_app_l|]. split.
    - intros (pre & c & post & H & _). by destruct pre.
    - intros pre c post H. by destruct pre. }
  assert (Hd1 : dispatch_inv sf ns kw0 st1).
  { pose proof (run_events_inv (dispatch_inv sf ns kw0) sf ns
                  (dispatch_inv_body sf ns kw0 Hne)
                  (map (fun '(p, u) => StartNs p u) nsdecl) st0 Hd0) as H.
    by rewrite Hev1 in H. }
  assert (Hinv1 : table_inv sf ns kw0 roottag nsdecl path w (csv_content w path) st1).
  { split; [done|]. split; [done|]. split.
    { rewrite Ht1. unfold s1.
      destruct (append_child_kind empty_tree 0 KElement roottag None attrib)
        as (_ & _ & _ & H). exact H. }
    split; [done|]. split; [done|]. rewrite Hos1. done. }
  (* the rows *)
  destruct (rows_run sf ns rowtag Htag kw0 roottag nsdecl u path w Hf Hargs Hne Hns Hpath
              rows st1 _ Hrows Hinv1) as (st2 & Hrun2 & Hinv2).
  pose proof Hinv2 as (Hw2 & Ho2 & Hrt2 & _ & _ & _ & Hout2 & Hother2).
  (* the end tag of the root element *)
  assert (Hend : sax_step (tag sf) (st_tree st2) (st_open st2) TEnd
                 = SaxOk (st_tree st2) [0] []).
  { rewrite Ho2. unfold sax_step. rewrite Hrt2, Htag. simpl.
    apply String.eqb_neq in Hroot. rewrite String.eqb_sym in Hroot. by rewrite Hroot. }
  set (st3 := mkState (st_tree st2) [0] (st_heap st2) (st_os st2) (st_log st2)
                (st_pruned st2)).
  destruct (run_misc_os sf ns epilog st3) as (st4 & Hrun4 & Ho4 & Hos4); [done|].
  assert (Hwhole : run_tokens sf ns (TStart roottag nsdecl attrib
                                       :: body_toks ++ [TEnd] ++ epi)
                     (initial_state (h ++ [∅]) w) = Done st4).
  { cbn [run_tokens]. rewrite Hstart.
    cbn [initial_state st_heap st_os st_log st_pruned]. fold st0. rewrite Hev1. cbn [obind].
    rewrite run_tokens_app. fold body_toks in Hrun2. rewrite Hrun2. cbn [obind].
    cbn [app run_tokens]. rewrite Hend. fold st3. cbn [run_events obind]. exact Hrun4. }
  rewrite Hwhole in Hrooted |- *. cbn [state_of obind] in *.
  unfold sax_close. rewrite Ho4. cbn [st3 st_open]. rewrite Hrooted.
  exists st4. split; [done|]. rewrite Hos4. cbn [st3 st_os]. done.
Qed.







(** The lines of the sample table. *)
Example sample_table_lines :
  csv_of sample_rows
  = String "A" (String ";" (String "B" (String Csv.CR (String Csv.LF
     (String "C" (String ";" (String Csv.CR (String Csv.LF EmptyString)))))))).
Proof. vm_compute. reflexivity. Qed.

(** ** What is left of the tree after a call *)















